(** * fetch_proxies.py: the node processing pipeline

    A shallow embedding of [src/fetch_proxies.py] (deduplication, region
    filter, latency probe and ranking, region classification, assembly of
    the Clash Meta configuration, and the driver [main]) together with the
    properties the specification states about it.

    Conventions of the embedding.
    - A Python [str] is the list of its code points ([pystr]).  Literals
      are written as in the source and decoded from UTF-8 by [u].
    - A node is a Python [dict]; it is a finite map from keys to YAML
      values ([gmap pystr value]).  The functions on lists of such maps
      ([deduplicate_proxies], [test_proxies_latency], ...) describe a
      list whose entries are distinct objects, where the assignment
      [proxy["name"] = ...] only changes the entry at hand.  The
      functions whose names end in [_shared] are the same functions on
      references into a store of objects, where one object may be listed
      several times and an assignment shows at each of its places; on a
      list without a repeated object the two agree.
    - Exceptions are explicit: a function that can raise returns a
      [result].
    - What a run takes from outside is a parameter: Python's parser of
      integers in a [str] ([int_of_str]), the answer of the network to
      each probe and the time it took ([net]), the order in which
      [as_completed] yields the futures ([completion]), the reading of the
      clock ([now]), the YAML decoder ([decode]) and the answers to the
      requests ([http]).
    - The float [latency_ms] that a probe measures is carried as the
      rational number it denotes.  [round(latency_ms, 1)] has one decimal
      digit; it is carried as its number of tenths of a millisecond
      ([round_tenths]), so that [int(latency)] is the quotient by ten and
      the order of the floats is the order of these integers. *)

From Stdlib Require Import ZArith NArith QArith List String Ascii Lia Bool.
From Stdlib Require Import Sorting.Sorted Sorting.Permutation DecimalPos.
From stdpp Require Import base option list gmap.
Import ListNotations.

Local Open Scope Z_scope.

(** ** Python strings *)

Definition pystr := list N.

(** UTF-8 decoding of a literal: [need] continuation bytes are still
    expected and [acc] holds the bits read so far. *)
Fixpoint utf8 (bs : list N) (need : nat) (acc : N) : pystr :=
  match bs with
  | [] => []
  | b :: bs' =>
    match need with
    | O =>
        if (b <? 128)%N then b :: utf8 bs' 0 0%N
        else if (b <? 224)%N then utf8 bs' 1 (b - 192)%N
        else if (b <? 240)%N then utf8 bs' 2 (b - 224)%N
        else utf8 bs' 3 (b - 240)%N
    | S O => (acc * 64 + (b - 128))%N :: utf8 bs' 0 0%N
    | S n => utf8 bs' n (acc * 64 + (b - 128))%N
    end
  end.

Definition u (s : string) : pystr :=
  utf8 (map N_of_ascii (list_ascii_of_string s)) 0 0%N.
#[global] Arguments u s : simpl never.

(** [str.isspace] on one code point (the Unicode white space set). *)
Definition py_isspace (c : N) : bool :=
  ((9 <=? c) && (c <=? 13) || (28 <=? c) && (c <=? 32)
   || (c =? 133) || (c =? 160) || (c =? 5760)
   || (8192 <=? c) && (c <=? 8202)
   || (c =? 8232) || (c =? 8233) || (c =? 8239) || (c =? 8287)
   || (c =? 12288))%N.

Fixpoint lstrip (s : pystr) : pystr :=
  match s with
  | c :: s' => if py_isspace c then lstrip s' else s
  | [] => []
  end.

(** [s.strip()] *)
Definition strip (s : pystr) : pystr := rev (lstrip (rev (lstrip s))).

(** Decimal rendering of an [int], as [str(n)] and [f"{n}"] give it. *)
Fixpoint uint_digits (d : Decimal.uint) : pystr :=
  match d with
  | Decimal.Nil => []
  | Decimal.D0 d' => 48%N :: uint_digits d'
  | Decimal.D1 d' => 49%N :: uint_digits d'
  | Decimal.D2 d' => 50%N :: uint_digits d'
  | Decimal.D3 d' => 51%N :: uint_digits d'
  | Decimal.D4 d' => 52%N :: uint_digits d'
  | Decimal.D5 d' => 53%N :: uint_digits d'
  | Decimal.D6 d' => 54%N :: uint_digits d'
  | Decimal.D7 d' => 55%N :: uint_digits d'
  | Decimal.D8 d' => 56%N :: uint_digits d'
  | Decimal.D9 d' => 57%N :: uint_digits d'
  end.

Definition str_of_int (z : Z) : pystr :=
  match z with
  | Z0 => [48%N]
  | Zpos p => uint_digits (Pos.to_uint p)
  | Zneg p => 45%N :: uint_digits (Pos.to_uint p)
  end.

(** ** YAML values and exceptions *)

(** What the program can observe of a float: whether it is a NaN, an
    infinity, or finite, and then whether it is non-zero and what [int()]
    truncates it to. *)
Inductive pyfloat :=
| FNan
| FInf (negative : bool)
| FFinite (nonzero : bool) (truncated : Z).

(** A decoded YAML value.  Floats and nested containers carry their
    [str()] rendering ([shown]), the only other thing the program asks of
    them. *)
Inductive value :=
| VNone
| VBool (b : bool)
| VInt (z : Z)
| VFloat (f : pyfloat) (shown : pystr)
| VStr (s : pystr)
| VSeq (nonempty : bool) (shown : pystr).

(** An element of a decoded [proxies:] list: a mapping, or anything else. *)
Inductive entry :=
| EDict (d : gmap pystr value)
| EOther (v : value).

Inductive exn := KeyError | TypeError | ValueError | OverflowError.

Inductive result (A : Type) :=
| Ok (a : A)
| Raise (e : exn).
Arguments Ok {A} a.
Arguments Raise {A} e.

(** [result] is a monad; stdpp's notation [x ← r; k] sequences two steps
    and stops at the first exception. *)
#[global] Instance result_bind : MBind result := fun A B k r =>
  match r with
  | Ok a => k a
  | Raise e => Raise e
  end.

#[global] Instance result_ret : MRet result := fun A a => Ok a.

(** A [for] loop whose body may raise: the first exception ends it. *)
Fixpoint for_each {St A} (body : St -> A -> result St) (xs : list A)
  (s : St) : result St :=
  match xs with
  | [] => Ok s
  | x :: xs' =>
    match body s x with
    | Ok s' => for_each body xs' s'
    | Raise e => Raise e
    end
  end.

(** [str(v)] *)
Definition py_str (v : value) : pystr :=
  match v with
  | VNone => u "None"
  | VBool true => u "True"
  | VBool false => u "False"
  | VInt z => str_of_int z
  | VFloat _ shown => shown
  | VStr s => s
  | VSeq _ shown => shown
  end.

(** Truth value of [v], as [not v] tests it. *)
Definition truthy (v : value) : bool :=
  match v with
  | VNone => false
  | VBool b => b
  | VInt z => negb (z =? 0)
  | VFloat FNan _ => true
  | VFloat (FInf _) _ => true
  | VFloat (FFinite nz _) _ => nz
  | VStr s => negb (Nat.eqb (length s) 0)
  | VSeq ne _ => ne
  end.

(** ** Regular expressions

    The patterns of the source are alternations of literal texts in which
    [.?] may occur, compiled with [re.I]. *)

Inductive atom :=
| Lit (c : N)
| OptAny.

Definition regex := list (list atom).

(** Splits the text between [(?:] and [)] at [|]; [cur] is the
    alternative being read, reversed. *)
Fixpoint parse_alts (s : pystr) (cur : list atom) : regex :=
  match s with
  | [] => [rev cur]
  | c :: s' =>
    if (c =? 124)%N then rev cur :: parse_alts s' []
    else if (c =? 41)%N then [rev cur]
    else if (c =? 46)%N then
      match s' with
      | q :: s'' => if (q =? 63)%N then parse_alts s'' (OptAny :: cur)
                    else parse_alts s' (Lit c :: cur)
      | [] => [rev (Lit c :: cur)]
      end
    else parse_alts s' (Lit c :: cur)
  end.

(** [re.compile(pattern, re.I)] for a pattern of the shape [(?:a|b|...)]. *)
Definition re_compile (pattern : string) : regex :=
  parse_alts (drop 3 (u pattern)) [].

(** Simple lower-casing, exact on every code point whose lower case is an
    ASCII letter (the patterns hold no other cased character). *)
Definition unicode_tolower (c : N) : N :=
  if ((65 <=? c) && (c <=? 90))%N then (c + 32)%N
  else if (c =? 304)%N then 105%N
  else if (c =? 8490)%N then 107%N
  else c.

(** A literal under [re.I]: equal lower case, or one of the two case
    equivalences of an ASCII letter (dotless i, long s). *)
Definition lit_match (c x : N) : bool :=
  let lo := unicode_tolower c in
  ((unicode_tolower x =? lo) || (lo =? 105) && (x =? 305)
   || (lo =? 115) && (x =? 383))%N.

Fixpoint match_here (atoms : list atom) (s : pystr) : bool :=
  match atoms with
  | [] => true
  | Lit c :: r =>
    match s with
    | x :: s' => lit_match c x && match_here r s'
    | [] => false
    end
  | OptAny :: r =>
    match s with
    | x :: s' => negb (x =? 10)%N && match_here r s' || match_here r s
    | [] => match_here r s
    end
  end.

Definition match_at (r : regex) (s : pystr) : bool :=
  existsb (fun alt => match_here alt s) r.

(** Is there a match starting at some position of [s]? *)
Fixpoint search_str (r : regex) (s : pystr) : bool :=
  match_at r s
  || match s with
     | [] => false
     | _ :: s' => search_str r s'
     end.

(** [pattern.search(v)]: only a [str] can be searched. *)
Definition re_search (r : regex) (v : value) : result bool :=
  match v with
  | VStr s => Ok (search_str r s)
  | _ => Raise TypeError
  end.

(** ** Configuration *)

Definition BLOCKED_REGION_PATTERN : regex :=
  re_compile
    "(?:🇨🇳|🇭🇰|🇹🇼|🇻🇳|CN|HK|TW|VN|中国|香港|台湾|越南|China|Hong.?Kong|Taiwan|Vietnam|回国)".

Definition REGION_MAP : list (regex * pystr) :=
  [ (re_compile "(?:🇯🇵|JP|日本|Japan|东京|大阪)", u "🇯🇵 日本");
    (re_compile "(?:🇺🇸|US|美国|United.?States|洛杉矶|硅谷|纽约|达拉斯|凤凰城|西雅图)",
     u "🇺🇸 美国");
    (re_compile "(?:🇸🇬|SG|新加坡|Singapore|狮城)", u "🇸🇬 新加坡");
    (re_compile "(?:🇰🇷|KR|韩国|Korea|首尔)", u "🇰🇷 韩国");
    (re_compile "(?:🇬🇧|UK|GB|英国|United.?Kingdom|伦敦)", u "🇬🇧 英国");
    (re_compile "(?:🇩🇪|DE|德国|Germany|法兰克福)", u "🇩🇪 德国");
    (re_compile "(?:🇫🇷|FR|法国|France|巴黎)", u "🇫🇷 法国");
    (re_compile "(?:🇷🇺|RU|俄罗斯|Russia|莫斯科)", u "🇷🇺 俄罗斯");
    (re_compile "(?:🇨🇦|CA|加拿大|Canada)", u "🇨🇦 加拿大");
    (re_compile "(?:🇦🇺|AU|澳大利亚|Australia|悉尼)", u "🇦🇺 澳大利亚");
    (re_compile "(?:🇮🇳|IN|印度|India|孟买)", u "🇮🇳 印度");
    (re_compile "(?:🇧🇷|BR|巴西|Brazil)", u "🇧🇷 巴西") ].

Definition ALL_REGION_NAMES : list pystr := map snd REGION_MAP.

(** ** Nodes *)

Abbreviation proxy := (gmap pystr value).

(** The keys the pipeline reads. *)
Definition k_name : pystr := u "name".
Definition k_type : pystr := u "type".
Definition k_server : pystr := u "server".
Definition k_port : pystr := u "port".

(** [key in d] *)
Definition has_key (key : pystr) (d : proxy) : bool :=
  match d !! key with
  | Some _ => true
  | None => false
  end.

(** [d.get(key, dflt)] *)
Definition dict_get (key : pystr) (dflt : value) (d : proxy) : value :=
  default dflt (d !! key).

(** [d[key]] *)
Definition dict_item (key : pystr) (d : proxy) : result value :=
  match d !! key with
  | Some v => Ok v
  | None => Raise KeyError
  end.

(** ** Node Normalizer: [deduplicate_proxies] *)

(** The variables of the loop: [seen_names] and [result]. *)
Record dedup_state := {
  seen_names : gmap pystr Z;
  dedup_result : list proxy
}.

(** One turn of the loop over [all_proxies], for a list of distinct
    objects: the renamed entry is what [result] receives.  On a list
    that holds one object twice the assignment [proxy["name"] = name]
    shows at both places; [dedup_step_shared] is the turn on references
    into a store, and the two agree when no object is repeated
    ([deduplicate_proxies_shared_values]). *)
Definition dedup_step (st : dedup_state) (e : entry) : dedup_state :=
  match e with
  | EOther _ => st
  | EDict p =>
    if negb (has_key k_name p) || negb (has_key k_type p)
       || negb (has_key k_server p)
    then st
    else
      let name := strip (py_str (dict_get k_name VNone p)) in
      if Nat.eqb (length name) 0 then st
      else
        match seen_names st !! name with
        | Some n =>
            let name' := name ++ u "_" ++ str_of_int (n + 1) in
            {| seen_names := <[name := n + 1]> (seen_names st);
               dedup_result :=
                 dedup_result st ++ [<[k_name := VStr name']> p] |}
        | None =>
            {| seen_names := <[name := 0]> (seen_names st);
               dedup_result :=
                 dedup_result st ++ [<[k_name := VStr name]> p] |}
        end
  end.

Definition deduplicate_proxies (all_proxies : list entry) : list proxy :=
  dedup_result
    (fold_left dedup_step all_proxies
       {| seen_names := ∅; dedup_result := [] |}).

(** ** Region Filter: [filter_blocked_regions] *)

(** One turn of the loop; the state is [(result, blocked_count)]. *)
Definition filter_step (st : list proxy * Z) (p : proxy)
  : result (list proxy * Z) :=
  let name := dict_get k_name (VStr []) p in
  blocked ← re_search BLOCKED_REGION_PATTERN name;
  mret (if blocked : bool then (st.1, st.2 + 1) else (st.1 ++ [p], st.2)).

Definition filter_blocked_regions (proxies : list proxy)
  : result (list proxy) :=
  st ← for_each filter_step proxies ([], 0);
  mret st.1.

(** ** Reachability Prober: [test_single_proxy], [test_proxies_latency] *)

(** [round(x, 0)] of a float, given as the rational number it denotes:
    Python rounds the exact value to the nearest integer, and a value
    half way between two goes to the even one. *)
Definition round_half_even (x : Q) : Z :=
  let n := Qnum x in
  let d := Z.pos (Qden x) in
  let below := n / d in
  match 2 * (n mod d) ?= d with
  | Lt => below
  | Gt => below + 1
  | Eq => if Z.even below then below else below + 1
  end.

(** [round(latency_ms, 1)], in tenths of a millisecond. *)
Definition round_tenths (latency_ms : Q) : Z :=
  round_half_even (latency_ms * 10)%Q.

(** What [sock.connect((server, port))] and the clock around it come to. *)
Inductive conn_outcome :=
| Connected (latency_ms : Q)
    (* the call returned; [latency_ms] is the float of line 245, as the
       rational number it denotes *)
| ConnError
    (* [socket.timeout], [socket.error] or another [OSError] *)
| ConnRaise (e : exn).
    (* an exception of another class, which the handler lets through *)

(** [int(v)].  [int] on a [str] is Python's own parser, [int_of_str],
    which gives [None] where it raises [ValueError]. *)
Definition py_int (int_of_str : pystr -> option Z) (v : value) : result Z :=
  match v with
  | VNone => Raise TypeError
  | VBool b => Ok (if b then 1 else 0)
  | VInt z => Ok z
  | VFloat FNan _ => Raise ValueError
  | VFloat (FInf _) _ => Raise OverflowError
  | VFloat (FFinite _ t) _ => Ok t
  | VStr s =>
    match int_of_str s with
    | Some z => Ok z
    | None => Raise ValueError
    end
  | VSeq _ _ => Raise TypeError
  end.

(** The probe of one node; [sock_connect] is the network as this call
    meets it.  The latency is [None] for an unreachable node, and
    [round(latency_ms, 1)] for a node to which the connection was made. *)
Definition test_single_proxy (int_of_str : pystr -> option Z)
  (sock_connect : value -> Z -> conn_outcome) (p : proxy)
  : result (proxy * option Z) :=
  let server := dict_get k_server (VStr []) p in
  let port := dict_get k_port (VInt 0) p in
  if negb (truthy server) || negb (truthy port) then Ok (p, None)
  else
    match py_int int_of_str port with
    | Raise ValueError | Raise TypeError => Ok (p, None)
    | Raise e => Raise e
    | Ok port' =>
      match sock_connect server port' with
      | Connected latency_ms => Ok (p, Some (round_tenths latency_ms))
      | ConnError => Ok (p, None)
      | ConnRaise e => Raise e
      end
    end.

(** [as_completed]: the futures in the order [completion] in which the
    iterator yields them, given by their indices of submission.  The
    futures that are still pending at the call are yielded as they
    finish; those already finished at the call come first, in the order
    of iteration of a [set], which is no order of time. *)
Definition as_completed {A} (completion : list nat) (futures : list A)
  : list A :=
  omap (fun i => futures !! i) completion.

(** The variables of the collecting loop. *)
Record probe_state := {
  alive_proxies : list (proxy * Z);
  timeout_count : Z;
  tested : Z
}.

(** One turn of the loop over the completed futures; [future.result()]
    raises what the probe raised. *)
Definition collect_step (st : probe_state)
  (future : result (proxy * option Z)) : result probe_state :=
  r ← future;
  match r.2 with
  | Some latency =>
      mret {| alive_proxies := alive_proxies st ++ [(r.1, latency)];
              timeout_count := timeout_count st;
              tested := tested st + 1 |}
  | None =>
      mret {| alive_proxies := alive_proxies st;
              timeout_count := timeout_count st + 1;
              tested := tested st + 1 |}
  end.

(** [list.sort(key=lambda x: x[1])] is a stable sort; the result of a
    stable sort does not depend on the algorithm, and insertion from the
    right computes it. *)
Fixpoint insert_by_latency (x : proxy * Z) (l : list (proxy * Z))
  : list (proxy * Z) :=
  match l with
  | [] => [x]
  | y :: l' =>
    if x.2 <=? y.2 then x :: l else y :: insert_by_latency x l'
  end.

Fixpoint sort_by_latency (l : list (proxy * Z)) : list (proxy * Z) :=
  match l with
  | [] => []
  | x :: l' => insert_by_latency x (sort_by_latency l')
  end.

(** [int(latency)] of a latency given in tenths. *)
Definition int_of_latency (latency : Z) : Z := Z.quot latency 10.

(** One turn of the renaming loop:
    [proxy["name"] = f"[{int(latency)}ms] {proxy['name']}"], for a list of
    distinct objects.  [tag_step_shared] is the turn on references into a
    store, and the two agree when no object is repeated
    ([test_proxies_latency_shared_values]). *)
Definition tag_step (res : list proxy) (x : proxy * Z)
  : result (list proxy) :=
  old ← dict_item k_name x.1;
  let name :=
    u "[" ++ str_of_int (int_of_latency x.2) ++ u "ms] " ++ py_str old in
  mret (res ++ [<[k_name := VStr name]> x.1]).

(** The ranked survivors of a run, before the names are rewritten. *)
Definition ranked_alive (int_of_str : pystr -> option Z)
  (net : nat -> value -> Z -> conn_outcome) (completion : list nat)
  (proxies : list proxy) : result (list (proxy * Z)) :=
  let futures :=
    imap (fun i p => test_single_proxy int_of_str (net i) p) proxies in
  st ← for_each collect_step (as_completed completion futures)
         {| alive_proxies := []; timeout_count := 0; tested := 0 |};
  mret (sort_by_latency (alive_proxies st)).

(** [net i] is the network as the probe submitted [i]-th meets it. *)
Definition test_proxies_latency (int_of_str : pystr -> option Z)
  (net : nat -> value -> Z -> conn_outcome) (completion : list nat)
  (proxies : list proxy) : result (list proxy) :=
  alive ← ranked_alive int_of_str net completion proxies;
  for_each tag_step alive [].

(** ** Region Classifier: [classify_by_region] *)

(** An [OrderedDict] from labels to lists: the keys in order of insertion. *)
Definition region_dict := list (pystr * list value).

(** [key in d] *)
Definition od_mem (key : pystr) (d : region_dict) : bool :=
  existsb (fun kv => bool_decide (kv.1 = key)) d.

(** [d[key]] for a key that is there; the empty list stands for no key. *)
Fixpoint od_get (key : pystr) (d : region_dict) : list value :=
  match d with
  | [] => []
  | (k, xs) :: d' => if decide (k = key) then xs else od_get key d'
  end.

(** [d.setdefault(key, []).append(x)] *)
Fixpoint od_append (key : pystr) (x : value) (d : region_dict)
  : region_dict :=
  match d with
  | [] => [(key, [x])]
  | (k, xs) :: d' =>
    if decide (k = key) then (k, xs ++ [x]) :: d'
    else (k, xs) :: od_append key x d'
  end.

(** The inner loop: the label of the first pattern of the catalog that
    [name] matches. *)
Fixpoint first_match (catalog : list (regex * pystr)) (name : value)
  : result (option pystr) :=
  match catalog with
  | [] => Ok None
  | (pattern, region_name) :: catalog' =>
    found ← re_search pattern name;
    if found : bool then Ok (Some region_name)
    else first_match catalog' name
  end.

(** One turn of the outer loop. *)
Definition classify_step (catalog : list (regex * pystr))
  (region_groups : region_dict) (p : proxy) : result region_dict :=
  name ← dict_item k_name p;
  label ← first_match catalog name;
  match label with
  | Some region_name => mret (od_append region_name name region_groups)
  | None => mret region_groups
  end.

(** The classifier over any catalog. *)
Definition classify_with (catalog : list (regex * pystr))
  (proxies : list proxy) : result region_dict :=
  for_each (classify_step catalog) proxies [].

Definition classify_by_region (proxies : list proxy) : result region_dict :=
  classify_with REGION_MAP proxies.

(** ** Routing Config Assembler: [build_config] *)

Record group := {
  g_name : pystr;
  g_type : pystr;
  g_url : option pystr;
  g_interval : option Z;
  g_tolerance : option Z;
  g_proxies : list value
}.

Definition select_group (name : pystr) (members : list value) : group :=
  {| g_name := name; g_type := u "select"; g_url := None;
     g_interval := None; g_tolerance := None; g_proxies := members |}.

Definition build_rules : list pystr :=
  map u [
    "DOMAIN-SUFFIX,ads.google.com,⛔ 广告拦截"%string;
    "DOMAIN-SUFFIX,adservice.google.com,⛔ 广告拦截"%string;
    "DOMAIN-SUFFIX,googleadservices.com,⛔ 广告拦截"%string;
    "DOMAIN-SUFFIX,doubleclick.net,⛔ 广告拦截"%string;
    "DOMAIN-SUFFIX,ad.com,⛔ 广告拦截"%string;
    "DOMAIN-SUFFIX,adnxs.com,⛔ 广告拦截"%string;
    "DOMAIN-SUFFIX,adsrvr.org,⛔ 广告拦截"%string;
    "DOMAIN-SUFFIX,pgdt.ugdtimg.com,⛔ 广告拦截"%string;
    "DOMAIN-KEYWORD,adservice,⛔ 广告拦截"%string;
    "DOMAIN-KEYWORD,tracking,⛔ 广告拦截"%string;
    "DOMAIN-SUFFIX,malware-site.example,🚨 病毒网站"%string;
    "DOMAIN-SUFFIX,cn,DIRECT"%string;
    "DOMAIN-SUFFIX,baidu.com,DIRECT"%string;
    "DOMAIN-SUFFIX,qq.com,DIRECT"%string;
    "DOMAIN-SUFFIX,taobao.com,DIRECT"%string;
    "DOMAIN-SUFFIX,tmall.com,DIRECT"%string;
    "DOMAIN-SUFFIX,jd.com,DIRECT"%string;
    "DOMAIN-SUFFIX,alipay.com,DIRECT"%string;
    "DOMAIN-SUFFIX,163.com,DIRECT"%string;
    "DOMAIN-SUFFIX,126.com,DIRECT"%string;
    "DOMAIN-SUFFIX,weibo.com,DIRECT"%string;
    "DOMAIN-SUFFIX,bilibili.com,DIRECT"%string;
    "DOMAIN-SUFFIX,zhihu.com,DIRECT"%string;
    "DOMAIN-SUFFIX,douyin.com,DIRECT"%string;
    "DOMAIN-SUFFIX,toutiao.com,DIRECT"%string;
    "DOMAIN-SUFFIX,csdn.net,DIRECT"%string;
    "DOMAIN-SUFFIX,aliyun.com,DIRECT"%string;
    "DOMAIN-SUFFIX,aliyuncs.com,DIRECT"%string;
    "DOMAIN-SUFFIX,tencentcloud.com,DIRECT"%string;
    "DOMAIN-SUFFIX,meituan.com,DIRECT"%string;
    "DOMAIN-SUFFIX,dianping.com,DIRECT"%string;
    "DOMAIN-SUFFIX,mi.com,DIRECT"%string;
    "DOMAIN-SUFFIX,xiaomi.com,DIRECT"%string;
    "DOMAIN-SUFFIX,google.com,🚀 选择代理"%string;
    "DOMAIN-SUFFIX,google.co.jp,🚀 选择代理"%string;
    "DOMAIN-SUFFIX,googleapis.com,🚀 选择代理"%string;
    "DOMAIN-SUFFIX,gstatic.com,🚀 选择代理"%string;
    "DOMAIN-SUFFIX,youtube.com,🚀 选择代理"%string;
    "DOMAIN-SUFFIX,ytimg.com,🚀 选择代理"%string;
    "DOMAIN-SUFFIX,googlevideo.com,🚀 选择代理"%string;
    "DOMAIN-SUFFIX,gmail.com,🚀 选择代理"%string;
    "DOMAIN-SUFFIX,github.com,🚀 选择代理"%string;
    "DOMAIN-SUFFIX,githubusercontent.com,🚀 选择代理"%string;
    "DOMAIN-SUFFIX,twitter.com,🚀 选择代理"%string;
    "DOMAIN-SUFFIX,x.com,🚀 选择代理"%string;
    "DOMAIN-SUFFIX,twimg.com,🚀 选择代理"%string;
    "DOMAIN-SUFFIX,facebook.com,🚀 选择代理"%string;
    "DOMAIN-SUFFIX,fbcdn.net,🚀 选择代理"%string;
    "DOMAIN-SUFFIX,instagram.com,🚀 选择代理"%string;
    "DOMAIN-SUFFIX,whatsapp.com,🚀 选择代理"%string;
    "DOMAIN-SUFFIX,telegram.org,🚀 选择代理"%string;
    "DOMAIN-SUFFIX,t.me,🚀 选择代理"%string;
    "DOMAIN-SUFFIX,wikipedia.org,🚀 选择代理"%string;
    "DOMAIN-SUFFIX,reddit.com,🚀 选择代理"%string;
    "DOMAIN-SUFFIX,netflix.com,🚀 选择代理"%string;
    "DOMAIN-SUFFIX,nflxvideo.net,🚀 选择代理"%string;
    "DOMAIN-SUFFIX,spotify.com,🚀 选择代理"%string;
    "DOMAIN-SUFFIX,discord.com,🚀 选择代理"%string;
    "DOMAIN-SUFFIX,discordapp.com,🚀 选择代理"%string;
    "DOMAIN-SUFFIX,openai.com,🚀 选择代理"%string;
    "DOMAIN-SUFFIX,claude.ai,🚀 选择代理"%string;
    "DOMAIN-SUFFIX,anthropic.com,🚀 选择代理"%string;
    "DOMAIN-SUFFIX,chatgpt.com,🚀 选择代理"%string;
    "DOMAIN-SUFFIX,amazonaws.com,🚀 选择代理"%string;
    "DOMAIN-SUFFIX,cloudflare.com,🚀 选择代理"%string;
    "DOMAIN-SUFFIX,microsoft.com,🚀 选择代理"%string;
    "DOMAIN-SUFFIX,apple.com,🚀 选择代理"%string;
    "DOMAIN-SUFFIX,icloud.com,🚀 选择代理"%string;
    "DOMAIN-SUFFIX,amazon.com,🚀 选择代理"%string;
    "DOMAIN-SUFFIX,twitch.tv,🚀 选择代理"%string;
    "DOMAIN-SUFFIX,steam.com,🚀 选择代理"%string;
    "DOMAIN-SUFFIX,steampowered.com,🚀 选择代理"%string;
    "DOMAIN-SUFFIX,steamcommunity.com,🚀 选择代理"%string;
    "DOMAIN-SUFFIX,pixiv.net,🚀 选择代理"%string;
    "DOMAIN-SUFFIX,pximg.net,🚀 选择代理"%string;
    "DOMAIN-SUFFIX,docker.com,🚀 选择代理"%string;
    "DOMAIN-SUFFIX,docker.io,🚀 选择代理"%string;
    "DOMAIN-SUFFIX,npmjs.org,🚀 选择代理"%string;
    "DOMAIN-SUFFIX,pypi.org,🚀 选择代理"%string;
    "DOMAIN-SUFFIX,huggingface.co,🚀 选择代理"%string;
    "DOMAIN-SUFFIX,medium.com,🚀 选择代理"%string;
    "DOMAIN-SUFFIX,stackoverflow.com,🚀 选择代理"%string;
    "DOMAIN-SUFFIX,hulu.com,🌐 突破锁区"%string;
    "DOMAIN-SUFFIX,hbo.com,🌐 突破锁区"%string;
    "DOMAIN-SUFFIX,hbomax.com,🌐 突破锁区"%string;
    "DOMAIN-SUFFIX,disneyplus.com,🌐 突破锁区"%string;
    "DOMAIN-SUFFIX,disney-plus.net,🌐 突破锁区"%string;
    "DOMAIN-SUFFIX,primevideo.com,🌐 突破锁区"%string;
    "DOMAIN-SUFFIX,dazn.com,🌐 突破锁区"%string;
    "GEOIP,CN,❓ 疑似国内"%string;
    "MATCH,🐟 漏网之鱼"%string ].

(** The ten groups that come before the regional ones. *)
Definition leading_groups (all_names : list value)
  (region_groups : region_dict) : list group :=
  let names_of := map (fun s => VStr (u s)) in
  let active_region_names :=
    List.filter (fun r => od_mem r region_groups) ALL_REGION_NAMES in
  [ select_group (u "🚀 选择代理")
      (names_of ["♻ 自动选择"%string; "🔰 延迟最低"%string; "✅ 手动选择"%string; "🗺️ 选择地区"%string]);
    {| g_name := u "♻ 自动选择"; g_type := u "fallback";
       g_url := Some (u "https://www.google.com/");
       g_interval := Some 300; g_tolerance := None;
       g_proxies := all_names |};
    {| g_name := u "🔰 延迟最低"; g_type := u "url-test";
       g_url := Some (u "https://www.google.com/");
       g_interval := Some 300; g_tolerance := Some 20;
       g_proxies := all_names |};
    select_group (u "✅ 手动选择") all_names;
    select_group (u "🌐 突破锁区") (names_of ["DIRECT"%string; "🚀 选择代理"%string]);
    select_group (u "❓ 疑似国内")
      (names_of ["DIRECT"%string; "🚀 选择代理"%string; "REJECT"%string]);
    select_group (u "🐟 漏网之鱼") (names_of ["DIRECT"%string; "🚀 选择代理"%string]);
    select_group (u "🚨 病毒网站") (names_of ["REJECT"%string; "DIRECT"%string]);
    select_group (u "⛔ 广告拦截")
      (names_of ["REJECT"%string; "DIRECT"%string; "🚀 选择代理"%string]);
    select_group (u "🗺️ 选择地区")
      (match active_region_names with
       | [] => [VStr (u "REJECT")]
       | _ => map VStr active_region_names
       end) ].

(** One turn of the loop over [ALL_REGION_NAMES] (step 11). *)
Definition region_group_step (region_groups : region_dict)
  (proxy_groups : list group) (region_name : pystr) : list group :=
  if od_mem region_name region_groups then
    proxy_groups ++ [select_group region_name (od_get region_name region_groups)]
  else
    proxy_groups ++ [select_group region_name [VStr (u "REJECT")]].

(** The dynamic part of [config_data]; its other keys are constants. *)
Record config := {
  cfg_proxies : list proxy;
  cfg_proxy_groups : list group;
  cfg_rules : list pystr
}.

(** [now] is the reading of the clock, already formatted. *)
Definition build_config (now : pystr) (proxies : list proxy)
  : result (config * pystr) :=
  all_names ← for_each (fun acc p => n ← dict_item k_name p; mret (acc ++ [n]))
                proxies [];
  region_groups ← classify_by_region proxies;
  let proxy_groups :=
    fold_left (region_group_step region_groups) ALL_REGION_NAMES
      (leading_groups all_names region_groups) in
  mret ({| cfg_proxies := proxies;
           cfg_proxy_groups := proxy_groups;
           cfg_rules := build_rules |}, now).

(** ** The driver: [main] *)

(** What a run has written to [outcome.meta.yml], the latest first. *)
Record world := {
  written : list (config * pystr)
}.

(** [write_output]: the configuration and the time of the header. *)
Definition write_output (config_data : config) (update_time : pystr)
  (w : world) : world :=
  {| written := (config_data, update_time) :: written w |}.

(** How a run ends. *)
Inductive status :=
| Finished
| SysExit (code : Z)
| Uncaught (e : exn).

(** [main] from the nodes gathered by its steps 1 and 2 (reading the
    subscription links, fetching and decoding them) onward. *)
Definition main (int_of_str : pystr -> option Z)
  (net : nat -> value -> Z -> conn_outcome) (completion : list nat)
  (now : pystr) (all_proxies : list entry) (w : world) : status * world :=
  match all_proxies with
  | [] => (SysExit 1, w)
  | _ =>
    let proxies := deduplicate_proxies all_proxies in
    match filter_blocked_regions proxies with
    | Raise e => (Uncaught e, w)
    | Ok [] => (SysExit 1, w)
    | Ok proxies =>
      match test_proxies_latency int_of_str net completion proxies with
      | Raise e => (Uncaught e, w)
      | Ok [] => (SysExit 1, w)
      | Ok proxies =>
        match build_config now proxies with
        | Raise e => (Uncaught e, w)
        | Ok (config_data, update_time) =>
          let w' := write_output config_data update_time w in
          match classify_by_region proxies with
          | Raise e => (Uncaught e, w')
          | Ok region_groups => (Finished, w')
          end
        end
      end
    end
  end.

(** ** Gathering the nodes: [read_urls], [fetch_content],
    [extract_proxies] and the first two steps of [main] *)

Definition MAX_RETRIES : nat := 2.

(** The value of a key of a decoded YAML mapping, as far as the program
    looks at it: a list, or anything else. *)
Inductive field :=
| FList (items : list entry)
| FOther (v : value).

(** A decoded YAML document: a mapping, or anything else. *)
Inductive document :=
| DocDict (data : gmap pystr field)
| DocOther (v : value).

(** What [yaml.safe_load] does with a text: it returns the document, or
    raises a [yaml.YAMLError], or raises an exception of another class
    (the constructor of a date raises [ValueError] for [2024-13-45]). *)
Inductive decoded :=
| Document (data : document)
| YAMLError
| DecodeRaise (e : exn).

(** The file [addr.yaml] as [read_urls] finds it: it is not there, or
    decoding it raises a [yaml.YAMLError], or it decodes to [data], or
    reading or decoding it raises an exception of another class. *)
Inductive addr_file :=
| NoFile
| BadYaml
| Parsed (data : document)
| Unreadable (e : exn).

(** A function that may end the run, with [sys.exit] or with an exception
    that nothing catches. *)
Inductive outcome (A : Type) :=
| Return (a : A)
| Exit (code : Z)
| Throw (e : exn).
Arguments Return {A} a.
Arguments Exit {A} code.
Arguments Throw {A} e.

(** [s.startswith(prefix)] *)
Fixpoint startswith (s prefix : pystr) : bool :=
  match prefix, s with
  | [], _ => true
  | c :: prefix', x :: s' => (x =? c)%N && startswith s' prefix'
  | _ :: _, [] => false
  end.

(** The element [u] of [raw_urls] as the comprehension keeps it. *)
Definition url_of (e : entry) : option pystr :=
  match e with
  | EOther (VStr s) =>
    if startswith (strip s) (u "http") then Some (strip s) else None
  | _ => None
  end.

Definition read_urls (file : addr_file) : outcome (list pystr) :=
  match file with
  | NoFile => Exit 1
  | BadYaml => Exit 1
  | Unreadable e => Throw e
  | Parsed (DocOther _) => Exit 1
  | Parsed (DocDict data) =>
    match data !! u "urls" with
    | None => Exit 1
    | Some (FOther _) => Exit 1
    | Some (FList raw_urls) => Return (omap url_of raw_urls)
    end
  end.

(** What a run does to the outside while it gathers the nodes. *)
Inductive event :=
| Request (url : pystr)
| Sleep (seconds : Z).

(** The loop of [fetch_content] over the attempts still to make.  [get]
    is the answer to each attempt: the text of the response, or [None]
    for a [RequestException] (a failed request or an error status). *)
Fixpoint fetch_loop (get : nat -> option pystr) (url : pystr)
  (attempts : list nat) : option pystr * list event :=
  match attempts with
  | [] => (None, [])
  | attempt :: rest =>
    match get attempt with
    | Some text => (Some text, [Request url])
    | None =>
      let pause :=
        if (attempt <? MAX_RETRIES)%nat then [Sleep 2] else [] in
      let r := fetch_loop get url rest in
      (r.1, Request url :: pause ++ r.2)
    end
  end.

(** The text of the subscription, or [None], and what was done for it. *)
Definition fetch_content (get : nat -> option pystr) (url : pystr)
  : option pystr * list event :=
  fetch_loop get url (seq 1 MAX_RETRIES).

(** [decode] is [yaml.safe_load].  Only a [yaml.YAMLError] is caught. *)
Definition extract_proxies (decode : pystr -> decoded) (raw_text : pystr)
  : result (list entry) :=
  match decode raw_text with
  | YAMLError => Ok []
  | DecodeRaise e => Raise e
  | Document (DocOther _) => Ok []
  | Document (DocDict data) =>
    match data !! u "proxies" with
    | Some (FList proxies) => Ok proxies
    | _ =>
      match data !! u "payload" with
      | Some (FList payload) => Ok payload
      | _ => Ok []
      end
    end
  end.

(** The variables of step 2 of [main], and the events so far. *)
Record gather_state := {
  gs_all_proxies : list entry;
  gs_success_count : Z;
  gs_events : list event
}.

(** One turn of the loop of step 2; [get] answers the requests for this
    link.  The turn gives the variables after it and the exception that
    [extract_proxies] raised in it, if any. *)
Definition gather_step (decode : pystr -> decoded)
  (get : nat -> option pystr) (st : gather_state) (url : pystr)
  : gather_state * option exn :=
  let r := fetch_content get url in
  match r.1 with
  | None =>
      ({| gs_all_proxies := gs_all_proxies st;
          gs_success_count := gs_success_count st;
          gs_events := gs_events st ++ r.2 |}, None)
  | Some content =>
    match extract_proxies decode content with
    | Raise e =>
        ({| gs_all_proxies := gs_all_proxies st;
            gs_success_count := gs_success_count st;
            gs_events := gs_events st ++ r.2 |}, Some e)
    | Ok [] =>
        ({| gs_all_proxies := gs_all_proxies st;
            gs_success_count := gs_success_count st;
            gs_events := gs_events st ++ r.2 |}, None)
    | Ok proxies =>
        ({| gs_all_proxies := gs_all_proxies st ++ proxies;
            gs_success_count := gs_success_count st + 1;
            gs_events := gs_events st ++ r.2 |}, None)
    end
  end.

(** The loop of step 2 from the [i]-th link on; [http i] answers the
    requests for the [i]-th link.  An exception ends the loop. *)
Fixpoint gather_loop (decode : pystr -> decoded)
  (http : nat -> nat -> option pystr) (i : nat) (urls : list pystr)
  (st : gather_state) : gather_state * option exn :=
  match urls with
  | [] => (st, None)
  | url :: urls' =>
    match gather_step decode (http i) st url with
    | (st', None) => gather_loop decode http (S i) urls' st'
    | (st', Some e) => (st', Some e)
    end
  end.

(** The variables of step 2 before the first link. *)
Definition gather_start : gather_state :=
  {| gs_all_proxies := []; gs_success_count := 0; gs_events := [] |}.

(** Steps 1 and 2 of [main]: the nodes of all subscriptions. *)
Definition gather (file : addr_file) (decode : pystr -> decoded)
  (http : nat -> nat -> option pystr) : outcome gather_state :=
  match read_urls file with
  | Exit code => Exit code
  | Throw e => Throw e
  | Return [] => Exit 1
  | Return urls =>
    match gather_loop decode http 1 urls gather_start with
    | (st, None) => Return st
    | (_, Some e) => Throw e
    end
  end.

(** The whole of [main]: the run of the script, and what it did to the
    outside while it gathered the nodes. *)
Definition main_script (file : addr_file)
  (decode : pystr -> decoded) (http : nat -> nat -> option pystr)
  (int_of_str : pystr -> option Z)
  (net : nat -> value -> Z -> conn_outcome) (completion : list nat)
  (now : pystr) (w : world) : status * world * list event :=
  match read_urls file with
  | Exit code => (SysExit code, w, [])
  | Throw e => (Uncaught e, w, [])
  | Return [] => (SysExit 1, w, [])
  | Return urls =>
    match gather_loop decode http 1 urls gather_start with
    | (st, Some e) => (Uncaught e, w, gs_events st)
    | (st, None) =>
        (main int_of_str net completion now (gs_all_proxies st) w,
         gs_events st)
    end
  end.

(** ** Objects that are listed more than once

    A Python list holds references.  When one dict object is listed more
    than once (YAML writes this with an anchor and an alias), the
    assignment [proxy["name"] = ...] made at one place of the list shows
    at the others.  The functions below, whose names end in [_shared],
    are [deduplicate_proxies], [filter_blocked_regions] and
    [test_proxies_latency] on references into a store of objects; they
    read and assign the object itself. *)

(** The dict objects, by identity (a number), with what each holds now. *)
Definition store := nat -> proxy.

(** The store once the object [obj] holds [p]. *)
Definition store_set (h : store) (obj : nat) (p : proxy) : store :=
  fun o => if Nat.eqb o obj then p else h o.

(** An element of a decoded list: a reference to a dict object, or
    anything else. *)
Inductive ref :=
| RDict (obj : nat)
| ROther (v : value).

(** The variables of the loop of [deduplicate_proxies], and the store. *)
Record dedup_shared_state := {
  sh_seen_names : gmap pystr Z;
  sh_result : list nat;
  sh_store : store
}.

(** One turn of the loop over [all_proxies]: [proxy["name"] = name]
    assigns to the object. *)
Definition dedup_step_shared (st : dedup_shared_state) (r : ref)
  : dedup_shared_state :=
  match r with
  | ROther _ => st
  | RDict obj =>
    let p := sh_store st obj in
    if negb (has_key k_name p) || negb (has_key k_type p)
       || negb (has_key k_server p)
    then st
    else
      let name := strip (py_str (dict_get k_name VNone p)) in
      if Nat.eqb (length name) 0 then st
      else
        match sh_seen_names st !! name with
        | Some n =>
            let name' := name ++ u "_" ++ str_of_int (n + 1) in
            {| sh_seen_names := <[name := n + 1]> (sh_seen_names st);
               sh_result := sh_result st ++ [obj];
               sh_store :=
                 store_set (sh_store st) obj (<[k_name := VStr name']> p) |}
        | None =>
            {| sh_seen_names := <[name := 0]> (sh_seen_names st);
               sh_result := sh_result st ++ [obj];
               sh_store :=
                 store_set (sh_store st) obj (<[k_name := VStr name]> p) |}
        end
  end.

(** The list returned, and the store as the call leaves it. *)
Definition deduplicate_proxies_shared (h : store) (all_proxies : list ref)
  : list nat * store :=
  let st :=
    fold_left dedup_step_shared all_proxies
      {| sh_seen_names := ∅; sh_result := []; sh_store := h |} in
  (sh_result st, sh_store st).

Definition filter_step_shared (h : store) (st : list nat * Z) (obj : nat)
  : result (list nat * Z) :=
  let name := dict_get k_name (VStr []) (h obj) in
  blocked ← re_search BLOCKED_REGION_PATTERN name;
  mret (if blocked : bool then (st.1, st.2 + 1) else (st.1 ++ [obj], st.2)).

Definition filter_blocked_regions_shared (h : store) (proxies : list nat)
  : result (list nat) :=
  st ← for_each (filter_step_shared h) proxies ([], 0);
  mret st.1.

(** The probe reads the object and returns the reference it was given. *)
Definition test_single_proxy_shared (int_of_str : pystr -> option Z)
  (sock_connect : value -> Z -> conn_outcome) (h : store) (obj : nat)
  : result (nat * option Z) :=
  r ← test_single_proxy int_of_str sock_connect (h obj);
  mret (obj, r.2).

Record probe_shared_state := {
  sh_alive_proxies : list (nat * Z);
  sh_timeout_count : Z;
  sh_tested : Z
}.

Definition collect_step_shared (st : probe_shared_state)
  (future : result (nat * option Z)) : result probe_shared_state :=
  r ← future;
  match r.2 with
  | Some latency =>
      mret {| sh_alive_proxies := sh_alive_proxies st ++ [(r.1, latency)];
              sh_timeout_count := sh_timeout_count st;
              sh_tested := sh_tested st + 1 |}
  | None =>
      mret {| sh_alive_proxies := sh_alive_proxies st;
              sh_timeout_count := sh_timeout_count st + 1;
              sh_tested := sh_tested st + 1 |}
  end.

Fixpoint insert_by_latency_shared (x : nat * Z) (l : list (nat * Z))
  : list (nat * Z) :=
  match l with
  | [] => [x]
  | y :: l' =>
    if x.2 <=? y.2 then x :: l else y :: insert_by_latency_shared x l'
  end.

Fixpoint sort_by_latency_shared (l : list (nat * Z)) : list (nat * Z) :=
  match l with
  | [] => []
  | x :: l' => insert_by_latency_shared x (sort_by_latency_shared l')
  end.

(** One turn of the renaming loop: the name that is read is the name the
    object has now, and the object is assigned. *)
Definition tag_step_shared (st : list nat * store) (x : nat * Z)
  : result (list nat * store) :=
  let p := st.2 x.1 in
  old ← dict_item k_name p;
  let name :=
    u "[" ++ str_of_int (int_of_latency x.2) ++ u "ms] " ++ py_str old in
  mret (st.1 ++ [x.1], store_set st.2 x.1 (<[k_name := VStr name]> p)).

(** The list returned, and the store as the call leaves it. *)
Definition test_proxies_latency_shared (int_of_str : pystr -> option Z)
  (net : nat -> value -> Z -> conn_outcome) (completion : list nat)
  (h : store) (proxies : list nat) : result (list nat * store) :=
  let futures :=
    imap (fun i obj => test_single_proxy_shared int_of_str (net i) h obj)
      proxies in
  st ← for_each collect_step_shared (as_completed completion futures)
         {| sh_alive_proxies := []; sh_timeout_count := 0; sh_tested := 0 |};
  for_each tag_step_shared (sort_by_latency_shared (sh_alive_proxies st))
    ([], h).

(** ** Vocabulary of the properties *)

(** The [name] of a node when it is a [str]. *)
Definition name_str (p : proxy) : option pystr :=
  match p !! k_name with
  | Some (VStr s) => Some s
  | _ => None
  end.

(** A node in the sense of the data model: its [name] is a [str]. *)
Definition named (p : proxy) : Prop := is_Some (name_str p).

(** Does the name of [p] match [r]? *)
Definition name_matches (r : regex) (p : proxy) : bool :=
  match name_str p with
  | Some s => search_str r s
  | None => false
  end.

(** A raw descriptor with the four usual fields. *)
Definition node (name : string) : proxy :=
  <[k_name := VStr (u name)]>
    (<[k_type := VStr (u "ss")]>
       (<[k_server := VStr (u "203.0.113.7")]>
          (<[k_port := VInt 443]> ∅))).

(** The loop of [filter_blocked_regions] as a fold over named nodes. *)
Definition filter_fold (st : list proxy * Z) (p : proxy) : list proxy * Z :=
  if name_matches BLOCKED_REGION_PATTERN p then (st.1, st.2 + 1)
  else (st.1 ++ [p], st.2).

(** The label of the first pattern of [catalog], in its order, that
    matches [s]. *)
Definition label_for (catalog : list (regex * pystr)) (s : pystr)
  : option pystr :=
  snd <$> List.find (fun entry => search_str entry.1 s) catalog.

(** The elements of [l] in the order of their first occurrence. *)
Fixpoint first_seen (l : list pystr) : list pystr :=
  match l with
  | [] => []
  | x :: l' =>
    x :: List.filter (fun y => negb (bool_decide (y = x))) (first_seen l')
  end.

(** The names of the nodes, in order. *)
Definition names_of (proxies : list proxy) : list pystr :=
  omap name_str proxies.

(** The outer loop of the classifier as a fold over named nodes. *)
Definition classify_fold (catalog : list (regex * pystr))
  (region_groups : region_dict) (p : proxy) : region_dict :=
  match name_str p with
  | Some s =>
    match label_for catalog s with
    | Some region_name => od_append region_name (VStr s) region_groups
    | None => region_groups
    end
  | None => region_groups
  end.

(** What the loop has built after any prefix of the nodes: the groups
    gathered so far ([done] is the list of names already seen). *)
Record classified (catalog : list (regex * pystr)) (done : list pystr)
  (d : region_dict) : Prop := {
  cl_nodup : NoDup (map fst d);
  cl_keys : map fst d = first_seen (omap (label_for catalog) done);
  cl_get : forall l,
    od_get l d
    = map VStr
        (List.filter
           (fun s => bool_decide (label_for catalog s = Some l)) done);
  cl_mem : forall l, od_mem l d = true <-> od_get l d <> []
}.

(** The group that step 11 emits for one label. *)
Definition region_group (region_groups : region_dict) (label : pystr)
  : group :=
  select_group label
    (if od_mem label region_groups then od_get label region_groups
     else [VStr (u "REJECT")]).

(** The order of the ranking: by latency alone. *)
Definition latency_le (x y : proxy * Z) : Prop := x.2 <= y.2.

(** The entries of [l] whose latency is [latency], in the order of [l]. *)
Definition with_latency (latency : Z) (l : list (proxy * Z))
  : list (proxy * Z) :=
  List.filter (fun x => x.2 =? latency) l.

(** The futures of a run, in the order of submission. *)
Definition probes (int_of_str : pystr -> option Z)
  (net : nat -> value -> Z -> conn_outcome) (proxies : list proxy)
  : list (result (proxy * option Z)) :=
  imap (fun i p => test_single_proxy int_of_str (net i) p) proxies.

(** The nodes that answered among the results [outs], with their latency. *)
Definition survivors (outs : list (proxy * option Z)) : list (proxy * Z) :=
  omap (fun r => pair r.1 <$> r.2) outs.

(** The node with its name rewritten, as the last loop leaves it. *)
Definition tagged (x : proxy * Z) : proxy :=
  match x.1 !! k_name with
  | Some old =>
    <[k_name :=
        VStr (u "[" ++ str_of_int (int_of_latency x.2) ++ u "ms] "
              ++ py_str old)]> x.1
  | None => x.1
  end.

(** The grouping of a list of raw descriptors: the three stages in the
    order of the pipeline. *)
Definition grouping (all_proxies : list entry) : result region_dict :=
  proxies ← filter_blocked_regions (deduplicate_proxies all_proxies);
  classify_by_region proxies.

(** A descriptor that normalization leaves as it is: the required fields
    are there and the name is a non-empty [str] without white space
    around it. *)
Definition normal (p : proxy) : Prop :=
  exists s,
    p !! k_name = Some (VStr s) /\ strip s = s /\ s <> []
    /\ is_Some (p !! k_type) /\ is_Some (p !! k_server).

(** A text with no white space at either end. *)
Definition clean (s : pystr) : Prop :=
  match s with
  | [] => True
  | c :: _ => py_isspace c = false
  end
  /\ match rev s with
     | [] => True
     | c :: _ => py_isspace c = false
     end.

(** The raw descriptor the Normalizer keeps, with the name it reads for
    it: the mapping has the three required keys and its name, converted
    and stripped, is not empty. *)
Definition kept (e : entry) : option (proxy * pystr) :=
  match e with
  | EOther _ => None
  | EDict p =>
    if has_key k_name p && has_key k_type p && has_key k_server p then
      let name := strip (py_str (dict_get k_name VNone p)) in
      match name with
      | [] => None
      | _ => Some (p, name)
      end
    else None
  end.

(** How often [s] occurs in [l]. *)
Definition occurrences (s : pystr) (l : list pystr) : nat :=
  length (List.filter (fun x => bool_decide (x = s)) l).

(** The name given to a descriptor read as [s] when the names [prev] were
    read before it. *)
Definition new_name (prev : list pystr) (s : pystr) : pystr :=
  match occurrences s prev with
  | O => s
  | S k => s ++ u "_" ++ str_of_int (Z.of_nat (S k))
  end.

(** The kept descriptors under their new names. *)
Fixpoint renamed (prev : list pystr) (l : list (proxy * pystr))
  : list proxy :=
  match l with
  | [] => []
  | (p, s) :: l' =>
    <[k_name := VStr (new_name prev s)]> p :: renamed (prev ++ [s]) l'
  end.

(** What [seen_names] holds once the names [prev] have been read. *)
Definition seen_after (prev : list pystr) (seen : gmap pystr Z) : Prop :=
  forall s,
    seen !! s
    = match occurrences s prev with
      | O => None
      | S k => Some (Z.of_nat k)
      end.

(** The new names of descriptors read as [l] after [prev]. *)
Fixpoint new_names (prev : list pystr) (l : list pystr) : list pystr :=
  match l with
  | [] => []
  | s :: l' => new_name prev s :: new_names (prev ++ [s]) l'
  end.

(** The names the Normalizer reads, in order, for the descriptors it
    keeps. *)
Definition base_names (all_proxies : list entry) : list pystr :=
  map snd (omap kept all_proxies).

(** Strictly faster. *)
Definition latency_lt (x y : proxy * Z) : Prop := x.2 < y.2.

(** The variables of the collecting loop before its first turn. *)
Definition probe_start : probe_state :=
  {| alive_proxies := []; timeout_count := 0; tested := 0 |}.

(** Can a match of [alt] begin with the character [c]? *)
Definition starts (alt : list atom) (c : N) : bool :=
  match alt with
  | Lit a :: _ => lit_match a c
  | _ => true
  end.

(** Can a match of [alt] begin with [c] followed by [c2]? *)
Definition starts2 (alt : list atom) (c c2 : N) : bool :=
  match alt with
  | Lit a :: Lit b :: _ => lit_match a c && lit_match b c2
  | _ => true
  end.

(** No match of [r] begins with [c]. *)
Definition no_start (r : regex) (c : N) : bool :=
  forallb (fun alt => negb (starts alt c)) r.

(** No match of [r] begins with [c] followed by [c2]. *)
Definition no_start2 (r : regex) (c c2 : N) : bool :=
  forallb (fun alt => negb (starts2 alt c c2)) r.

(** The characters of a latency tag other than [s]: the brackets, the
    sign and the digits of the number, [m] and the space. *)
Definition tag_chars : list N :=
  [91; 45; 48; 49; 50; 51; 52; 53; 54; 55; 56; 57; 109; 93; 32]%N.

(** The name that the Prober gives to a node named [s]. *)
Definition tag_text (latency : Z) (s : pystr) : pystr :=
  u "[" ++ str_of_int (int_of_latency latency) ++ u "ms] " ++ s.

(** The names of the groups of every configuration: the ten leading
    groups, then the regions. *)
Definition group_names : list pystr :=
  map g_name (leading_groups [] []) ++ ALL_REGION_NAMES.

(** What a member of a group may refer to: the two built-in policies, a
    group of the configuration, or a node of the configuration. *)
Definition known_member (cfg : config) (m : value) : Prop :=
  m = VStr (u "DIRECT") \/ m = VStr (u "REJECT")
  \/ (exists g, In g (cfg_proxy_groups cfg) /\ m = VStr (g_name g))
  \/ (exists p, In p (cfg_proxies cfg) /\ p !! k_name = Some m).

(** A member that is a built-in policy or the name of a group. *)
Definition known_const (m : value) : bool :=
  match m with
  | VStr s =>
    bool_decide (s ∈ [u "DIRECT"; u "REJECT"] ++ group_names)
  | _ => false
  end.

(** The labels of the catalog, in its order, under which some name of
    [names] falls. *)
Definition populated (names : list pystr) : list pystr :=
  List.filter
    (fun label =>
       existsb (fun s => bool_decide (label_for REGION_MAP s = Some label))
         names)
    ALL_REGION_NAMES.

(** The text before the first comma. *)
Fixpoint until_comma (s : pystr) : pystr :=
  match s with
  | [] => []
  | c :: s' => if (c =? 44)%N then [] else c :: until_comma s'
  end.

(** The policy or group that a rule sends its traffic to: the text after
    the last comma. *)
Definition rule_target (rule : pystr) : pystr :=
  rev (until_comma (rev rule)).

(** The number of requests among the events. *)
Definition requests (evs : list event) : nat :=
  length (List.filter (fun ev => match ev with
                                 | Request _ => true
                                 | Sleep _ => false
                                 end) evs).

(** What [extract_proxies] does with the text of the [i]-th link [url],
    when a request for it succeeds. *)
Definition extracted (decode : pystr -> decoded)
  (http : nat -> nat -> option pystr) (i : nat) (url : pystr)
  : option (result (list entry)) :=
  extract_proxies decode <$> (fetch_content (http i) url).1.

(** The nodes that the [i]-th link [url] contributes: what is extracted
    from its text when a request for it succeeds, nothing otherwise. *)
Definition contribution (decode : pystr -> decoded)
  (http : nat -> nat -> option pystr) (i : nat) (url : pystr)
  : list entry :=
  match extracted decode http i url with
  | Some (Ok proxies) => proxies
  | _ => []
  end.

(** The contributions of the links from the [i]-th on. *)
Fixpoint contributions (decode : pystr -> decoded)
  (http : nat -> nat -> option pystr) (i : nat) (urls : list pystr)
  : list entry :=
  match urls with
  | [] => []
  | url :: urls' =>
    contribution decode http i url ++ contributions decode http (S i) urls'
  end.

(** The events of the links from the [i]-th on, link after link. *)
Fixpoint traces (http : nat -> nat -> option pystr) (i : nat)
  (urls : list pystr) : list event :=
  match urls with
  | [] => []
  | url :: urls' =>
    (fetch_content (http i) url).2 ++ traces http (S i) urls'
  end.

(** The [str] elements of a decoded list, in order. *)
Definition str_items (raw : list entry) : list pystr :=
  omap (fun e => match e with
                 | EOther (VStr s) => Some s
                 | _ => None
                 end) raw.

(** The name of a node, the empty text standing for no [str] name. *)
Definition name_or_empty (p : proxy) : pystr := default [] (name_str p).

(** The objects that a list refers to, in order. *)
Definition objects (refs : list ref) : list nat :=
  omap (fun r => match r with
                 | RDict obj => Some obj
                 | ROther _ => None
                 end) refs.

(** The element of a list as the store [h] shows it. *)
Definition entry_of (h : store) (r : ref) : entry :=
  match r with
  | RDict obj => EDict (h obj)
  | ROther v => EOther v
  end.

(** A probe result with the object in place of the reference. *)
Definition shown_in {A} (h : store) (x : nat * A) : proxy * A := (h x.1, x.2).

(** Does the call return? *)
Definition returns {A} (r : result A) : bool :=
  match r with
  | Ok _ => true
  | Raise _ => false
  end.

(** What the call returns, [dflt] standing for an exception. *)
Definition returned {A} (dflt : A) (r : result A) : A :=
  match r with
  | Ok a => a
  | Raise _ => dflt
  end.

(** * Properties *)

(** ** The exception monad *)

Lemma bind_Ok {A B} (a : A) (k : A -> result B) : (Ok a ≫= k) = k a.
Proof. reflexivity. Qed.

(** ** Loops *)

Section Loops.
Context {St A : Type}.

(** A loop whose body never raises on the elements it meets is a fold. *)
Lemma for_each_fold (P : A -> Prop) (body : St -> A -> result St)
  (f : St -> A -> St) (xs : list A) (s : St) :
  (forall s x, P x -> body s x = Ok (f s x)) ->
  Forall P xs ->
  for_each body xs s = Ok (fold_left f xs s).
Proof.
  intros Hbody HP. revert s.
  induction HP as [|x xs Hx _ IH]; intros s; simpl.
  - reflexivity.
  - rewrite (Hbody s x Hx). apply IH.
Qed.
End Loops.

Lemma named_item (p : proxy) :
  named p -> exists s, p !! k_name = Some (VStr s) /\ name_str p = Some s.
Proof.
  unfold named, name_str. intros [s Hs].
  destruct (p !! k_name) as [[| | | |s'|]|]; try discriminate.
  exists s'. split; reflexivity.
Qed.

Lemma re_search_named (r : regex) (dflt : value) (p : proxy) :
  named p -> re_search r (dict_get k_name dflt p) = Ok (name_matches r p).
Proof.
  intros Hp. destruct (named_item p Hp) as (s & Hs & Hn).
  unfold dict_get, name_matches. rewrite Hs, Hn. reflexivity.
Qed.

Lemma filter_sublist {A} (f : A -> bool) (l : list A) :
  sublist (List.filter f l) l.
Proof.
  induction l as [|x l IH]; simpl.
  - constructor.
  - destruct (f x); [apply sublist_skip | apply sublist_cons]; exact IH.
Qed.

(** ** The Region Filter *)

Lemma filter_fold_result (proxies : list proxy) (acc : list proxy) (n : Z) :
  (fold_left filter_fold proxies (acc, n)).1
  = acc ++ List.filter
             (fun p => negb (name_matches BLOCKED_REGION_PATTERN p)) proxies.
Proof.
  revert acc n. induction proxies as [|p ps IH]; intros acc n; simpl.
  - symmetry. apply app_nil_r.
  - unfold filter_fold at 2.
    destruct (name_matches BLOCKED_REGION_PATTERN p); simpl.
    + apply IH.
    + rewrite IH, <- app_assoc. reflexivity.
Qed.

Lemma filter_blocked_regions_named (proxies : list proxy) :
  Forall named proxies ->
  filter_blocked_regions proxies
  = Ok (List.filter
          (fun p => negb (name_matches BLOCKED_REGION_PATTERN p)) proxies).
Proof.
  intros Hn. unfold filter_blocked_regions.
  rewrite (for_each_fold named filter_step filter_fold proxies _).
  - simpl. unfold mret, result_ret. f_equal. apply filter_fold_result.
  - intros st p Hp. unfold filter_step, filter_fold.
    rewrite (re_search_named _ _ p Hp). simpl.
    destruct (name_matches BLOCKED_REGION_PATTERN p); reflexivity.
  - exact Hn.
Qed.

(** C6. For every list of nodes, [filter_blocked_regions] returns the
    nodes whose name does not match the blocked pattern, in the order of
    the input: every node of the output has a name that does not match,
    every node that was removed has a name that matches, and the output is
    a subsequence of the input. *)
Theorem filter_blocked_regions_spec (proxies : list proxy) :
  Forall named proxies ->
  exists out,
    filter_blocked_regions proxies = Ok out
    /\ out = List.filter
               (fun p => negb (name_matches BLOCKED_REGION_PATTERN p)) proxies
    /\ (forall p, In p out -> name_matches BLOCKED_REGION_PATTERN p = false)
    /\ (forall p, In p proxies -> ~ In p out ->
                  name_matches BLOCKED_REGION_PATTERN p = true)
    /\ sublist out proxies.
Proof.
  intros Hn. eexists. split; [apply filter_blocked_regions_named, Hn|].
  split; [reflexivity|]. repeat split.
  - intros p Hp. apply filter_In in Hp as [_ Hp].
    apply negb_true_iff in Hp. exact Hp.
  - intros p Hin Hout.
    destruct (name_matches BLOCKED_REGION_PATTERN p) eqn:Hb; [reflexivity|].
    exfalso. apply Hout. apply filter_In. rewrite Hb. split; [exact Hin|reflexivity].
  - apply filter_sublist.
Qed.

Lemma filter_blocked_regions_spec_witness :
  exists out,
    filter_blocked_regions [node "A"; node "CN-node"; node "JP-node"] = Ok out
    /\ out = [node "A"; node "JP-node"].
Proof.
  destruct (filter_blocked_regions_spec
              [node "A"; node "CN-node"; node "JP-node"])
    as (out & Hrun & Hout & _).
  - repeat constructor; vm_compute; eauto.
  - exists out. split; [exact Hrun|]. rewrite Hout. vm_compute. reflexivity.
Defined.

(** ** The Region Classifier *)

Lemma first_match_label (catalog : list (regex * pystr)) (s : pystr) :
  first_match catalog (VStr s) = Ok (label_for catalog s).
Proof.
  unfold label_for.
  induction catalog as [|[pattern region_name] catalog IH]; simpl.
  - reflexivity.
  - destruct (search_str pattern s); simpl; [reflexivity | exact IH].
Qed.

Lemma classify_with_named (catalog : list (regex * pystr))
  (proxies : list proxy) :
  Forall named proxies ->
  classify_with catalog proxies
  = Ok (fold_left (classify_fold catalog) proxies []).
Proof.
  intros Hn. unfold classify_with.
  apply (for_each_fold named); [|exact Hn].
  intros d p Hp. destruct (named_item p Hp) as (s & Hs & Hstr).
  unfold classify_step, classify_fold, dict_item. rewrite Hs, Hstr. simpl.
  rewrite first_match_label. simpl.
  destruct (label_for catalog s); reflexivity.
Qed.

Section OrderedDict.
Implicit Types (d : region_dict) (k l : pystr) (x : value).

Lemma od_mem_In k d : od_mem k d = true <-> In k (map fst d).
Proof.
  unfold od_mem. rewrite existsb_exists, in_map_iff. split.
  - intros (kv & Hin & Hk). apply bool_decide_eq_true in Hk. eauto.
  - intros (kv & Hk & Hin). exists kv. split; [exact Hin|].
    apply bool_decide_eq_true. exact Hk.
Qed.

Lemma od_get_append k x l d :
  od_get l (od_append k x d)
  = if decide (k = l) then od_get l d ++ [x] else od_get l d.
Proof.
  induction d as [|[k' xs] d IH]; simpl.
  - repeat case_decide; congruence.
  - destruct (decide (k' = k)) as [->|Hk]; simpl.
    + repeat case_decide; congruence.
    + rewrite IH. repeat case_decide; congruence.
Qed.

Lemma od_keys_append k x d :
  map fst (od_append k x d)
  = if od_mem k d then map fst d else map fst d ++ [k].
Proof.
  induction d as [|[k' xs] d IH]; simpl.
  - reflexivity.
  - unfold od_mem in *. simpl.
    destruct (decide (k' = k)) as [->|Hk]; simpl.
    + rewrite bool_decide_eq_true_2 by reflexivity. reflexivity.
    + rewrite bool_decide_eq_false_2 by exact Hk. simpl. rewrite IH.
      destruct (existsb _ d); reflexivity.
Qed.

Lemma od_keys_NoDup k x d :
  NoDup (map fst d) -> NoDup (map fst (od_append k x d)).
Proof.
  intros Hd. rewrite od_keys_append.
  destruct (od_mem k d) eqn:Hk; [exact Hd|].
  apply NoDup_app. repeat split.
  - exact Hd.
  - intros y Hy Hy'. apply list_elem_of_singleton in Hy'. subst y.
    apply list_elem_of_In, od_mem_In in Hy. congruence.
  - apply NoDup_singleton.
Qed.

Lemma od_mem_get_append k x d :
  (forall l, od_mem l d = true <-> od_get l d <> []) ->
  forall l, od_mem l (od_append k x d) = true
            <-> od_get l (od_append k x d) <> [].
Proof.
  intros Hd l. rewrite od_get_append, od_mem_In, od_keys_append.
  destruct (decide (k = l)) as [->|Hk].
  - split; [intros _; destruct (od_get l d); discriminate|].
    intros _. destruct (od_mem l d) eqn:Hm.
    + apply od_mem_In. exact Hm.
    + apply in_or_app. right. left. reflexivity.
  - rewrite <- Hd, od_mem_In.
    destruct (od_mem k d); [reflexivity|].
    rewrite in_app_iff. simpl. tauto.
Qed.
End OrderedDict.

Lemma first_seen_In (l : list pystr) (x : pystr) :
  In x (first_seen l) <-> In x l.
Proof.
  induction l as [|a l IH]; simpl; [tauto|].
  rewrite filter_In, IH, negb_true_iff, bool_decide_eq_false.
  destruct (decide (x = a)) as [->|Hx]; [tauto|].
  split; [tauto|]. intros [->|H]; [congruence | tauto].
Qed.

Lemma first_seen_snoc (l : list pystr) (x : pystr) :
  first_seen (l ++ [x])
  = if bool_decide (x ∈ l) then first_seen l else first_seen l ++ [x].
Proof.
  induction l as [|a l IH]; cbn [first_seen app].
  - rewrite bool_decide_eq_false_2 by apply not_elem_of_nil. reflexivity.
  - rewrite IH. destruct (decide (x ∈ l)) as [Hx|Hx].
    + rewrite (bool_decide_eq_true_2 _ Hx).
      rewrite bool_decide_eq_true_2 by (right; exact Hx). reflexivity.
    + rewrite (bool_decide_eq_false_2 _ Hx).
      rewrite List.filter_app. simpl.
      destruct (decide (x = a)) as [->|Hxa].
      * rewrite bool_decide_eq_true_2 by reflexivity. simpl.
        rewrite bool_decide_eq_true_2 by left. rewrite app_nil_r.
        reflexivity.
      * rewrite bool_decide_eq_false_2 by exact Hxa. simpl.
        rewrite bool_decide_eq_false_2; [reflexivity|].
        intros H. apply elem_of_cons in H as [->|H]; [congruence | tauto].
Qed.

Lemma classified_nil catalog : classified catalog [] [].
Proof.
  split; simpl; try reflexivity; [constructor|].
  intros l. split; [discriminate | congruence].
Qed.

Lemma classified_step catalog done d p :
  classified catalog done d ->
  classified catalog (done ++ omap name_str [p]) (classify_fold catalog d p).
Proof.
  intros [Hnd Hkeys Hget Hmem]. unfold classify_fold. simpl.
  destruct (name_str p) as [s|]; simpl;
    [|rewrite app_nil_r; split; assumption].
  destruct (label_for catalog s) as [region_name|] eqn:Hl.
  - split.
    + apply od_keys_NoDup, Hnd.
    + rewrite od_keys_append, omap_app. simpl. rewrite Hl. simpl.
      rewrite first_seen_snoc, <- Hkeys.
      destruct (od_mem region_name d) eqn:Hm.
      * rewrite bool_decide_eq_true_2; [reflexivity|].
        apply list_elem_of_In, first_seen_In. rewrite <- Hkeys.
        apply od_mem_In, Hm.
      * rewrite bool_decide_eq_false_2; [reflexivity|].
        rewrite list_elem_of_In, <- first_seen_In, <- Hkeys, <- od_mem_In.
        congruence.
    + intros l. rewrite od_get_append, List.filter_app, map_app, Hget.
      simpl. rewrite Hl. destruct (decide (region_name = l)) as [->|Hne].
      * rewrite bool_decide_eq_true_2 by reflexivity. reflexivity.
      * rewrite bool_decide_eq_false_2 by congruence.
        simpl. rewrite app_nil_r. reflexivity.
    + apply od_mem_get_append, Hmem.
  - split; try assumption.
    + rewrite omap_app. simpl. rewrite Hl. simpl. rewrite app_nil_r.
      exact Hkeys.
    + intros l. rewrite List.filter_app, map_app, Hget. simpl. rewrite Hl.
      simpl. rewrite app_nil_r. reflexivity.
Qed.

Lemma classified_fold catalog proxies done d :
  classified catalog done d ->
  classified catalog (done ++ names_of proxies)
    (fold_left (classify_fold catalog) proxies d).
Proof.
  revert done d. induction proxies as [|p ps IH]; intros done d Hd; simpl.
  - unfold names_of. simpl. rewrite app_nil_r. exact Hd.
  - apply (classified_step _ _ _ p), IH in Hd.
    unfold names_of in *. simpl in *.
    destruct (name_str p); simpl in *;
      rewrite <- ?app_assoc in Hd; simpl in Hd;
      rewrite ?app_nil_r in Hd; exact Hd.
Qed.

Lemma classify_with_classified (catalog : list (regex * pystr))
  (proxies : list proxy) :
  Forall named proxies ->
  exists groups,
    classify_with catalog proxies = Ok groups
    /\ classified catalog (names_of proxies) groups.
Proof.
  intros Hn. eexists. split; [apply classify_with_named, Hn|].
  apply (classified_fold catalog proxies [] []), classified_nil.
Qed.

(** C4. For every catalog and every list of nodes, the classifier puts
    each node under the label of the first pattern, in catalog order, that
    matches its name, and under no other: the group of a label holds, in
    order, exactly the names whose first match is that label, so a node
    that matches no pattern is in no group.  With the catalog of the
    program the node [JP-Tokyo] alone gives the single group of Japan. *)
Theorem classify_first_match (catalog : list (regex * pystr))
  (proxies : list proxy) :
  Forall named proxies ->
  exists groups,
    classify_with catalog proxies = Ok groups
    /\ NoDup (map fst groups)
    /\ (forall label,
          od_get label groups
          = map VStr
              (List.filter
                 (fun s => bool_decide (label_for catalog s = Some label))
                 (names_of proxies)))
    /\ (forall label, od_mem label groups = true <-> od_get label groups <> [])
    /\ classify_by_region [node "JP-Tokyo"]
       = Ok [(u "🇯🇵 日本", [VStr (u "JP-Tokyo")])].
Proof.
  intros Hn.
  destruct (classify_with_classified catalog proxies Hn)
    as (groups & Hrun & [Hnd _ Hget Hmem]).
  exists groups.
  split; [exact Hrun|]. split; [exact Hnd|]. split; [exact Hget|].
  split; [exact Hmem|]. vm_compute. reflexivity.
Qed.

Lemma classify_first_match_witness :
  exists groups,
    classify_with REGION_MAP [node "JP-Tokyo"; node "Relay-7"; node "Japan-US"]
    = Ok groups
    /\ od_get (u "🇯🇵 日本") groups
       = [VStr (u "JP-Tokyo"); VStr (u "Japan-US")]
    /\ od_get (u "🇺🇸 美国") groups = [].
Proof.
  destruct (classify_first_match REGION_MAP
              [node "JP-Tokyo"; node "Relay-7"; node "Japan-US"])
    as (groups & Hrun & _ & Hget & _).
  - repeat constructor; vm_compute; eauto.
  - exists groups. split; [exact Hrun|]. rewrite !Hget.
    split; vm_compute; reflexivity.
Defined.

(** C3, as the specification states it, fails: the labels come out in the
    order in which the regions are first met, here the United States
    before Japan, and not in the order of the catalog. *)
Lemma classify_by_region_order_counterexample :
  exists groups,
    classify_by_region [node "US-1"; node "JP-1"] = Ok groups
    /\ map fst groups = [u "🇺🇸 美国"; u "🇯🇵 日本"]
    /\ map fst groups
       <> List.filter (fun label => od_mem label groups) ALL_REGION_NAMES.
Proof.
  eexists. split; [vm_compute; reflexivity|].
  split; vm_compute; [reflexivity | discriminate].
Qed.

(** C3, amended. For every list of nodes, the mapping returned by
    [classify_by_region] lists its labels in the order in which each
    region is first met among the nodes, and it holds exactly the labels
    that have at least one member. *)
Theorem classify_by_region_labels (proxies : list proxy) :
  Forall named proxies ->
  exists groups,
    classify_by_region proxies = Ok groups
    /\ map fst groups
       = first_seen (omap (label_for REGION_MAP) (names_of proxies))
    /\ (forall label,
          In label (map fst groups)
          <-> exists s, In s (names_of proxies)
                        /\ label_for REGION_MAP s = Some label)
    /\ (forall label, In label (map fst groups) -> od_get label groups <> []).
Proof.
  intros Hn.
  destruct (classify_with_classified REGION_MAP proxies Hn)
    as (groups & Hrun & [Hnd Hkeys Hget Hmem]).
  exists groups.
  split; [exact Hrun|]. split; [exact Hkeys|]. split.
  - intros label.
    rewrite Hkeys, first_seen_In, <- list_elem_of_In, list_elem_of_omap.
    split; intros (s & Hs & Hl); exists s; split; try exact Hl;
      apply list_elem_of_In; exact Hs.
  - intros label Hin. apply Hmem, od_mem_In, Hin.
Qed.

Lemma classify_by_region_labels_witness :
  exists groups,
    classify_by_region [node "US-1"; node "JP-1"; node "US-2"] = Ok groups
    /\ map fst groups = [u "🇺🇸 美国"; u "🇯🇵 日本"].
Proof.
  destruct (classify_by_region_labels [node "US-1"; node "JP-1"; node "US-2"])
    as (groups & Hrun & Hkeys & _).
  - repeat constructor; vm_compute; eauto.
  - exists groups. split; [exact Hrun|]. rewrite Hkeys.
    vm_compute. reflexivity.
Defined.

(** ** The Normalizer *)

Lemma named_insert (p : proxy) (s : pystr) : named (<[k_name := VStr s]> p).
Proof.
  unfold named, name_str. rewrite lookup_insert_eq. eauto.
Qed.

Lemma dedup_step_named (st : dedup_state) (e : entry) :
  Forall named (dedup_result st) ->
  Forall named (dedup_result (dedup_step st e)).
Proof.
  intros Hst. destruct e as [p|v]; [|exact Hst]. unfold dedup_step.
  destruct (negb _ || negb _ || negb _); [exact Hst|].
  destruct (Nat.eqb _ 0); [exact Hst|].
  destruct (seen_names st !! _); cbn [dedup_result];
    (apply Forall_app; split; [exact Hst|]);
    repeat constructor; apply named_insert.
Qed.

(** Every node that leaves the Normalizer has a [str] name, so the stages
    after it never raise on a name. *)
Lemma deduplicate_proxies_named (all_proxies : list entry) :
  Forall named (deduplicate_proxies all_proxies).
Proof.
  unfold deduplicate_proxies.
  assert (H : forall st, Forall named (dedup_result st) ->
                Forall named
                  (dedup_result (fold_left dedup_step all_proxies st))).
  { induction all_proxies as [|e l IH]; intros st Hst; simpl.
    - exact Hst.
    - apply IH, dedup_step_named, Hst. }
  apply H. constructor.
Qed.

(** ** The Normalizer on names that collide with a suffixed name *)

(** C1. The names of the output are not always distinct.  On the three
    descriptors named [A], [A] and [A_1] the second is renamed [A_1] and
    the third, being the first of its own name, keeps the name [A_1]. *)
Theorem deduplicate_proxies_suffix_collision :
  names_of
    (deduplicate_proxies
       [EDict (node "A"); EDict (node "A"); EDict (node "A_1")])
  = [u "A"; u "A_1"; u "A_1"]
  /\ ~ NoDup
       (names_of
          (deduplicate_proxies
             [EDict (node "A"); EDict (node "A"); EDict (node "A_1")])).
Proof.
  assert (Hrun : names_of
                   (deduplicate_proxies
                      [EDict (node "A"); EDict (node "A"); EDict (node "A_1")])
                 = [u "A"; u "A_1"; u "A_1"])
    by (vm_compute; reflexivity).
  split; [exact Hrun|]. rewrite Hrun. intros Hnd.
  apply NoDup_cons in Hnd as [_ Hnd]. apply NoDup_cons in Hnd as [Hnotin _].
  apply Hnotin. left.
Qed.

(** ** The Assembler *)

Lemma region_group_fold (region_groups : region_dict) (labels : list pystr)
  (proxy_groups : list group) :
  fold_left (region_group_step region_groups) labels proxy_groups
  = proxy_groups ++ map (region_group region_groups) labels.
Proof.
  revert proxy_groups.
  induction labels as [|label labels IH]; intros proxy_groups; simpl.
  - symmetry. apply app_nil_r.
  - rewrite IH. unfold region_group_step, region_group.
    destruct (od_mem label region_groups); rewrite <- app_assoc; reflexivity.
Qed.

Lemma all_names_named (proxies : list proxy) (acc : list value) :
  Forall named proxies ->
  for_each (fun acc p => n ← dict_item k_name p; mret (acc ++ [n])) proxies acc
  = Ok (acc ++ map VStr (names_of proxies)).
Proof.
  intros Hn. revert acc.
  induction Hn as [|p ps Hp _ IH]; intros acc; simpl.
  - rewrite app_nil_r. reflexivity.
  - destruct (named_item p Hp) as (s & Hs & Hstr).
    unfold dict_item, names_of. rewrite Hs. simpl. rewrite Hstr. simpl.
    rewrite IH, <- app_assoc. reflexivity.
Qed.

Lemma ALL_REGION_NAMES_NoDup : NoDup ALL_REGION_NAMES.
Proof. apply (bool_decide_unpack _). vm_compute. reflexivity. Qed.

(** C7. For every list of nodes, and so for every classification,
    [build_config] emits after its ten leading groups exactly one
    selection group per label of the catalog, in the order of the
    catalog: the group of a label that has members lists these members,
    and the group of a label without members holds [REJECT] alone.  The
    names of the groups are the same in every run. *)
Theorem build_config_region_groups (now : pystr) (proxies : list proxy) :
  Forall named proxies ->
  exists cfg region_groups,
    build_config now proxies = Ok (cfg, now)
    /\ classify_by_region proxies = Ok region_groups
    /\ cfg_proxy_groups cfg
       = leading_groups (map VStr (names_of proxies)) region_groups
         ++ map (fun label =>
                   select_group label
                     (if od_mem label region_groups
                      then od_get label region_groups
                      else [VStr (u "REJECT")]))
              ALL_REGION_NAMES
    /\ (forall label,
          od_mem label region_groups = true
          -> od_get label region_groups <> [])
    /\ NoDup ALL_REGION_NAMES
    /\ map g_name (cfg_proxy_groups cfg)
       = map g_name (leading_groups [] []) ++ ALL_REGION_NAMES.
Proof.
  intros Hn.
  destruct (classify_with_classified REGION_MAP proxies Hn)
    as (region_groups & Hrun & [_ _ _ Hmem]).
  fold (classify_by_region proxies) in Hrun.
  eexists. exists region_groups.
  assert (Hbuild : build_config now proxies
    = Ok ({| cfg_proxies := proxies;
             cfg_proxy_groups :=
               leading_groups (map VStr (names_of proxies)) region_groups
               ++ map (region_group region_groups) ALL_REGION_NAMES;
             cfg_rules := build_rules |}, now)).
  { unfold build_config.
    rewrite (all_names_named proxies [] Hn), bind_Ok, Hrun, bind_Ok.
    rewrite region_group_fold. reflexivity. }
  split; [exact Hbuild|]. split; [exact Hrun|]. cbn [cfg_proxy_groups].
  split; [reflexivity|]. split; [intros label; apply Hmem|].
  split; [exact ALL_REGION_NAMES_NoDup|].
  rewrite map_app, map_map. f_equal.
Qed.

Lemma build_config_region_groups_witness :
  exists cfg,
    build_config (u "2026-01-01 00:00") [node "JP-1"; node "Relay-7"]
    = Ok (cfg, u "2026-01-01 00:00")
    /\ map g_proxies (drop 10 (cfg_proxy_groups cfg))
       = [VStr (u "JP-1")] :: repeat [VStr (u "REJECT")] 11.
Proof.
  destruct (build_config_region_groups (u "2026-01-01 00:00")
              [node "JP-1"; node "Relay-7"])
    as (cfg & region_groups & Hrun & Hcls & Hgroups & _).
  - repeat constructor; vm_compute; eauto.
  - exists cfg. split; [exact Hrun|]. rewrite Hgroups.
    assert (Hrg : region_groups = [(u "🇯🇵 日本", [VStr (u "JP-1")])]).
    { assert (H : classify_by_region [node "JP-1"; node "Relay-7"]
                  = Ok [(u "🇯🇵 日本", [VStr (u "JP-1")])])
        by (vm_compute; reflexivity).
      rewrite H in Hcls. injection Hcls as <-. reflexivity. }
    rewrite Hrg. vm_compute. reflexivity.
Defined.

(** ** The stable sort *)

Section StableSort.
Implicit Types (x y : proxy * Z) (l : list (proxy * Z)).

Lemma insert_by_latency_perm x l : Permutation (insert_by_latency x l) (x :: l).
Proof.
  induction l as [|y l IH]; simpl.
  - reflexivity.
  - destruct (x.2 <=? y.2); [reflexivity|].
    rewrite IH. apply perm_swap.
Qed.

Lemma sort_by_latency_perm l : Permutation (sort_by_latency l) l.
Proof.
  induction l as [|x l IH]; simpl.
  - reflexivity.
  - rewrite insert_by_latency_perm, IH. reflexivity.
Qed.

Lemma insert_by_latency_hd x y l :
  latency_le y x -> HdRel latency_le y l ->
  HdRel latency_le y (insert_by_latency x l).
Proof.
  intros Hyx Hhd. destruct l as [|z l]; simpl.
  - constructor. exact Hyx.
  - destruct (x.2 <=? z.2); constructor; [exact Hyx|].
    inversion Hhd; assumption.
Qed.

Lemma insert_by_latency_sorted x l :
  Sorted latency_le l -> Sorted latency_le (insert_by_latency x l).
Proof.
  induction 1 as [|y l Hl IH Hhd]; simpl.
  - repeat constructor.
  - destruct (x.2 <=? y.2) eqn:Hxy.
    + constructor; [constructor; assumption|].
      constructor. apply Z.leb_le, Hxy.
    + constructor; [exact IH|].
      apply insert_by_latency_hd; [|exact Hhd].
      apply Z.leb_gt in Hxy. unfold latency_le. lia.
Qed.

Lemma sort_by_latency_sorted l : Sorted latency_le (sort_by_latency l).
Proof.
  induction l as [|x l IH]; simpl.
  - constructor.
  - apply insert_by_latency_sorted, IH.
Qed.

(** Insertion leaves the entries of one latency in their order. *)
Lemma insert_by_latency_stable latency x l :
  with_latency latency (insert_by_latency x l)
  = with_latency latency (x :: l).
Proof.
  unfold with_latency. induction l as [|y l IH]; simpl.
  - reflexivity.
  - destruct (x.2 <=? y.2) eqn:Hxy; simpl; [reflexivity|].
    rewrite IH. simpl. apply Z.leb_gt in Hxy.
    destruct (y.2 =? latency) eqn:Hy; [|reflexivity].
    apply Z.eqb_eq in Hy.
    destruct (x.2 =? latency) eqn:Hx; [|reflexivity].
    apply Z.eqb_eq in Hx. lia.
Qed.

Lemma sort_by_latency_stable latency l :
  with_latency latency (sort_by_latency l) = with_latency latency l.
Proof.
  induction l as [|x l IH]; simpl.
  - reflexivity.
  - rewrite insert_by_latency_stable. unfold with_latency in *. simpl.
    rewrite IH. reflexivity.
Qed.
End StableSort.

(** ** The Prober *)

Lemma test_single_proxy_same (int_of_str : pystr -> option Z)
  (sock_connect : value -> Z -> conn_outcome) (p : proxy)
  (r : proxy * option Z) :
  test_single_proxy int_of_str sock_connect p = Ok r -> r.1 = p.
Proof.
  unfold test_single_proxy.
  destruct (negb _ || negb _); [intros [= <-]; reflexivity|].
  destruct (py_int _ _) as [port|[]]; try discriminate;
    try (intros [= <-]; reflexivity).
  destruct (sock_connect _ _); try discriminate;
    intros [= <-]; reflexivity.
Qed.

(** A latency comes from nowhere but a connection that was made: it is
    the measured time, rounded to one decimal. *)
Lemma test_single_proxy_alive (int_of_str : pystr -> option Z)
  (sock_connect : value -> Z -> conn_outcome) (p q : proxy) (latency : Z) :
  test_single_proxy int_of_str sock_connect p = Ok (q, Some latency) ->
  q = p
  /\ exists port latency_ms,
       py_int int_of_str (dict_get k_port (VInt 0) p) = Ok port
       /\ sock_connect (dict_get k_server (VStr []) p) port
          = Connected latency_ms
       /\ latency = round_tenths latency_ms.
Proof.
  unfold test_single_proxy.
  destruct (negb _ || negb _); [discriminate|].
  destruct (py_int _ _) as [port|[]]; try discriminate.
  destruct (sock_connect _ _) as [latency_ms| |e] eqn:Hc; try discriminate.
  intros [= <- <-]. split; [reflexivity|].
  exists port, latency_ms. split; [reflexivity|]. split; [exact Hc|].
  reflexivity.
Qed.

Lemma as_completed_fmap {A B} (f : A -> B) (completion : list nat)
  (l : list A) :
  as_completed completion (f <$> l) = f <$> as_completed completion l.
Proof.
  unfold as_completed. induction completion as [|i c IH]; simpl.
  - reflexivity.
  - rewrite list_lookup_fmap.
    destruct (l !! i); simpl; [f_equal|]; exact IH.
Qed.

Lemma as_completed_elem {A} (completion : list nat) (l : list A) (x : A) :
  x ∈ as_completed completion l -> x ∈ l.
Proof.
  unfold as_completed. rewrite list_elem_of_omap.
  intros (i & _ & Hi). apply list_elem_of_lookup. eauto.
Qed.

Lemma omap_lookup_seq {A} (k l : list A) :
  omap (fun i => (k ++ l) !! i) (seq (length k) (length l)) = l.
Proof.
  revert k. induction l as [|x l IH]; intros k; simpl.
  - reflexivity.
  - rewrite list_lookup_middle by reflexivity. f_equal.
    specialize (IH (k ++ [x])).
    rewrite <- app_assoc, length_app, Nat.add_1_r in IH. exact IH.
Qed.

(** When every future is yielded once, the yielded futures are the
    submitted ones, rearranged. *)
Lemma as_completed_perm {A} (completion : list nat) (l : list A) :
  Permutation completion (seq 0 (length l)) ->
  Permutation (as_completed completion l) l.
Proof.
  intros Hc. unfold as_completed. rewrite Hc.
  pose proof (omap_lookup_seq [] l) as Hall. cbn [app length] in Hall.
  rewrite Hall. reflexivity.
Qed.

Lemma collect_loop (outs : list (proxy * option Z)) (st : probe_state) :
  exists st',
    for_each collect_step (Ok <$> outs) st = Ok st'
    /\ alive_proxies st' = alive_proxies st ++ survivors outs.
Proof.
  revert st. induction outs as [|[p [latency|]] outs IH]; intros st; simpl.
  - exists st. rewrite app_nil_r. split; reflexivity.
  - destruct (IH {| alive_proxies := alive_proxies st ++ [(p, latency)];
                    timeout_count := timeout_count st;
                    tested := tested st + 1 |}) as (st' & Hrun & Halive).
    exists st'. split; [exact Hrun|]. rewrite Halive. simpl.
    rewrite <- app_assoc. reflexivity.
  - destruct (IH {| alive_proxies := alive_proxies st;
                    timeout_count := timeout_count st + 1;
                    tested := tested st + 1 |}) as (st' & Hrun & Halive).
    exists st'. split; [exact Hrun|]. rewrite Halive. reflexivity.
Qed.

Lemma fold_left_snoc {A B} (g : A -> B) (l : list A) (acc : list B) :
  fold_left (fun res x => res ++ [g x]) l acc = acc ++ map g l.
Proof.
  revert acc. induction l as [|x l IH]; intros acc; simpl.
  - symmetry. apply app_nil_r.
  - rewrite IH, <- app_assoc. reflexivity.
Qed.

Lemma tag_step_named (res : list proxy) (x : proxy * Z) :
  named x.1 -> tag_step res x = Ok (res ++ [tagged x]).
Proof.
  intros Hx. destruct (named_item _ Hx) as (s & Hs & _).
  unfold tag_step, dict_item, tagged. rewrite Hs. reflexivity.
Qed.

Lemma tag_loop (alive : list (proxy * Z)) (acc : list proxy) :
  Forall (fun x => named x.1) alive ->
  for_each tag_step alive acc = Ok (acc ++ map tagged alive).
Proof.
  intros Hn. rewrite <- fold_left_snoc.
  apply (for_each_fold (fun x => named x.1)); [|exact Hn].
  intros res x Hx. apply tag_step_named, Hx.
Qed.

Lemma probes_same (int_of_str : pystr -> option Z)
  (net : nat -> value -> Z -> conn_outcome) (proxies : list proxy)
  (outs : list (proxy * option Z)) (r : proxy * option Z) :
  probes int_of_str net proxies = Ok <$> outs ->
  r ∈ outs -> r.1 ∈ proxies.
Proof.
  intros Hp Hr. apply list_elem_of_lookup in Hr as [i Hi].
  assert (Hf : probes int_of_str net proxies !! i = Some (Ok r))
    by (rewrite Hp, list_lookup_fmap, Hi; reflexivity).
  unfold probes in Hf. rewrite list_lookup_imap in Hf.
  destruct (proxies !! i) as [p|] eqn:Hpi; [|discriminate].
  injection Hf as Hf. apply test_single_proxy_same in Hf. rewrite Hf.
  apply list_elem_of_lookup. eauto.
Qed.

Lemma survivors_elem (outs : list (proxy * option Z)) (x : proxy * Z) :
  x ∈ survivors outs <-> (x.1, Some x.2) ∈ outs.
Proof.
  unfold survivors. rewrite list_elem_of_omap. split.
  - intros ([p [latency|]] & Hin & Hx); simpl in Hx; [|discriminate].
    injection Hx as <-. exact Hin.
  - intros Hin. exists (x.1, Some x.2). split; [exact Hin|].
    destruct x; reflexivity.
Qed.

(** A run in which no probe raises: the survivors are collected in the
    order in which the futures are yielded, sorted, and then renamed. *)
Lemma prober_run (int_of_str : pystr -> option Z)
  (net : nat -> value -> Z -> conn_outcome) (completion : list nat)
  (proxies : list proxy) (outs : list (proxy * option Z)) :
  Forall named proxies ->
  probes int_of_str net proxies = Ok <$> outs ->
  let ranked := sort_by_latency (survivors (as_completed completion outs)) in
  ranked_alive int_of_str net completion proxies = Ok ranked
  /\ test_proxies_latency int_of_str net completion proxies
     = Ok (map tagged ranked)
  /\ (forall x, In x ranked -> In x.1 proxies /\ In (x.1, Some x.2) outs).
Proof.
  intros Hn Hp ranked.
  assert (Hfrom : forall x, In x ranked ->
                            In x.1 proxies /\ In (x.1, Some x.2) outs).
  { intros x Hx. apply list_elem_of_In in Hx. unfold ranked in Hx.
    rewrite sort_by_latency_perm in Hx.
    apply survivors_elem, as_completed_elem in Hx.
    split; [|apply list_elem_of_In, Hx].
    apply list_elem_of_In. apply (probes_same _ _ _ _ _ Hp Hx). }
  assert (Hrank : ranked_alive int_of_str net completion proxies = Ok ranked).
  { unfold ranked_alive. fold (probes int_of_str net proxies).
    rewrite Hp, as_completed_fmap.
    destruct (collect_loop (as_completed completion outs)
                {| alive_proxies := []; timeout_count := 0; tested := 0 |})
      as (st' & Hrun & Halive).
    rewrite Hrun, bind_Ok, Halive. reflexivity. }
  split; [exact Hrank|]. split; [|exact Hfrom].
  unfold test_proxies_latency. rewrite Hrank, bind_Ok.
  apply (tag_loop ranked []). apply List.Forall_forall. intros x Hx.
  rewrite List.Forall_forall in Hn. apply Hn, Hfrom, Hx.
Qed.

(** ** Objects that are listed more than once *)

Lemma store_set_eq (h : store) (obj : nat) (p : proxy) :
  store_set h obj p obj = p.
Proof. unfold store_set. rewrite Nat.eqb_refl. reflexivity. Qed.

Lemma store_set_ne (h : store) (obj o : nat) (p : proxy) :
  o <> obj -> store_set h obj p o = h o.
Proof.
  intros Hne. unfold store_set.
  destruct (Nat.eqb_spec o obj) as [->|_]; [congruence | reflexivity].
Qed.

Lemma fmap_agree {A B} (f g : A -> B) (l : list A) :
  (forall x, x ∈ l -> f x = g x) -> f <$> l = g <$> l.
Proof.
  induction l as [|x l IH]; intros H; [reflexivity|].
  cbn [fmap list_fmap]. rewrite (H x) by (left).
  f_equal. apply IH. intros y Hy. apply H. right. exact Hy.
Qed.

Lemma fmap_store_set (h : store) (obj : nat) (p : proxy) (l : list nat) :
  obj ∉ l -> store_set h obj p <$> l = h <$> l.
Proof.
  intros Hnot. apply fmap_agree. intros o Ho. apply store_set_ne.
  intros ->. exact (Hnot Ho).
Qed.

Lemma entry_of_agree (h1 h2 : store) (refs : list ref) :
  (forall o, o ∈ objects refs -> h1 o = h2 o) ->
  entry_of h1 <$> refs = entry_of h2 <$> refs.
Proof.
  induction refs as [|[o|v] refs IH]; intros H; [reflexivity|..];
    cbn [fmap list_fmap entry_of].
  - rewrite (H o) by (left). f_equal. apply IH.
    intros o' Ho'. apply H. right. exact Ho'.
  - f_equal. apply IH. exact H.
Qed.

(** ** The Normalizer on a list without a repeated object *)

Lemma dedup_shared_fold (refs : list ref) (st : dedup_shared_state)
  (bv : dedup_state) :
  NoDup (objects refs) ->
  sh_seen_names st = seen_names bv ->
  sh_store st <$> sh_result st = dedup_result bv ->
  (forall o, o ∈ objects refs -> o ∉ sh_result st) ->
  let st' := fold_left dedup_step_shared refs st in
  let bv' := fold_left dedup_step (entry_of (sh_store st) <$> refs) bv in
  sh_seen_names st' = seen_names bv'
  /\ sh_store st' <$> sh_result st' = dedup_result bv'
  /\ exists l, sh_result st' = sh_result st ++ l /\ sublist l (objects refs).
Proof.
  revert st bv. induction refs as [|[o|v] refs IH]; intros st bv Hnd Hs Hr Hf.
  - cbn. split; [exact Hs|]. split; [exact Hr|]. exists [].
    rewrite app_nil_r. split; [reflexivity | constructor].
  - cbn [objects omap list_omap] in Hnd, Hf. fold (objects refs) in Hnd, Hf.
    apply NoDup_cons in Hnd as [Hnot Hnd].
    assert (Hskip :
      let st' := fold_left dedup_step_shared refs st in
      let bv' := fold_left dedup_step (entry_of (sh_store st) <$> refs) bv in
      sh_seen_names st' = seen_names bv'
      /\ sh_store st' <$> sh_result st' = dedup_result bv'
      /\ exists l, sh_result st' = sh_result st ++ l
                   /\ sublist l (o :: objects refs)).
    { destruct (IH st bv Hnd Hs Hr) as (H1 & H2 & l & H3 & H4).
      - intros o' Ho'. apply Hf. right. exact Ho'.
      - split; [exact H1|]. split; [exact H2|]. exists l.
        split; [exact H3 | apply sublist_cons, H4]. }
    assert (Hkeep : forall (seen : gmap pystr Z) (name : pystr),
      let st1 := {| sh_seen_names := seen;
                    sh_result := sh_result st ++ [o];
                    sh_store :=
                      store_set (sh_store st) o
                        (<[k_name := VStr name]> (sh_store st o)) |} in
      let bv1 := {| seen_names := seen;
                    dedup_result :=
                      dedup_result bv
                      ++ [<[k_name := VStr name]> (sh_store st o)] |} in
      let st' := fold_left dedup_step_shared refs st1 in
      let bv' := fold_left dedup_step (entry_of (sh_store st) <$> refs) bv1 in
      sh_seen_names st' = seen_names bv'
      /\ sh_store st' <$> sh_result st' = dedup_result bv'
      /\ exists l, sh_result st' = sh_result st ++ l
                   /\ sublist l (o :: objects refs)).
    { intros seen name st1 bv1.
      destruct (IH st1 bv1 Hnd) as (H1 & H2 & l & H3 & H4).
      - reflexivity.
      - unfold st1, bv1. cbn [sh_store sh_result dedup_result].
        rewrite fmap_app. cbn [fmap list_fmap].
        rewrite store_set_eq, fmap_store_set, Hr; [reflexivity|].
        apply Hf. left.
      - intros o' Ho'. unfold st1. cbn [sh_result].
        rewrite not_elem_of_app. split.
        + apply Hf. right. exact Ho'.
        + rewrite list_elem_of_singleton. intros ->. exact (Hnot Ho').
      - assert (Hsame : entry_of (sh_store st1) <$> refs
                        = entry_of (sh_store st) <$> refs).
        { apply entry_of_agree. intros o' Ho'. unfold st1. cbn [sh_store].
          apply store_set_ne. intros ->. exact (Hnot Ho'). }
        rewrite Hsame in H1, H2.
        split; [exact H1|]. split; [exact H2|]. exists (o :: l).
        split; [|apply sublist_skip, H4].
        rewrite H3. unfold st1. cbn [sh_result]. rewrite <- app_assoc.
        reflexivity. }
    cbv zeta in Hskip, Hkeep. cbv zeta.
    change (objects (RDict o :: refs)) with (o :: objects refs).
    cbn [fmap list_fmap entry_of fold_left].
    set (st1 := dedup_step_shared st (RDict o)).
    set (bv1 := dedup_step bv (EDict (sh_store st o))).
    assert (Hcase :
      (st1 = st /\ bv1 = bv)
      \/ exists seen name,
           st1 = {| sh_seen_names := seen;
                    sh_result := sh_result st ++ [o];
                    sh_store :=
                      store_set (sh_store st) o
                        (<[k_name := VStr name]> (sh_store st o)) |}
           /\ bv1 = {| seen_names := seen;
                       dedup_result :=
                         dedup_result bv
                         ++ [<[k_name := VStr name]> (sh_store st o)] |}).
    { unfold st1, bv1, dedup_step_shared, dedup_step.
      destruct (negb (has_key k_name (sh_store st o))
                || negb (has_key k_type (sh_store st o))
                || negb (has_key k_server (sh_store st o)));
        [left; split; reflexivity|].
      cbv zeta.
      destruct (Nat.eqb
                  (length (strip (py_str (dict_get k_name VNone
                                            (sh_store st o))))) 0);
        [left; split; reflexivity|].
      rewrite Hs.
      destruct (seen_names bv !! strip (py_str (dict_get k_name VNone
                                                  (sh_store st o))));
        right; eexists _, _; split; reflexivity. }
    clearbody st1 bv1.
    destruct Hcase as [[-> ->] | (seen & name & -> & ->)];
      [exact Hskip | apply Hkeep].
  - cbn [fmap list_fmap entry_of fold_left dedup_step_shared dedup_step
         objects omap list_omap] in *.
    apply IH; assumption.
Qed.

(** On a list in which no dict object is listed twice, the objects that
    the Normalizer returns hold what [deduplicate_proxies] computes from
    the contents of the list. *)
Lemma deduplicate_proxies_shared_values (h : store) (all_proxies : list ref) :
  NoDup (objects all_proxies) ->
  let out := deduplicate_proxies_shared h all_proxies in
  out.2 <$> out.1 = deduplicate_proxies (entry_of h <$> all_proxies)
  /\ sublist out.1 (objects all_proxies).
Proof.
  intros Hnd.
  destruct (dedup_shared_fold all_proxies
              {| sh_seen_names := ∅; sh_result := []; sh_store := h |}
              {| seen_names := ∅; dedup_result := [] |} Hnd)
    as (_ & Hv & l & Hl & Hsub); try reflexivity.
  - intros o _. apply not_elem_of_nil.
  - cbn [sh_store sh_result app] in *. split; [exact Hv|].
    unfold deduplicate_proxies_shared. cbn [fst]. rewrite Hl. exact Hsub.
Qed.

(** ** The Region Filter *)

Lemma filter_step_search (st : list proxy * Z) (p : proxy) :
  filter_step st p
  = match re_search BLOCKED_REGION_PATTERN (dict_get k_name (VStr []) p) with
    | Ok true => Ok (st.1, st.2 + 1)
    | Ok false => Ok (st.1 ++ [p], st.2)
    | Raise e => Raise e
    end.
Proof.
  unfold filter_step.
  destruct (re_search _ _) as [[|]|e]; reflexivity.
Qed.

Lemma filter_step_shared_search (h : store) (st : list nat * Z) (o : nat) :
  filter_step_shared h st o
  = match re_search BLOCKED_REGION_PATTERN
            (dict_get k_name (VStr []) (h o)) with
    | Ok true => Ok (st.1, st.2 + 1)
    | Ok false => Ok (st.1 ++ [o], st.2)
    | Raise e => Raise e
    end.
Proof.
  unfold filter_step_shared.
  destruct (re_search _ _) as [[|]|e]; reflexivity.
Qed.

Lemma filter_shared_loop (h : store) (objs acc : list nat) (n : Z) :
  match for_each filter_step (h <$> objs) (h <$> acc, n) with
  | Ok st =>
      exists acc',
        for_each (filter_step_shared h) objs (acc, n) = Ok (acc', st.2)
        /\ h <$> acc' = st.1
        /\ exists l, acc' = acc ++ l /\ sublist l objs
  | Raise e => for_each (filter_step_shared h) objs (acc, n) = Raise e
  end.
Proof.
  revert acc n. induction objs as [|o objs IH]; intros acc n.
  - cbn. exists acc. split; [reflexivity|]. split; [reflexivity|].
    exists []. rewrite app_nil_r. split; [reflexivity | constructor].
  - cbn [fmap list_fmap for_each].
    rewrite filter_step_search, filter_step_shared_search. cbn [fst snd].
    destruct (re_search BLOCKED_REGION_PATTERN
                (dict_get k_name (VStr []) (h o))) as [[|]|e].
    + specialize (IH acc (n + 1)).
      destruct (for_each filter_step (h <$> objs) (h <$> acc, n + 1))
        as [st|e]; [|exact IH].
      destruct IH as (acc' & H1 & H2 & l & H3 & H4).
      exists acc'. split; [exact H1|]. split; [exact H2|].
      exists l. split; [exact H3 | apply sublist_cons, H4].
    + specialize (IH (acc ++ [o]) n).
      rewrite fmap_app in IH. cbn [fmap list_fmap] in IH.
      destruct (for_each filter_step (h <$> objs) _) as [st|e]; [|exact IH].
      destruct IH as (acc' & H1 & H2 & l & H3 & H4).
      exists acc'. split; [exact H1|]. split; [exact H2|].
      exists (o :: l). rewrite H3, <- app_assoc.
      split; [reflexivity | apply sublist_skip, H4].
    + reflexivity.
Qed.

(** The Region Filter assigns nothing: on references it keeps the
    references to the objects whose contents it would keep. *)
Lemma filter_blocked_regions_shared_values (h : store) (objs : list nat) :
  match filter_blocked_regions (h <$> objs) with
  | Ok out =>
      exists objs',
        filter_blocked_regions_shared h objs = Ok objs'
        /\ h <$> objs' = out /\ sublist objs' objs
  | Raise e => filter_blocked_regions_shared h objs = Raise e
  end.
Proof.
  unfold filter_blocked_regions, filter_blocked_regions_shared.
  pose proof (filter_shared_loop h objs [] 0) as H.
  cbn [fmap list_fmap] in H.
  destruct (for_each filter_step (h <$> objs) ([], 0)) as [st|e].
  - destruct H as (acc' & H1 & H2 & l & H3 & H4).
    rewrite H1, !bind_Ok. exists acc'. cbn [mret result_ret fst].
    split; [reflexivity|]. split; [exact H2|]. rewrite H3. exact H4.
  - rewrite H. reflexivity.
Qed.

(** ** The Prober on a list without a repeated object *)

Lemma test_single_proxy_shared_shown (int_of_str : pystr -> option Z)
  (sock_connect : value -> Z -> conn_outcome) (h : store) (o : nat) :
  match test_single_proxy_shared int_of_str sock_connect h o with
  | Ok r =>
      test_single_proxy int_of_str sock_connect (h o) = Ok (shown_in h r)
      /\ r.1 = o
  | Raise e => test_single_proxy int_of_str sock_connect (h o) = Raise e
  end.
Proof.
  unfold test_single_proxy_shared.
  destruct (test_single_proxy int_of_str sock_connect (h o)) as [r|e] eqn:Hr;
    [|reflexivity].
  rewrite bind_Ok. cbn [mret result_ret]. apply test_single_proxy_same in Hr.
  split; [|reflexivity]. unfold shown_in. cbn [fst snd]. rewrite <- Hr.
  destruct r; reflexivity.
Qed.

Lemma as_completed_cons {A} (i : nat) (completion : list nat) (l : list A) :
  as_completed (i :: completion) l
  = match l !! i with
    | Some x => x :: as_completed completion l
    | None => as_completed completion l
    end.
Proof. reflexivity. Qed.

Lemma as_completed_NoDup {A} (completion : list nat) (l : list A) :
  NoDup completion -> NoDup l -> NoDup (as_completed completion l).
Proof.
  intros Hc Hl. induction Hc as [|i c Hnot Hc IH]; [constructor|].
  rewrite as_completed_cons. destruct (l !! i) as [x|] eqn:Hi; [|exact IH].
  constructor; [|exact IH].
  unfold as_completed. rewrite list_elem_of_omap.
  intros (j & Hj & Hx). apply Hnot.
  rewrite (NoDup_lookup l i j x Hl Hi Hx). exact Hj.
Qed.

Section SharedProber.
Variable int_of_str : pystr -> option Z.
Variable net : nat -> value -> Z -> conn_outcome.
Variable h : store.
Variable objs : list nat.

Lemma collect_shared_loop (completion : list nat) (st : probe_shared_state)
  (bv : probe_state) :
  alive_proxies bv = shown_in h <$> sh_alive_proxies st ->
  match for_each collect_step
          (as_completed completion (probes int_of_str net (h <$> objs)))
          bv with
  | Ok bv' =>
      exists st',
        for_each collect_step_shared
          (as_completed completion
             (imap (fun i obj =>
                      test_single_proxy_shared int_of_str (net i) h obj)
                objs)) st
        = Ok st'
        /\ alive_proxies bv' = shown_in h <$> sh_alive_proxies st'
        /\ exists l,
             fst <$> sh_alive_proxies st'
             = (fst <$> sh_alive_proxies st) ++ l
             /\ sublist l (as_completed completion objs)
  | Raise e =>
      for_each collect_step_shared
        (as_completed completion
           (imap (fun i obj =>
                    test_single_proxy_shared int_of_str (net i) h obj)
              objs)) st
      = Raise e
  end.
Proof.
  revert st bv. induction completion as [|i c IH]; intros st bv Ha.
  - cbn. exists st. split; [reflexivity|]. split; [exact Ha|].
    exists []. rewrite app_nil_r. split; [reflexivity | constructor].
  - rewrite !as_completed_cons. unfold probes.
    rewrite !list_lookup_imap, list_lookup_fmap.
    destruct (objs !! i) as [o|] eqn:Hi; cbn [fmap option_fmap option_map];
      [|apply IH, Ha].
    cbn [for_each].
    pose proof (test_single_proxy_shared_shown int_of_str (net i) h o) as Hp.
    destruct (test_single_proxy_shared int_of_str (net i) h o) as [r|e].
    + destruct Hp as [Hp Ho]. rewrite Hp.
      assert (Hstep : exists st1 bv1,
                collect_step_shared st (Ok r) = Ok st1
                /\ collect_step bv (Ok (shown_in h r)) = Ok bv1
                /\ alive_proxies bv1 = shown_in h <$> sh_alive_proxies st1
                /\ exists l1,
                     fst <$> sh_alive_proxies st1
                     = (fst <$> sh_alive_proxies st) ++ l1
                     /\ sublist l1 [o]).
      { unfold collect_step_shared, collect_step. rewrite !bind_Ok.
        destruct r as [o' [latency|]]; cbn [fst snd shown_in] in *;
          subst o'; eexists _, _; (split; [reflexivity|]);
          (split; [reflexivity|]); cbn [alive_proxies sh_alive_proxies].
        - rewrite Ha, !fmap_app. split; [reflexivity|]. exists [o].
          split; reflexivity.
        - split; [exact Ha|]. exists []. rewrite app_nil_r.
          split; [reflexivity | apply sublist_nil_l]. }
      destruct Hstep as (st1 & bv1 & -> & -> & Ha1 & l1 & Hl1 & Hsub1).
      specialize (IH st1 bv1 Ha1).
      destruct (for_each collect_step _ bv1) as [bv'|e]; [|exact IH].
      destruct IH as (st' & H1 & H2 & l & H3 & H4).
      exists st'. split; [exact H1|]. split; [exact H2|].
      exists (l1 ++ l). split.
      * rewrite H3, Hl1, <- app_assoc. reflexivity.
      * apply (sublist_app l1 [o] l _ Hsub1 H4).
    + rewrite Hp. reflexivity.
Qed.

Lemma insert_by_latency_shared_shown (x : nat * Z) (l : list (nat * Z)) :
  insert_by_latency (shown_in h x) (shown_in h <$> l)
  = shown_in h <$> insert_by_latency_shared x l.
Proof.
  induction l as [|y l IH]; [reflexivity|].
  cbn [fmap list_fmap insert_by_latency insert_by_latency_shared].
  change (shown_in h x).2 with x.2. change (shown_in h y).2 with y.2.
  destruct (x.2 <=? y.2); [reflexivity|].
  cbn [fmap list_fmap]. rewrite <- IH. reflexivity.
Qed.

Lemma sort_by_latency_shared_shown (l : list (nat * Z)) :
  sort_by_latency (shown_in h <$> l)
  = shown_in h <$> sort_by_latency_shared l.
Proof.
  induction l as [|x l IH]; [reflexivity|].
  cbn [fmap list_fmap sort_by_latency sort_by_latency_shared].
  rewrite IH. apply insert_by_latency_shared_shown.
Qed.

Lemma insert_by_latency_shared_perm (x : nat * Z) (l : list (nat * Z)) :
  Permutation (insert_by_latency_shared x l) (x :: l).
Proof.
  induction l as [|y l IH]; [reflexivity|].
  cbn [insert_by_latency_shared]. destruct (x.2 <=? y.2); [reflexivity|].
  rewrite IH. apply perm_swap.
Qed.

Lemma sort_by_latency_shared_perm (l : list (nat * Z)) :
  Permutation (sort_by_latency_shared l) l.
Proof.
  induction l as [|x l IH]; [reflexivity|].
  cbn [sort_by_latency_shared]. rewrite insert_by_latency_shared_perm, IH.
  reflexivity.
Qed.

Lemma tag_step_cases (res : list proxy) (x : proxy * Z) :
  tag_step res x
  = match dict_item k_name x.1 with
    | Ok old =>
        Ok (res ++ [<[k_name :=
                        VStr (u "[" ++ str_of_int (int_of_latency x.2)
                              ++ u "ms] " ++ py_str old)]> x.1])
    | Raise e => Raise e
    end.
Proof. unfold tag_step. destruct (dict_item k_name x.1); reflexivity. Qed.

Lemma tag_step_shared_cases (st : list nat * store) (x : nat * Z) :
  tag_step_shared st x
  = match dict_item k_name (st.2 x.1) with
    | Ok old =>
        Ok (st.1 ++ [x.1],
            store_set st.2 x.1
              (<[k_name :=
                   VStr (u "[" ++ str_of_int (int_of_latency x.2)
                         ++ u "ms] " ++ py_str old)]> (st.2 x.1)))
    | Raise e => Raise e
    end.
Proof.
  unfold tag_step_shared. destruct (dict_item k_name (st.2 x.1)); reflexivity.
Qed.

(** The renaming loop on objects that are met once each. *)
Lemma tag_shared_loop (l : list (nat * Z)) (acc : list nat) (now : store) :
  NoDup (fst <$> l) ->
  (forall x, x ∈ l -> now x.1 = h x.1) ->
  (forall o, o ∈ acc -> o ∉ fst <$> l) ->
  match for_each tag_step (shown_in h <$> l) (now <$> acc) with
  | Ok out =>
      exists acc' now',
        for_each tag_step_shared l (acc, now) = Ok (acc', now')
        /\ now' <$> acc' = out
  | Raise e => for_each tag_step_shared l (acc, now) = Raise e
  end.
Proof.
  revert acc now.
  induction l as [|[o latency] l IH]; intros acc now Hnd Hsame Hacc.
  - cbn. exists acc, now. split; reflexivity.
  - cbn [fmap list_fmap for_each] in *.
    apply NoDup_cons in Hnd as [Hnot Hnd].
    rewrite tag_step_cases, tag_step_shared_cases.
    cbn [fst snd shown_in].
    assert (Ho : now o = h o) by (apply (Hsame (o, latency)); left).
    rewrite Ho.
    destruct (dict_item k_name (h o)) as [old|e]; [|reflexivity].
    match goal with
    | |- context [for_each tag_step_shared l (?a, ?n)] =>
      specialize (IH a n Hnd)
    end.
    rewrite fmap_app in IH. cbn [fmap list_fmap] in IH.
    rewrite store_set_eq, fmap_store_set in IH.
    + apply IH.
      * intros x Hx. rewrite store_set_ne; [apply Hsame; right; exact Hx|].
        intros Heq. apply Hnot. rewrite <- Heq.
        apply list_elem_of_fmap. exists x. split; [reflexivity | exact Hx].
      * intros o' Ho'. apply elem_of_app in Ho' as [Ho'|Ho'].
        -- intros Hin. apply (Hacc o' Ho'). right. exact Hin.
        -- apply list_elem_of_singleton in Ho'. subst o'. exact Hnot.
    + intros Hin. apply (Hacc o Hin). left.
Qed.

(** On a list in which no dict object is listed twice, and when no future
    is yielded twice, the objects that the Prober returns hold what
    [test_proxies_latency] computes from the contents of the list, and
    it raises what [test_proxies_latency] raises. *)
Lemma test_proxies_latency_shared_values (completion : list nat) :
  NoDup objs -> NoDup completion ->
  match test_proxies_latency int_of_str net completion (h <$> objs) with
  | Ok out =>
      exists objs' h',
        test_proxies_latency_shared int_of_str net completion h objs
        = Ok (objs', h')
        /\ h' <$> objs' = out
  | Raise e =>
      test_proxies_latency_shared int_of_str net completion h objs = Raise e
  end.
Proof.
  intros Hobjs Hc.
  unfold test_proxies_latency, ranked_alive, test_proxies_latency_shared.
  fold (probes int_of_str net (h <$> objs)).
  pose proof (collect_shared_loop completion
                {| sh_alive_proxies := []; sh_timeout_count := 0;
                   sh_tested := 0 |}
                {| alive_proxies := []; timeout_count := 0; tested := 0 |}
                eq_refl) as Hloop.
  destruct (for_each collect_step _ _) as [bv'|e];
    [|rewrite Hloop; reflexivity].
  destruct Hloop as (st' & Hrun & Halive & l & Hl & Hsub).
  rewrite Hrun, !bind_Ok. cbn [mret result_ret].
  rewrite Halive, sort_by_latency_shared_shown.
  cbn [sh_alive_proxies fmap list_fmap app] in Hl.
  assert (Hnd : NoDup (fst <$> sort_by_latency_shared (sh_alive_proxies st'))).
  { rewrite sort_by_latency_shared_perm, Hl.
    eapply sublist_NoDup; [|exact Hsub].
    apply as_completed_NoDup; assumption. }
  pose proof (tag_shared_loop _ [] h Hnd) as Htag.
  cbn [fmap list_fmap] in Htag. apply Htag.
  - reflexivity.
  - intros o Ho. apply not_elem_of_nil in Ho. destruct Ho.
Qed.

End SharedProber.

(** C2, as the specification states it, fails: two nodes of equal latency
    come out in the order in which [as_completed] yielded their futures,
    here the second node of the input before the first. *)
Lemma test_proxies_latency_ties_counterexample :
  exists out,
    test_proxies_latency (fun _ => None) (fun _ _ _ => Connected 50)
      [1%nat; 0%nat] [node "first"; node "second"]
    = Ok out
    /\ names_of out = [u "[50ms] second"; u "[50ms] first"]
    /\ names_of out <> [u "[50ms] first"; u "[50ms] second"].
Proof.
  eexists. split; [vm_compute; reflexivity|].
  split; vm_compute; [reflexivity | discriminate].
Qed.

(** C2, amended. For every list of nodes, every outcome of the probes and
    every order in which [as_completed] yields the futures, the sequence
    returned by [test_proxies_latency] is the renamed ranking of the
    survivors: the ranking is ascending in latency, it is a rearrangement
    of the survivors, and nodes of equal latency stand in it in the order
    in which [as_completed] yielded their futures, which is neither the
    order of the input nor, for futures that had finished before the
    iteration began, the order in which the probes ended. *)
Theorem test_proxies_latency_ranking (int_of_str : pystr -> option Z)
  (net : nat -> value -> Z -> conn_outcome) (completion : list nat)
  (proxies : list proxy) (outs : list (proxy * option Z)) :
  Forall named proxies ->
  probes int_of_str net proxies = Ok <$> outs ->
  Permutation completion (seq 0 (length proxies)) ->
  exists ranked,
    ranked_alive int_of_str net completion proxies = Ok ranked
    /\ test_proxies_latency int_of_str net completion proxies
       = Ok (map tagged ranked)
    /\ Sorted latency_le ranked
    /\ Permutation ranked (survivors outs)
    /\ (forall latency,
          with_latency latency ranked
          = with_latency latency
              (survivors (as_completed completion outs)))
    /\ (forall (h : store) (objs : list nat),
          proxies = h <$> objs -> NoDup objs ->
          exists objs' h',
            test_proxies_latency_shared int_of_str net completion h objs
            = Ok (objs', h')
            /\ h' <$> objs' = map tagged ranked).
Proof.
  intros Hn Hp Hc.
  destruct (prober_run int_of_str net completion proxies outs Hn Hp)
    as (Hrank & Hrun & _).
  eexists. split; [exact Hrank|]. split; [exact Hrun|].
  split; [apply sort_by_latency_sorted|].
  split; [|split; [intros latency; apply sort_by_latency_stable|]].
  - rewrite sort_by_latency_perm. unfold survivors.
    apply omap_Permutation, as_completed_perm.
    assert (Hlen : length outs = length proxies).
    { rewrite <- (length_fmap Ok outs), <- Hp. unfold probes.
      apply length_imap. }
    rewrite Hlen. exact Hc.
  - intros h objs Heq Hobjs. subst proxies.
    pose proof (test_proxies_latency_shared_values int_of_str net h objs
                  completion Hobjs) as Hs.
    rewrite Hrun in Hs. apply Hs. rewrite Hc. apply NoDup_seq.
Qed.

Lemma test_proxies_latency_ranking_witness :
  exists out,
    test_proxies_latency (fun _ => None)
      (fun i _ _ => match i with
                    | 0%nat => Connected 50
                    | 1%nat => ConnError
                    | 2%nat => Connected 10
                    | _ => Connected 50
                    end)
      [3%nat; 2%nat; 1%nat; 0%nat]
      [node "a"; node "b"; node "c"; node "d"]
    = Ok out
    /\ names_of out = [u "[10ms] c"; u "[50ms] d"; u "[50ms] a"].
Proof.
  destruct (test_proxies_latency_ranking (fun _ => None)
              (fun i _ _ => match i with
                            | 0%nat => Connected 50
                            | 1%nat => ConnError
                            | 2%nat => Connected 10
                            | _ => Connected 50
                            end)
              [3%nat; 2%nat; 1%nat; 0%nat]
              [node "a"; node "b"; node "c"; node "d"]
              [(node "a", Some 500); (node "b", None);
               (node "c", Some 100); (node "d", Some 500)])
    as (ranked & Hrank & Hrun & _).
  - repeat constructor; vm_compute; eauto.
  - vm_compute. reflexivity.
  - simpl. change [3%nat; 2%nat; 1%nat; 0%nat] with (rev [0; 1; 2; 3]%nat).
    symmetry. apply Permutation_rev.
  - eexists. split; [exact Hrun|].
    assert (Hr : ranked = [(node "c", 100); (node "d", 500); (node "a", 500)]).
    { assert (H : ranked_alive (fun _ => None)
              (fun i _ _ => match i with
                            | 0%nat => Connected 50
                            | 1%nat => ConnError
                            | 2%nat => Connected 10
                            | _ => Connected 50
                            end)
              [3%nat; 2%nat; 1%nat; 0%nat]
              [node "a"; node "b"; node "c"; node "d"]
              = Ok [(node "c", 100); (node "d", 500); (node "a", 500)])
        by (vm_compute; reflexivity).
      rewrite H in Hrank. injection Hrank as <-. reflexivity. }
    rewrite Hr. vm_compute. reflexivity.
Defined.

(** C5, as the specification states it, fails: a measured latency of
    123.6 ms is shown as 123, the whole milliseconds that [int] keeps, and
    not as the nearest whole number 124. *)
Lemma test_proxies_latency_rounding_counterexample :
  exists out,
    test_proxies_latency (fun _ => None) (fun _ _ _ => Connected 123.6)
      [0%nat] [node "Tokyo-1"]
    = Ok out
    /\ names_of out = [u "[123ms] Tokyo-1"]
    /\ names_of out <> [u "[124ms] Tokyo-1"].
Proof.
  eexists. split; [vm_compute; reflexivity|].
  split; vm_compute; [reflexivity | discriminate].
Qed.

(** C5, amended. For every surviving node, [test_proxies_latency] rewrites
    the name to prefix [int(round(latency_ms, 1))]: the measured latency
    is first rounded to one decimal and then cut down to whole
    milliseconds, so that [Tokyo-1] becomes [[123ms] Tokyo-1] at 123.4 ms
    and at 123.6 ms alike, and [[124ms] Tokyo-1] at 123.96 ms.  The names
    are rewritten on the finished ranking, whose nodes are nodes of the
    input to which the connection was made. *)
Theorem test_proxies_latency_names (int_of_str : pystr -> option Z)
  (net : nat -> value -> Z -> conn_outcome) (completion : list nat)
  (proxies : list proxy) (outs : list (proxy * option Z)) :
  Forall named proxies ->
  probes int_of_str net proxies = Ok <$> outs ->
  exists ranked,
    ranked_alive int_of_str net completion proxies = Ok ranked
    /\ test_proxies_latency int_of_str net completion proxies
       = Ok (map tagged ranked)
    /\ (forall x, In x ranked ->
          In x.1 proxies /\ In (x.1, Some x.2) outs
          /\ (exists i port latency_ms,
                proxies !! i = Some x.1
                /\ py_int int_of_str (dict_get k_port (VInt 0) x.1) = Ok port
                /\ net i (dict_get k_server (VStr []) x.1) port
                   = Connected latency_ms
                /\ x.2 = round_tenths latency_ms)
          /\ exists s,
               name_str x.1 = Some s
               /\ tagged x
                  = <[k_name :=
                        VStr (u "[" ++ str_of_int (Z.quot x.2 10)
                              ++ u "ms] " ++ s)]> x.1)
    /\ (forall (h : store) (objs : list nat),
          proxies = h <$> objs -> NoDup objs -> NoDup completion ->
          exists objs' h',
            test_proxies_latency_shared int_of_str net completion h objs
            = Ok (objs', h')
            /\ h' <$> objs' = map tagged ranked)
    /\ tagged (node "Tokyo-1", round_tenths 123.4) = node "[123ms] Tokyo-1"
    /\ tagged (node "Tokyo-1", round_tenths 123.6) = node "[123ms] Tokyo-1"
    /\ tagged (node "Tokyo-1", round_tenths 123.96) = node "[124ms] Tokyo-1".
Proof.
  intros Hn Hp.
  destruct (prober_run int_of_str net completion proxies outs Hn Hp)
    as (Hrank & Hrun & Hfrom).
  eexists. split; [exact Hrank|]. split; [exact Hrun|].
  split; [|split; [|repeat split; vm_compute; reflexivity]];
    [|intros h objs Heq Hobjs Hc; subst proxies;
      pose proof (test_proxies_latency_shared_values int_of_str net h objs
                    completion Hobjs Hc) as Hs;
      rewrite Hrun in Hs; exact Hs].
  intros x Hx. destruct (Hfrom x Hx) as [Hin Hout].
  split; [exact Hin|]. split; [exact Hout|]. split.
  - apply list_elem_of_In, list_elem_of_lookup in Hout as [i Hi].
    assert (Hf : probes int_of_str net proxies !! i
                 = Some (Ok (x.1, Some x.2)))
      by (rewrite Hp, list_lookup_fmap, Hi; reflexivity).
    unfold probes in Hf. rewrite list_lookup_imap in Hf.
    destruct (proxies !! i) as [p|] eqn:Hpi; [|discriminate].
    injection Hf as Hf.
    apply test_single_proxy_alive in Hf as (Heq & port & ms & Hport & Hc & Hl).
    exists i, port, ms. rewrite Heq. auto.
  - rewrite List.Forall_forall in Hn.
    destruct (named_item _ (Hn _ Hin)) as (s & Hs & Hstr).
    exists s. split; [exact Hstr|]. unfold tagged. rewrite Hs. reflexivity.
Qed.

Lemma test_proxies_latency_names_witness :
  exists out,
    test_proxies_latency (fun _ => None) (fun _ _ _ => Connected 123.4)
      [0%nat] [node "Tokyo-1"]
    = Ok out
    /\ out = [node "[123ms] Tokyo-1"].
Proof.
  destruct (test_proxies_latency_names (fun _ => None)
              (fun _ _ _ => Connected 123.4) [0%nat] [node "Tokyo-1"]
              [(node "Tokyo-1", Some 1234)])
    as (ranked & Hrank & Hrun & _ & _ & Htag & _).
  - repeat constructor; vm_compute; eauto.
  - vm_compute. reflexivity.
  - eexists. split; [exact Hrun|].
    assert (Hr : ranked = [(node "Tokyo-1", round_tenths 123.4)]).
    { assert (H : ranked_alive (fun _ => None)
                    (fun _ _ _ => Connected 123.4) [0%nat] [node "Tokyo-1"]
                  = Ok [(node "Tokyo-1", round_tenths 123.4)])
        by (vm_compute; reflexivity).
      rewrite H in Hrank. injection Hrank as <-. reflexivity. }
    rewrite Hr. cbn [map]. rewrite Htag. reflexivity.
Defined.

(** ** Nodes that are not probed *)

(** A node without a usable endpoint is reported unreachable whatever the
    network would answer: no connection is attempted. *)
Lemma test_single_proxy_unreachable (int_of_str : pystr -> option Z)
  (sock_connect : value -> Z -> conn_outcome) (p : proxy) :
  p !! k_port = None
  \/ p !! k_port = Some (VInt 0)
  \/ py_int int_of_str (dict_get k_port (VInt 0) p) = Raise ValueError
  \/ py_int int_of_str (dict_get k_port (VInt 0) p) = Raise TypeError
  \/ p !! k_server = None
  \/ p !! k_server = Some (VStr []) ->
  test_single_proxy int_of_str sock_connect p = Ok (p, None).
Proof.
  unfold test_single_proxy, dict_get.
  intros [H|[H|[H|[H|[H|H]]]]]; try (rewrite H; simpl).
  - rewrite orb_true_r. reflexivity.
  - rewrite orb_true_r. reflexivity.
  - destruct (negb _ || negb _); reflexivity.
  - destruct (negb _ || negb _); reflexivity.
  - reflexivity.
  - reflexivity.
Qed.

(** C10. A port that is the float infinity is not convertible to an
    integer, yet the node is not classified as unreachable: [int(port)]
    raises [OverflowError], which the handler of [ValueError] and
    [TypeError] lets through, and the whole probing run ends with it. *)
Theorem test_single_proxy_infinite_port (int_of_str : pystr -> option Z)
  (net : nat -> value -> Z -> conn_outcome) :
  test_single_proxy int_of_str (net 0%nat)
    (<[k_port := VFloat (FInf false) (u "inf")]> (node "n"))
  = Raise OverflowError
  /\ test_proxies_latency int_of_str net [0%nat]
       [<[k_port := VFloat (FInf false) (u "inf")]> (node "n")]
     = Raise OverflowError.
Proof. split; reflexivity. Qed.

(** ** The driver *)

(** Writing always leaves a trace, so a run wrote a configuration exactly
    when its final [world] differs from the initial one. *)
Lemma write_output_changes (config_data : config) (update_time : pystr)
  (w : world) :
  write_output config_data update_time w <> w.
Proof.
  destruct w as [l]. unfold write_output. simpl. intros [= H].
  apply (f_equal length) in H. simpl in H. lia.
Qed.

(** C8. If nothing is left after deduplication, after the region filter,
    or after probing, [main] ends with [sys.exit(1)] and writes nothing;
    and whenever a run writes a configuration, every stage had returned
    at least one node and what is written is the configuration built from
    the probed nodes. *)
Theorem main_empty_is_fatal (int_of_str : pystr -> option Z)
  (net : nat -> value -> Z -> conn_outcome) (completion : list nat)
  (now : pystr) (all_proxies : list entry) (w : world) :
  (deduplicate_proxies all_proxies = []
   \/ filter_blocked_regions (deduplicate_proxies all_proxies) = Ok []
   \/ (exists filtered,
         filter_blocked_regions (deduplicate_proxies all_proxies)
         = Ok filtered
         /\ test_proxies_latency int_of_str net completion filtered = Ok [])
   -> main int_of_str net completion now all_proxies w = (SysExit 1, w))
  /\ ((main int_of_str net completion now all_proxies w).2 <> w ->
      exists filtered probed config_data update_time,
        deduplicate_proxies all_proxies <> []
        /\ filter_blocked_regions (deduplicate_proxies all_proxies)
           = Ok filtered
        /\ filtered <> []
        /\ test_proxies_latency int_of_str net completion filtered
           = Ok probed
        /\ probed <> []
        /\ build_config now probed = Ok (config_data, update_time)
        /\ (main int_of_str net completion now all_proxies w).2
           = write_output config_data update_time w).
Proof.
  split.
  - intros Hempty. unfold main.
    destruct all_proxies as [|e l]; [reflexivity|].
    destruct Hempty as [H|[H|(filtered & H & Hp)]]; rewrite H.
    + reflexivity.
    + reflexivity.
    + destruct filtered; [reflexivity|]. rewrite Hp. reflexivity.
  - unfold main. destruct all_proxies as [|e l]; [intros H; contradiction|].
    destruct (filter_blocked_regions (deduplicate_proxies (e :: l)))
      as [filtered|err] eqn:Hf; [|intros H; contradiction].
    destruct filtered as [|p filtered]; [intros H; contradiction|].
    destruct (test_proxies_latency int_of_str net completion (p :: filtered))
      as [probed|err] eqn:Hp; [|intros H; contradiction].
    destruct probed as [|q probed]; [intros H; contradiction|].
    destruct (build_config now (q :: probed))
      as [[config_data update_time]|err] eqn:Hb; [|intros H; contradiction].
    intros _. exists (p :: filtered), (q :: probed), config_data, update_time.
    split; [intros Hd; rewrite Hd in Hf; discriminate|].
    split; [reflexivity|]. split; [discriminate|].
    split; [exact Hp|]. split; [discriminate|]. split; [exact Hb|].
    destruct (classify_by_region (q :: probed)); reflexivity.
Qed.

Lemma main_empty_is_fatal_witness :
  main (fun _ => None) (fun _ _ _ => ConnError) [0%nat] (u "2026-01-01 00:00")
    [EDict (node "JP-1")] {| written := [] |}
  = (SysExit 1, {| written := [] |}).
Proof.
  apply (main_empty_is_fatal (fun _ => None) (fun _ _ _ => ConnError)
           [0%nat] (u "2026-01-01 00:00") [EDict (node "JP-1")]
           {| written := [] |}).
  right. right. exists [node "JP-1"].
  split; vm_compute; reflexivity.
Defined.

(** ** Normalizer, Region Filter and Classifier in sequence *)

Lemma normal_named (p : proxy) : normal p -> named p.
Proof.
  intros (s & Hs & _). unfold named, name_str. rewrite Hs. eauto.
Qed.

Lemma dedup_step_fresh (st : dedup_state) (p : proxy) (s : pystr) :
  normal p -> name_str p = Some s -> seen_names st !! s = None ->
  dedup_step st (EDict p)
  = {| seen_names := <[s := 0]> (seen_names st);
       dedup_result := dedup_result st ++ [p] |}.
Proof.
  intros (s' & Hs & Hstrip & Hne & [ty Hty] & [srv Hsrv]) Hname Hfresh.
  unfold name_str in Hname. rewrite Hs in Hname. injection Hname as ->.
  unfold dedup_step, has_key, dict_get. rewrite Hs, Hty, Hsrv.
  cbn [negb orb default from_option id py_str]. rewrite Hstrip.
  destruct s as [|c s]; [congruence|]. cbn [length Nat.eqb].
  rewrite Hfresh, (insert_id p k_name (VStr (c :: s)) Hs). reflexivity.
Qed.

Lemma dedup_fold_fresh (proxies : list proxy) (st : dedup_state) :
  Forall normal proxies ->
  NoDup (names_of proxies) ->
  (forall s, s ∈ names_of proxies -> seen_names st !! s = None) ->
  dedup_result (fold_left dedup_step (EDict <$> proxies) st)
  = dedup_result st ++ proxies.
Proof.
  intros Hn. revert st.
  induction Hn as [|p ps Hp _ IH]; intros st Hnd Hfresh.
  - simpl. rewrite app_nil_r. reflexivity.
  - destruct (named_item p (normal_named p Hp)) as (s & _ & Hstr).
    unfold names_of in Hnd, Hfresh. cbn [omap list_omap] in Hnd, Hfresh.
    rewrite Hstr in Hnd, Hfresh.
    apply NoDup_cons in Hnd as [Hnotin Hnd].
    cbn [fmap list_fmap fold_left].
    rewrite (dedup_step_fresh st p s Hp Hstr)
      by (apply Hfresh; left).
    rewrite IH; [| exact Hnd |].
    + cbn [dedup_result]. rewrite <- app_assoc. reflexivity.
    + intros s' Hs'. cbn [seen_names].
      rewrite lookup_insert_ne by (intros ->; exact (Hnotin Hs')).
      apply Hfresh. right. exact Hs'.
Qed.

Lemma deduplicate_proxies_normal (proxies : list proxy) :
  Forall normal proxies ->
  NoDup (names_of proxies) ->
  deduplicate_proxies (EDict <$> proxies) = proxies.
Proof.
  intros Hn Hnd. unfold deduplicate_proxies.
  rewrite dedup_fold_fresh; [reflexivity | exact Hn | exact Hnd |].
  intros s _. apply lookup_empty.
Qed.

Lemma filter_all {A} (f : A -> bool) (l : list A) :
  Forall (fun x => f x = true) l -> List.filter f l = l.
Proof.
  induction 1 as [|x l Hx _ IH]; simpl; [reflexivity|].
  rewrite Hx, IH. reflexivity.
Qed.

(** On descriptors that are normal, of distinct names and not blocked, the
    three stages change no node, so running them again on their own
    output gives the same grouping. *)
Lemma grouping_idempotent_normal (proxies : list proxy) :
  Forall normal proxies ->
  NoDup (names_of proxies) ->
  Forall (fun p => name_matches BLOCKED_REGION_PATTERN p = false) proxies ->
  filter_blocked_regions (deduplicate_proxies (EDict <$> proxies))
  = Ok proxies
  /\ grouping (EDict <$> proxies) = classify_by_region proxies.
Proof.
  intros Hn Hnd Hb.
  assert (Hstage : filter_blocked_regions
                     (deduplicate_proxies (EDict <$> proxies)) = Ok proxies).
  { rewrite (deduplicate_proxies_normal proxies Hn Hnd).
    rewrite filter_blocked_regions_named
      by (eapply Forall_impl; [exact Hn|]; apply normal_named).
    f_equal. apply filter_all.
    eapply Forall_impl; [exact Hb|]. intros p Hp. simpl in Hp.
    rewrite Hp. reflexivity. }
  split; [exact Hstage|]. unfold grouping. rewrite Hstage. reflexivity.
Qed.

(** C9. On an input whose names are distinct, non-empty and not blocked,
    with all required fields, the three stages run a second time do not
    give the grouping of the first run.  The names [ JP] (with a leading
    space), [JP] and [JP_1] become [JP], [JP_1], [JP_1] in the first run,
    and the second run renames the last of them [JP_1_1]. *)
Theorem grouping_twice_suffix_collision :
  NoDup [u " JP"; u "JP"; u "JP_1"]
  /\ Forall (fun p => name_matches BLOCKED_REGION_PATTERN p = false)
       [node " JP"; node "JP"; node "JP_1"]
  /\ exists once,
       filter_blocked_regions
         (deduplicate_proxies
            [EDict (node " JP"); EDict (node "JP"); EDict (node "JP_1")])
       = Ok once
       /\ grouping
            [EDict (node " JP"); EDict (node "JP"); EDict (node "JP_1")]
          = Ok [(u "🇯🇵 日本",
                 [VStr (u "JP"); VStr (u "JP_1"); VStr (u "JP_1")])]
       /\ grouping (EDict <$> once)
          = Ok [(u "🇯🇵 日本",
                 [VStr (u "JP"); VStr (u "JP_1"); VStr (u "JP_1_1")])].
Proof.
  split; [apply (bool_decide_unpack _); vm_compute; reflexivity|].
  split; [repeat constructor|].
  eexists. split; [vm_compute; reflexivity|].
  split; vm_compute; reflexivity.
Qed.


(** * Further properties of the code *)

(** ** Stripping *)

Lemma lstrip_head (s : pystr) :
  match lstrip s with
  | [] => True
  | c :: _ => py_isspace c = false
  end.
Proof.
  induction s as [|c s IH]; simpl; [exact I|].
  destruct (py_isspace c) eqn:Hc; [exact IH | exact Hc].
Qed.

Lemma lstrip_suffix (s : pystr) : exists pre, s = pre ++ lstrip s.
Proof.
  induction s as [|c s [pre IH]]; simpl.
  - exists []. reflexivity.
  - destruct (py_isspace c).
    + exists (c :: pre). simpl. f_equal. exact IH.
    + exists []. reflexivity.
Qed.

Lemma lstrip_fix (s : pystr) :
  match s with
  | [] => True
  | c :: _ => py_isspace c = false
  end ->
  lstrip s = s.
Proof.
  destruct s as [|c s]; simpl; [reflexivity|]. intros ->. reflexivity.
Qed.

Lemma clean_strip (s : pystr) : clean s -> strip s = s.
Proof.
  intros [Hhd Hlast]. unfold strip.
  rewrite (lstrip_fix s Hhd), (lstrip_fix (rev s) Hlast).
  apply rev_involutive.
Qed.

Lemma strip_clean (s : pystr) : clean (strip s).
Proof.
  unfold strip, clean. rewrite rev_involutive.
  split; [|apply lstrip_head].
  pose proof (lstrip_head s) as Ha.
  destruct (lstrip_suffix (rev (lstrip s))) as [pre Hpre].
  destruct (lstrip (rev (lstrip s))) as [|x b] eqn:Hb; [exact I|].
  apply (f_equal (@rev N)) in Hpre.
  rewrite rev_involutive, rev_app_distr in Hpre.
  destruct (rev (x :: b)) as [|y t] eqn:Hr.
  - apply (f_equal (@length N)) in Hr. rewrite length_rev in Hr.
    discriminate.
  - rewrite Hpre in Ha. exact Ha.
Qed.

Lemma strip_idempotent (s : pystr) : strip (strip s) = strip s.
Proof. apply clean_strip, strip_clean. Qed.

Lemma clean_suffixed (s d : pystr) (c : N) :
  s <> [] -> clean s -> py_isspace c = false ->
  clean (s ++ d ++ [c]).
Proof.
  intros Hne [Hhd _] Hc. unfold clean.
  rewrite !rev_app_distr. simpl.
  destruct s as [|x s]; [congruence|]. simpl. split; assumption.
Qed.

(** ** The Normalizer, by occurrences *)

Lemma dedup_step_kept (st : dedup_state) (e : entry) :
  dedup_step st e
  = match kept e with
    | None => st
    | Some (p, s) =>
      match seen_names st !! s with
      | Some n =>
          {| seen_names := <[s := n + 1]> (seen_names st);
             dedup_result :=
               dedup_result st
               ++ [<[k_name := VStr (s ++ u "_" ++ str_of_int (n + 1))]> p] |}
      | None =>
          {| seen_names := <[s := 0]> (seen_names st);
             dedup_result := dedup_result st ++ [<[k_name := VStr s]> p] |}
      end
    end.
Proof.
  destruct e as [p|v]; [|reflexivity]. unfold dedup_step, kept.
  destruct (has_key k_name p), (has_key k_type p), (has_key k_server p);
    try reflexivity.
  cbn [negb orb andb].
  destruct (strip (py_str (dict_get k_name VNone p))); reflexivity.
Qed.

Lemma occurrences_snoc (s t : pystr) (l : list pystr) :
  occurrences s (l ++ [t])
  = (occurrences s l + if bool_decide (t = s) then 1 else 0)%nat.
Proof.
  unfold occurrences. rewrite List.filter_app, length_app. simpl.
  destruct (bool_decide (t = s)); reflexivity.
Qed.

Lemma occurrences_app (s : pystr) (l k : list pystr) :
  occurrences s (l ++ k) = (occurrences s l + occurrences s k)%nat.
Proof. unfold occurrences. rewrite List.filter_app, length_app. reflexivity. Qed.

Lemma occurrences_In (s : pystr) (l : list pystr) :
  In s l -> (0 < occurrences s l)%nat.
Proof.
  intros Hin. unfold occurrences.
  assert (H : In s (List.filter (fun x => bool_decide (x = s)) l)).
  { apply filter_In. split; [exact Hin|]. apply bool_decide_eq_true. reflexivity. }
  destruct (List.filter _ l); [destruct H | simpl; lia].
Qed.

Lemma seen_after_step (prev : list pystr) (seen : gmap pystr Z) (s : pystr) :
  seen_after prev seen ->
  seen_after (prev ++ [s])
    (<[s := Z.of_nat (occurrences s prev)]> seen).
Proof.
  intros Hseen t. rewrite occurrences_snoc.
  destruct (decide (s = t)) as [->|Hne].
  - rewrite lookup_insert_eq, bool_decide_eq_true_2 by reflexivity.
    rewrite Nat.add_1_r. reflexivity.
  - rewrite lookup_insert_ne by exact Hne.
    rewrite bool_decide_eq_false_2 by exact Hne.
    rewrite Nat.add_0_r. apply Hseen.
Qed.

Lemma dedup_fold_renamed (l : list entry) (st : dedup_state)
  (prev : list pystr) :
  seen_after prev (seen_names st) ->
  dedup_result (fold_left dedup_step l st)
  = dedup_result st ++ renamed prev (omap kept l).
Proof.
  revert st prev. induction l as [|e l IH]; intros st prev Hseen.
  - simpl. rewrite app_nil_r. reflexivity.
  - cbn [fold_left omap list_omap]. rewrite dedup_step_kept.
    destruct (kept e) as [[p s]|]; [|apply IH, Hseen].
    pose proof (Hseen s) as Hs. pose proof (seen_after_step _ _ s Hseen) as Hnext.
    unfold new_name. cbn [renamed]. unfold new_name.
    destruct (occurrences s prev) as [|k] eqn:Hocc; rewrite Hs.
    + rewrite (IH _ (prev ++ [s])); [|exact Hnext].
      cbn [dedup_result]. rewrite <- app_assoc. reflexivity.
    + replace (Z.of_nat k + 1) with (Z.of_nat (S k)) by lia.
      rewrite (IH _ (prev ++ [s])); [|exact Hnext].
      cbn [dedup_result]. rewrite <- app_assoc. reflexivity.
Qed.

Lemma dedup_renamed (all_proxies : list entry) :
  deduplicate_proxies all_proxies = renamed [] (omap kept all_proxies).
Proof.
  unfold deduplicate_proxies. rewrite (dedup_fold_renamed _ _ []).
  - reflexivity.
  - intros s. apply lookup_empty.
Qed.

Lemma length_renamed (prev : list pystr) (l : list (proxy * pystr)) :
  length (renamed prev l) = length l.
Proof.
  revert prev. induction l as [|[p s] l IH]; intros prev; simpl;
    [reflexivity|]. rewrite IH. reflexivity.
Qed.

(** X1. On a list in which no dict object is listed twice, the Normalizer
    drops the descriptors it cannot keep and renames the others by the
    number of earlier descriptors of the same name: the first keeps its
    name, stripped, and the one after [k] others gets the suffix [_k].
    All other fields are left as they are.  This is what
    [deduplicate_proxies] computes from the contents of the list. *)
Theorem deduplicate_proxies_renamed (h : store) (all_proxies : list ref) :
  NoDup (objects all_proxies) ->
  let out := deduplicate_proxies_shared h all_proxies in
  let read := omap kept (entry_of h <$> all_proxies) in
  out.2 <$> out.1 = renamed [] read
  /\ length out.1 = length read
  /\ deduplicate_proxies (entry_of h <$> all_proxies) = renamed [] read.
Proof.
  intros Hnd out read.
  destruct (deduplicate_proxies_shared_values h all_proxies Hnd) as [Hv _].
  fold out in Hv. rewrite dedup_renamed in Hv. fold read in Hv.
  split; [exact Hv|]. split; [|apply dedup_renamed].
  rewrite <- (length_fmap out.2 out.1), Hv. apply length_renamed.
Qed.

Lemma deduplicate_proxies_renamed_witness :
  let out :=
    deduplicate_proxies_shared (fun _ => node " A")
      [RDict 0; ROther VNone; RDict 1] in
  names_of (out.2 <$> out.1) = [u "A"; u "A_1"].
Proof.
  intros out.
  destruct (deduplicate_proxies_renamed (fun _ => node " A")
              [RDict 0; ROther VNone; RDict 1]) as [Hv _].
  - refine (bool_decide_unpack _ _). vm_compute. exact I.
  - fold out in Hv. rewrite Hv. vm_compute. reflexivity.
Defined.

(** ** When the Normalizer gives distinct names *)

Lemma names_of_renamed (prev : list pystr) (l : list (proxy * pystr)) :
  names_of (renamed prev l) = new_names prev (map snd l).
Proof.
  revert prev. induction l as [|[p s] l IH]; intros prev; simpl.
  - reflexivity.
  - unfold names_of in *. cbn [omap list_omap].
    unfold name_str at 1. rewrite lookup_insert_eq. simpl.
    f_equal. apply IH.
Qed.

Lemma new_names_elem (prev l : list pystr) (x : pystr) :
  In x (new_names prev l) ->
  exists pre t post, l = pre ++ t :: post /\ x = new_name (prev ++ pre) t.
Proof.
  revert prev. induction l as [|s l IH]; intros prev; simpl; [tauto|].
  intros [<-|Hin].
  - exists [], s, l. rewrite app_nil_r. split; reflexivity.
  - destruct (IH _ Hin) as (pre & t & post & -> & ->).
    exists (s :: pre), t, post. rewrite <- app_assoc. split; reflexivity.
Qed.

Lemma uint_digits_no_underscore (d : Decimal.uint) :
  ~ In 95%N (uint_digits d).
Proof.
  induction d; simpl; [tauto|..]; intros [H|H];
    try discriminate; tauto.
Qed.

Lemma uint_digits_inj (d e : Decimal.uint) :
  uint_digits d = uint_digits e -> d = e.
Proof.
  revert e. induction d; intros []; simpl; intros H; try discriminate;
    try reflexivity; injection H as H; f_equal; apply IHd, H.
Qed.

Lemma str_of_int_succ (k : nat) :
  str_of_int (Z.of_nat (S k)) = uint_digits (Pos.to_uint (Pos.of_succ_nat k)).
Proof. reflexivity. Qed.

Lemma split_at_underscore (a b d e : pystr) :
  ~ In 95%N d -> ~ In 95%N e ->
  a ++ 95%N :: d = b ++ 95%N :: e -> a = b /\ d = e.
Proof.
  intros Hd He. revert b. induction a as [|x a IH]; intros [|y b]; simpl.
  - intros [= H]. split; [reflexivity | exact H].
  - intros [= <- H]. exfalso. apply Hd. rewrite H.
    apply in_or_app. right. left. reflexivity.
  - intros [= -> H]. exfalso. apply He. rewrite <- H.
    apply in_or_app. right. left. reflexivity.
  - intros [= -> H]. destruct (IH _ H) as [-> ->]. split; reflexivity.
Qed.

Lemma u_underscore : u "_" = [95%N].
Proof. reflexivity. Qed.

Lemma suffixed_inj (s t : pystr) (k m : nat) :
  s ++ u "_" ++ str_of_int (Z.of_nat (S k))
  = t ++ u "_" ++ str_of_int (Z.of_nat (S m)) ->
  s = t /\ k = m.
Proof.
  rewrite u_underscore, !str_of_int_succ. simpl. intros H.
  apply split_at_underscore in H; try apply uint_digits_no_underscore.
  destruct H as [-> H]. split; [reflexivity|].
  apply uint_digits_inj, DecimalPos.Unsigned.to_uint_inj in H.
  apply SuccNat2Pos.inj, H.
Qed.

Lemma suffixed_longer (s d : pystr) : s <> s ++ u "_" ++ d.
Proof.
  intros H. apply (f_equal (@length N)) in H.
  rewrite u_underscore, length_app in H. simpl in H. lia.
Qed.

(** The names that the Normalizer gives are distinct when no name it
    reads is another name it reads followed by [_] and a number from 1
    on. *)
Lemma new_names_NoDup (prev l : list pystr) :
  (forall s t k, In s (prev ++ l) -> In t (prev ++ l) ->
                 t <> s ++ u "_" ++ str_of_int (Z.of_nat (S k))) ->
  NoDup (new_names prev l).
Proof.
  revert prev. induction l as [|s l IH]; intros prev Hclash; simpl.
  - constructor.
  - constructor.
    + rewrite list_elem_of_In. intros Hin.
      apply new_names_elem in Hin as (pre & t & post & -> & Heq).
      assert (Hs : In s (prev ++ s :: pre ++ t :: post))
        by (apply in_or_app; right; left; reflexivity).
      assert (Ht : In t (prev ++ s :: pre ++ t :: post)).
      { apply in_or_app. right. right. apply in_or_app. right. left.
        reflexivity. }
      unfold new_name in Heq.
      destruct (occurrences s prev) as [|k] eqn:Hk;
        destruct (occurrences t ((prev ++ [s]) ++ pre)) as [|m] eqn:Hm.
      * subst t. rewrite !occurrences_app in Hm.
        pose proof (occurrences_In s [s] (or_introl eq_refl)). lia.
      * exact (Hclash t s m Ht Hs Heq).
      * symmetry in Heq. exact (Hclash s t k Hs Ht Heq).
      * apply suffixed_inj in Heq as [-> ->].
        rewrite !occurrences_app in Hm.
        pose proof (occurrences_In t [t] (or_introl eq_refl)). lia.
    + apply IH. intros a b k Ha Hb. rewrite <- app_assoc in Ha, Hb.
      apply Hclash; assumption.
Qed.

Lemma names_of_deduplicate (all_proxies : list entry) :
  names_of (deduplicate_proxies all_proxies)
  = new_names [] (base_names all_proxies).
Proof. rewrite dedup_renamed. apply names_of_renamed. Qed.

Lemma dedup_distinct (all_proxies : list entry) :
  (forall s t k,
     In s (base_names all_proxies) -> In t (base_names all_proxies) ->
     (1 <= k)%nat ->
     t <> s ++ u "_" ++ str_of_int (Z.of_nat k)) ->
  NoDup (names_of (deduplicate_proxies all_proxies)).
Proof.
  intros Hclash. rewrite names_of_deduplicate. apply new_names_NoDup.
  intros s t k Hs Ht. apply Hclash; [exact Hs | exact Ht | lia].
Qed.

(** X2. On a list in which no dict object is listed twice, the output of
    the Normalizer has pairwise distinct names whenever no name it reads
    is another name it reads followed by [_] and a number from 1 on. *)
Theorem deduplicate_proxies_distinct (h : store) (all_proxies : list ref) :
  NoDup (objects all_proxies) ->
  (forall s t k,
     In s (base_names (entry_of h <$> all_proxies)) ->
     In t (base_names (entry_of h <$> all_proxies)) ->
     (1 <= k)%nat ->
     t <> s ++ u "_" ++ str_of_int (Z.of_nat k)) ->
  let out := deduplicate_proxies_shared h all_proxies in
  NoDup (names_of (out.2 <$> out.1)).
Proof.
  intros Hnd Hclash out.
  destruct (deduplicate_proxies_shared_values h all_proxies Hnd) as [Hv _].
  fold out in Hv. rewrite Hv. apply dedup_distinct, Hclash.
Qed.

Lemma deduplicate_proxies_distinct_witness :
  let out :=
    deduplicate_proxies_shared
      (fun o => match o with 2%nat => node "B" | _ => node "A" end)
      [RDict 0; RDict 1; RDict 2] in
  NoDup (names_of (out.2 <$> out.1)).
Proof.
  apply deduplicate_proxies_distinct.
  - refine (bool_decide_unpack _ _). vm_compute. exact I.
  - intros s t k Hs Ht _ Heq. apply (f_equal (@length N)) in Heq.
    rewrite !length_app in Heq.
    assert (Hlen : forall x,
              In x (base_names
                      (entry_of
                         (fun o => match o with
                                   | 2%nat => node "B"
                                   | _ => node "A"
                                   end)
                       <$> [RDict 0; RDict 1; RDict 2]))
              -> length x = 1%nat).
    { intros x Hx. vm_compute in Hx.
      destruct Hx as [<-|[<-|[<-|[]]]]; reflexivity. }
    rewrite (Hlen s Hs), (Hlen t Ht) in Heq. simpl in Heq. lia.
Defined.

Lemma kept_Some (e : entry) (p : proxy) (s : pystr) :
  kept e = Some (p, s) ->
  e = EDict p
  /\ is_Some (p !! k_name) /\ is_Some (p !! k_type)
  /\ is_Some (p !! k_server)
  /\ s = strip (py_str (dict_get k_name VNone p)) /\ s <> [].
Proof.
  destruct e as [q|v]; [|discriminate]. unfold kept, has_key.
  destruct (q !! k_name) eqn:Hn; [|discriminate].
  destruct (q !! k_type) eqn:Ht; [|discriminate].
  destruct (q !! k_server) eqn:Hs; [|discriminate].
  cbn [andb].
  destruct (strip (py_str (dict_get k_name VNone q))) eqn:Hstrip;
    [discriminate|].
  intros [= <- <-]. rewrite Hn, Ht, Hs. repeat split; eauto; discriminate.
Qed.

Lemma uint_digits_nonspace (d : Decimal.uint) :
  Forall (fun c => py_isspace c = false) (uint_digits d).
Proof. induction d; simpl; constructor; try reflexivity; exact IHd. Qed.

Lemma clean_suffix (s t : pystr) :
  s <> [] -> clean s ->
  Forall (fun c => py_isspace c = false) t ->
  clean (s ++ u "_" ++ t).
Proof.
  intros Hne [Hhd _] Ht. rewrite u_underscore. unfold clean.
  split; [destruct s; [congruence | exact Hhd]|].
  rewrite rev_app_distr. simpl. rewrite <- app_assoc. simpl.
  destruct (rev t) as [|c r] eqn:Hr; simpl; [reflexivity|].
  rewrite List.Forall_forall in Ht. apply Ht, in_rev. rewrite Hr. left.
  reflexivity.
Qed.

Lemma new_name_clean (prev : list pystr) (s : pystr) :
  s <> [] -> clean s -> new_name prev s <> [] /\ clean (new_name prev s).
Proof.
  intros Hne Hs. unfold new_name. destruct (occurrences s prev) as [|k].
  - split; assumption.
  - split; [destruct s; [congruence | discriminate]|].
    rewrite str_of_int_succ. apply clean_suffix; try assumption.
    apply uint_digits_nonspace.
Qed.

Lemma renamed_normal (prev : list pystr) (l : list entry) :
  Forall normal (renamed prev (omap kept l)).
Proof.
  revert prev. induction l as [|e l IH]; intros prev;
    cbn [omap list_omap renamed]; [constructor|].
  destruct (kept e) as [[p s]|] eqn:He; [|apply IH].
  cbn [renamed]. constructor; [|apply IH].
  apply kept_Some in He as (_ & _ & Hty & Hsrv & Hs & Hne).
  assert (Hclean : clean s) by (rewrite Hs; apply strip_clean).
  destruct (new_name_clean prev s Hne Hclean) as [Hne' Hclean'].
  exists (new_name prev s). rewrite lookup_insert_eq.
  split; [reflexivity|]. split; [apply clean_strip, Hclean'|].
  split; [exact Hne'|].
  rewrite !lookup_insert_ne by discriminate. split; assumption.
Qed.

Lemma dedup_normal_output (all_proxies : list entry) :
  Forall normal (deduplicate_proxies all_proxies).
Proof. rewrite dedup_renamed. apply renamed_normal. Qed.

(** X3. Every node that leaves the Normalizer has the three required keys and
    a name that is a non-empty [str] with no white space around it. *)
Theorem deduplicate_proxies_normal_output (all_proxies : list entry) :
  Forall normal (deduplicate_proxies all_proxies).
Proof. apply dedup_normal_output. Qed.

(** X4. The Normalizer leaves its own output as it is whenever the names of
    that output are pairwise distinct. *)
Theorem deduplicate_proxies_idempotent (all_proxies : list entry) :
  NoDup (names_of (deduplicate_proxies all_proxies)) ->
  deduplicate_proxies (EDict <$> deduplicate_proxies all_proxies)
  = deduplicate_proxies all_proxies.
Proof.
  intros Hnd. apply deduplicate_proxies_normal; [|exact Hnd].
  apply dedup_normal_output.
Qed.

Lemma deduplicate_proxies_idempotent_witness :
  deduplicate_proxies
    (EDict <$> deduplicate_proxies
                 [EDict (node "A"); EDict (node " A "); EOther VNone])
  = deduplicate_proxies [EDict (node "A"); EDict (node " A "); EOther VNone].
Proof.
  apply deduplicate_proxies_idempotent.
  apply (bool_decide_unpack _). vm_compute. reflexivity.
Defined.

(** ** The Region Filter at its edges *)

Lemma blocked_pattern_empty : search_str BLOCKED_REGION_PATTERN [] = false.
Proof. vm_compute. reflexivity. Qed.

Lemma filter_step_nameless (st : list proxy * Z) (p : proxy) :
  p !! k_name = None -> filter_step st p = Ok (filter_fold st p).
Proof.
  intros Hp. unfold filter_step, filter_fold, dict_get, name_matches, name_str.
  rewrite Hp. cbn [default from_option id re_search].
  rewrite blocked_pattern_empty. reflexivity.
Qed.

Lemma filter_step_named (st : list proxy * Z) (p : proxy) :
  named p -> filter_step st p = Ok (filter_fold st p).
Proof.
  intros Hp. unfold filter_step, filter_fold.
  rewrite (re_search_named _ _ p Hp).
  destruct (name_matches BLOCKED_REGION_PATTERN p); reflexivity.
Qed.

Lemma filter_step_not_str (st : list proxy * Z) (p : proxy) (v : value) :
  p !! k_name = Some v -> (forall s, v <> VStr s) ->
  filter_step st p = Raise TypeError.
Proof.
  intros Hp Hv. unfold filter_step, dict_get. rewrite Hp.
  destruct v; try reflexivity. exfalso. exact (Hv s eq_refl).
Qed.

Lemma filter_step_cases (st : list proxy * Z) (p : proxy) :
  filter_step st p = Ok (filter_fold st p)
  \/ filter_step st p = Raise TypeError.
Proof.
  destruct (p !! k_name) as [v|] eqn:Hp.
  - destruct v; try (right; eapply filter_step_not_str;
                     [exact Hp | discriminate]).
    left. apply filter_step_named. unfold named, name_str. rewrite Hp. eauto.
  - left. apply filter_step_nameless, Hp.
Qed.

Lemma filter_loop_raises (proxies : list proxy) (st : list proxy * Z)
  (p : proxy) (v : value) :
  In p proxies -> p !! k_name = Some v -> (forall s, v <> VStr s) ->
  for_each filter_step proxies st = Raise TypeError.
Proof.
  intros Hin Hp Hv. revert st.
  induction proxies as [|q l IH]; intros st; [destruct Hin|].
  cbn [for_each].
  destruct (filter_step_cases st q) as [Hq|Hq]; rewrite Hq; [|reflexivity].
  destruct Hin as [->|Hin]; [|apply IH, Hin].
  rewrite (filter_step_not_str st p v Hp Hv) in Hq. discriminate.
Qed.

(** X5. A node without a [name] passes the Region Filter; a node whose
    [name] is not a [str] makes the whole call raise [TypeError]. *)
Theorem filter_blocked_regions_edges (proxies : list proxy) :
  (Forall (fun p => p !! k_name = None \/ named p) proxies ->
   filter_blocked_regions proxies
   = Ok (List.filter
           (fun p => negb (name_matches BLOCKED_REGION_PATTERN p)) proxies)
   /\ forall p, In p proxies -> p !! k_name = None ->
                In p (List.filter
                        (fun p => negb (name_matches BLOCKED_REGION_PATTERN p))
                        proxies))
  /\ (forall p v,
        In p proxies -> p !! k_name = Some v -> (forall s, v <> VStr s) ->
        filter_blocked_regions proxies = Raise TypeError).
Proof.
  split.
  - intros Hok. split.
    + unfold filter_blocked_regions.
      rewrite (for_each_fold (fun p => p !! k_name = None \/ named p)
                 filter_step filter_fold proxies _).
      * rewrite bind_Ok. unfold mret, result_ret. f_equal.
        apply filter_fold_result.
      * intros st p [Hp|Hp];
          [apply filter_step_nameless | apply filter_step_named]; exact Hp.
      * exact Hok.
    + intros p Hin Hp. apply filter_In. split; [exact Hin|].
      unfold name_matches, name_str. rewrite Hp. reflexivity.
  - intros p v Hin Hp Hv. unfold filter_blocked_regions.
    rewrite (filter_loop_raises proxies _ p v Hin Hp Hv). reflexivity.
Qed.

Lemma filter_blocked_regions_edges_witness :
  filter_blocked_regions [delete k_name (node "CN"); node "JP"]
  = Ok [delete k_name (node "CN"); node "JP"]
  /\ filter_blocked_regions [node "JP"; <[k_name := VInt 7]> (node "x")]
     = Raise TypeError.
Proof.
  destruct (filter_blocked_regions_edges
              [delete k_name (node "CN"); node "JP"]) as [Hok _].
  assert (Hpre : Forall (fun p : proxy => p !! k_name = None \/ named p)
                   [delete k_name (node "CN"); node "JP"]).
  { constructor; [left; vm_compute; reflexivity|].
    constructor; [right; vm_compute; eauto | constructor]. }
  destruct (Hok Hpre) as [Hrun _].
  destruct (filter_blocked_regions_edges
              [node "JP"; <[k_name := VInt 7]> (node "x")]) as [_ Hbad].
  split.
  - rewrite Hrun. vm_compute. reflexivity.
  - apply (Hbad (<[k_name := VInt 7]> (node "x")) (VInt 7)).
    + right. left. reflexivity.
    + vm_compute. reflexivity.
    + discriminate.
Defined.

Lemma filter_filter {A} (f : A -> bool) (l : list A) :
  List.filter f (List.filter f l) = List.filter f l.
Proof.
  induction l as [|x l IH]; simpl; [reflexivity|].
  destruct (f x) eqn:Hx; simpl; rewrite ?Hx, IH; reflexivity.
Qed.

Lemma filter_Forall {A} (P : A -> Prop) (f : A -> bool) (l : list A) :
  Forall P l -> Forall P (List.filter f l).
Proof.
  induction 1 as [|x l Hx _ IH]; simpl; [constructor|].
  destruct (f x); [constructor|]; assumption.
Qed.

Lemma filter_after_normalizer_aux (all_proxies : list entry) :
  exists out,
    filter_blocked_regions (deduplicate_proxies all_proxies) = Ok out
    /\ Forall named out
    /\ filter_blocked_regions out = Ok out.
Proof.
  pose proof (deduplicate_proxies_named all_proxies) as Hn.
  eexists. split; [apply filter_blocked_regions_named, Hn|].
  split; [apply filter_Forall, Hn|].
  rewrite filter_blocked_regions_named by apply filter_Forall, Hn.
  rewrite filter_filter. reflexivity.
Qed.

(** X6. The Region Filter never raises on what the Normalizer returns, and a
    second pass of the filter removes nothing more. *)
Theorem filter_after_normalizer (all_proxies : list entry) :
  exists out,
    filter_blocked_regions (deduplicate_proxies all_proxies) = Ok out
    /\ Forall named out
    /\ filter_blocked_regions out = Ok out.
Proof. apply filter_after_normalizer_aux. Qed.

(** ** The Prober: failures, counts and ties *)

(** X7. A node whose port is absent, zero or refused by [int] with
    [ValueError] or [TypeError], or whose server is absent or empty, is
    reported unreachable by [test_single_proxy] whatever the network
    would answer: no connection is attempted. *)
Theorem test_single_proxy_no_endpoint (int_of_str : pystr -> option Z)
  (sock_connect other : value -> Z -> conn_outcome) (p : proxy) :
  p !! k_port = None
  \/ p !! k_port = Some (VInt 0)
  \/ py_int int_of_str (dict_get k_port (VInt 0) p) = Raise ValueError
  \/ py_int int_of_str (dict_get k_port (VInt 0) p) = Raise TypeError
  \/ p !! k_server = None
  \/ p !! k_server = Some (VStr []) ->
  test_single_proxy int_of_str sock_connect p = Ok (p, None)
  /\ test_single_proxy int_of_str other p = Ok (p, None).
Proof.
  intros H. split; apply test_single_proxy_unreachable; exact H.
Qed.

Lemma test_single_proxy_no_endpoint_witness :
  test_single_proxy (fun _ => None) (fun _ _ => Connected 1)
    (<[k_port := VStr (u "https")]> (node "n"))
  = Ok (<[k_port := VStr (u "https")]> (node "n"), None).
Proof.
  apply (test_single_proxy_no_endpoint (fun _ => None)
           (fun _ _ => Connected 1) (fun _ _ => ConnError)).
  right. right. left. vm_compute. reflexivity.
Defined.

Lemma collect_loop_raises (futures : list (result (proxy * option Z)))
  (st : probe_state) (e : exn) :
  In (Raise e) futures ->
  exists e', for_each collect_step futures st = Raise e'.
Proof.
  revert st. induction futures as [|f l IH]; intros st; [intros []|].
  intros [->|Hin]; cbn [for_each].
  - exists e. reflexivity.
  - destruct (collect_step st f) as [st'|e'] eqn:Hf; [apply IH, Hin|].
    exists e'. reflexivity.
Qed.

(** X8. An exception that escapes one probe ends the whole ranking: no list
    is returned, whatever the other probes found. *)
Theorem test_proxies_latency_raises (int_of_str : pystr -> option Z)
  (net : nat -> value -> Z -> conn_outcome) (completion : list nat)
  (proxies : list proxy) (i : nat) (e : exn) :
  In i completion ->
  probes int_of_str net proxies !! i = Some (Raise e) ->
  exists e',
    test_proxies_latency int_of_str net completion proxies = Raise e'.
Proof.
  intros Hi He.
  assert (Hin : In (Raise e)
                  (as_completed completion (probes int_of_str net proxies))).
  { apply list_elem_of_In. unfold as_completed. apply list_elem_of_omap.
    exists i. split; [apply list_elem_of_In, Hi | exact He]. }
  destruct (collect_loop_raises _ probe_start e Hin) as [e' He'].
  exists e'. unfold test_proxies_latency, ranked_alive.
  fold (probes int_of_str net proxies). fold probe_start.
  rewrite He'. reflexivity.
Qed.

Lemma test_proxies_latency_raises_witness :
  exists e',
    test_proxies_latency (fun _ => None) (fun _ _ _ => Connected 1)
      [1%nat; 0%nat]
      [node "a"; <[k_port := VFloat (FInf false) (u "inf")]> (node "b")]
    = Raise e'.
Proof.
  apply (test_proxies_latency_raises _ _ _ _ 1%nat OverflowError).
  - left. reflexivity.
  - vm_compute. reflexivity.
Defined.

Lemma collect_loop_counts (outs : list (proxy * option Z))
  (st : probe_state) :
  exists st',
    for_each collect_step (Ok <$> outs) st = Ok st'
    /\ alive_proxies st' = alive_proxies st ++ survivors outs
    /\ tested st' = tested st + Z.of_nat (length outs)
    /\ timeout_count st' + Z.of_nat (length (survivors outs))
       = timeout_count st + Z.of_nat (length outs).
Proof.
  revert st. induction outs as [|[p [latency|]] outs IH]; intros st.
  - exists st. simpl. rewrite app_nil_r. repeat split; lia.
  - destruct (IH {| alive_proxies := alive_proxies st ++ [(p, latency)];
                    timeout_count := timeout_count st;
                    tested := tested st + 1 |})
      as (st' & Hrun & Halive & Htested & Htimeout).
    exists st'. split; [exact Hrun|]. cbn [alive_proxies tested timeout_count] in *.
    rewrite Halive, Htested. split; [rewrite <- app_assoc; reflexivity|].
    split; [simpl; lia|]. simpl in *. lia.
  - destruct (IH {| alive_proxies := alive_proxies st;
                    timeout_count := timeout_count st + 1;
                    tested := tested st + 1 |})
      as (st' & Hrun & Halive & Htested & Htimeout).
    exists st'. split; [exact Hrun|]. cbn [alive_proxies tested timeout_count] in *.
    rewrite Halive, Htested. split; [reflexivity|].
    split; [simpl; lia|]. simpl in *. lia.
Qed.

Lemma probes_length (int_of_str : pystr -> option Z)
  (net : nat -> value -> Z -> conn_outcome) (proxies : list proxy) :
  length (probes int_of_str net proxies) = length proxies.
Proof. unfold probes. apply length_imap. Qed.

(** X9. When no probe raises and every future is yielded, the collecting
    loop has counted every node once: [tested] is the number of nodes,
    and the survivors and [timeout_count] add up to it. *)
Theorem probe_accounting (int_of_str : pystr -> option Z)
  (net : nat -> value -> Z -> conn_outcome) (completion : list nat)
  (proxies : list proxy) (outs : list (proxy * option Z)) :
  probes int_of_str net proxies = Ok <$> outs ->
  Permutation completion (seq 0 (length proxies)) ->
  exists st,
    for_each collect_step
      (as_completed completion (probes int_of_str net proxies)) probe_start
    = Ok st
    /\ tested st = Z.of_nat (length proxies)
    /\ Z.of_nat (length (alive_proxies st)) + timeout_count st
       = Z.of_nat (length proxies)
    /\ Permutation (alive_proxies st) (survivors outs).
Proof.
  intros Hp Hc. rewrite Hp, as_completed_fmap.
  destruct (collect_loop_counts (as_completed completion outs) probe_start)
    as (st & Hrun & Halive & Htested & Htimeout).
  assert (Hlen : length outs = length proxies)
    by (rewrite <- (length_fmap Ok outs), <- Hp; apply probes_length).
  assert (Hperm : Permutation (as_completed completion outs) outs)
    by (apply as_completed_perm; rewrite Hlen; exact Hc).
  exists st. split; [exact Hrun|]. simpl in Halive, Htested, Htimeout.
  rewrite (Permutation_length Hperm), Hlen in Htested, Htimeout.
  split; [lia|]. rewrite Halive. split; [lia|].
  unfold survivors. apply omap_Permutation, Hperm.
Qed.

Lemma probe_accounting_witness :
  exists st,
    for_each collect_step
      (as_completed [1%nat; 0%nat]
         (probes (fun _ => None)
            (fun i _ _ => match i with
                          | O => ConnError
                          | _ => Connected 2
                          end)
            [node "a"; node "b"]))
      probe_start
    = Ok st
    /\ tested st = 2 /\ timeout_count st = 1.
Proof.
  destruct (probe_accounting (fun _ => None)
              (fun i _ _ => match i with
                            | O => ConnError
                            | _ => Connected 2
                            end)
              [1%nat; 0%nat] [node "a"; node "b"]
              [(node "a", None); (node "b", Some 20)])
    as (st & Hrun & Htested & Hsum & Hperm).
  - vm_compute. reflexivity.
  - apply perm_swap.
  - exists st. split; [exact Hrun|]. split; [exact Htested|].
    apply Permutation_length in Hperm. simpl in Hperm, Hsum. lia.
Defined.

Lemma Sorted_min (x : proxy * Z) (l : list (proxy * Z)) :
  Sorted latency_le (x :: l) -> forall y, In y (x :: l) -> x.2 <= y.2.
Proof.
  intros Hs. apply Sorted_StronglySorted in Hs.
  - inversion Hs as [|? ? _ Hall]; subst. intros y [<-|Hy]; [lia|].
    rewrite List.Forall_forall in Hall. apply Hall, Hy.
  - intros a b c. unfold latency_le. lia.
Qed.

Lemma NoDup_keys_inj (l : list (proxy * Z)) (x y : proxy * Z) :
  NoDup (map snd l) -> In x l -> In y l -> x.2 = y.2 -> x = y.
Proof.
  induction l as [|z l IH]; simpl; [tauto|].
  intros Hnd. apply NoDup_cons in Hnd as [Hz Hnd].
  intros [<-|Hx] [<-|Hy] Heq; try reflexivity.
  - exfalso. apply Hz. rewrite Heq. apply list_elem_of_In, in_map, Hy.
  - exfalso. apply Hz. rewrite <- Heq. apply list_elem_of_In, in_map, Hx.
  - apply IH; assumption.
Qed.

(** A ranking is determined by its entries when no two of them have the
    same latency. *)
Lemma sorted_unique (l1 l2 : list (proxy * Z)) :
  Sorted latency_le l1 -> Sorted latency_le l2 ->
  Permutation l1 l2 -> NoDup (map snd l1) -> l1 = l2.
Proof.
  revert l2. induction l1 as [|x l1 IH]; intros l2 Hs1 Hs2 Hperm Hnd.
  - apply Permutation_nil in Hperm. subst. reflexivity.
  - destruct l2 as [|y l2];
      [symmetry in Hperm; apply Permutation_nil in Hperm; discriminate|].
    assert (Hy : In y (x :: l1))
      by (apply (Permutation_in _ (Permutation_sym Hperm)); left; reflexivity).
    assert (Hx : In x (y :: l2))
      by (apply (Permutation_in _ Hperm); left; reflexivity).
    pose proof (Sorted_min x l1 Hs1 y Hy) as Hxy.
    pose proof (Sorted_min y l2 Hs2 x Hx) as Hyx.
    assert (Heq : x = y).
    { apply (NoDup_keys_inj (x :: l1)); try assumption;
        [left; reflexivity | lia]. }
    subst y. f_equal. apply IH.
    + inversion Hs1; assumption.
    + inversion Hs2; assumption.
    + apply Permutation_cons_inv in Hperm. exact Hperm.
    + simpl in Hnd. apply NoDup_cons in Hnd as [_ Hnd]. exact Hnd.
Qed.

Lemma sorted_strict (l : list (proxy * Z)) :
  Sorted latency_le l -> NoDup (map snd l) -> Sorted latency_lt l.
Proof.
  induction 1 as [|x l Hs IH Hhd]; intros Hnd; [constructor|].
  simpl in Hnd. apply NoDup_cons in Hnd as [Hx Hnd].
  constructor; [apply IH, Hnd|].
  destruct Hhd as [|y l Hxy]; constructor.
  unfold latency_le, latency_lt in *.
  assert (x.2 <> y.2); [|lia].
  intros Heq. apply Hx. rewrite Heq. simpl. left.
Qed.

(** X10. When the survivors have pairwise distinct latencies, what the Prober
    returns does not depend on the order in which the futures are
    yielded, and its ranking is strictly ascending. *)
Theorem test_proxies_latency_no_ties (int_of_str : pystr -> option Z)
  (net : nat -> value -> Z -> conn_outcome) (completion other : list nat)
  (proxies : list proxy) (outs : list (proxy * option Z)) :
  Forall named proxies ->
  probes int_of_str net proxies = Ok <$> outs ->
  Permutation completion (seq 0 (length proxies)) ->
  Permutation other (seq 0 (length proxies)) ->
  NoDup (map snd (survivors outs)) ->
  exists ranked,
    ranked_alive int_of_str net completion proxies = Ok ranked
    /\ Sorted latency_lt ranked
    /\ test_proxies_latency int_of_str net completion proxies
       = Ok (map tagged ranked)
    /\ test_proxies_latency int_of_str net other proxies
       = Ok (map tagged ranked).
Proof.
  intros Hn Hp Hc Ho Hnd.
  destruct (prober_run int_of_str net completion proxies outs Hn Hp)
    as (Hrank & Hrun & _).
  destruct (prober_run int_of_str net other proxies outs Hn Hp)
    as (_ & Hrun' & _).
  assert (Hlen : length outs = length proxies)
    by (rewrite <- (length_fmap Ok outs), <- Hp; apply probes_length).
  assert (Hperm : forall c, Permutation c (seq 0 (length proxies)) ->
            Permutation
              (sort_by_latency (survivors (as_completed c outs)))
              (survivors outs)).
  { intros c Hc'. rewrite sort_by_latency_perm. unfold survivors.
    apply omap_Permutation, as_completed_perm. rewrite Hlen. exact Hc'. }
  assert (Hkeys : NoDup
            (map snd (sort_by_latency
                        (survivors (as_completed completion outs))))).
  { rewrite (Permutation_map snd (Hperm completion Hc)). exact Hnd. }
  eexists. split; [exact Hrank|].
  split; [apply sorted_strict; [apply sort_by_latency_sorted | exact Hkeys]|].
  split; [exact Hrun|]. rewrite Hrun'. do 2 f_equal.
  apply sorted_unique; try apply sort_by_latency_sorted.
  - rewrite (Hperm other Ho), (Hperm completion Hc). reflexivity.
  - rewrite (Permutation_map snd (Hperm other Ho)). exact Hnd.
Qed.

Lemma test_proxies_latency_no_ties_witness :
  test_proxies_latency (fun _ => None)
    (fun i _ _ => match i with O => Connected 50 | _ => Connected 10 end)
    [0%nat; 1%nat] [node "a"; node "b"]
  = test_proxies_latency (fun _ => None)
      (fun i _ _ => match i with O => Connected 50 | _ => Connected 10 end)
      [1%nat; 0%nat] [node "a"; node "b"].
Proof.
  destruct (test_proxies_latency_no_ties (fun _ => None)
              (fun i _ _ => match i with
                            | O => Connected 50
                            | _ => Connected 10
                            end)
              [0%nat; 1%nat] [1%nat; 0%nat] [node "a"; node "b"]
              [(node "a", Some 500); (node "b", Some 100)])
    as (ranked & _ & _ & Hrun & Hrun').
  - repeat constructor; vm_compute; eauto.
  - vm_compute. reflexivity.
  - reflexivity.
  - apply perm_swap.
  - apply (bool_decide_unpack _). vm_compute. reflexivity.
  - rewrite Hrun, Hrun'. reflexivity.
Defined.

(** ** The Classifier: partition and errors *)

Lemma od_append_concat (k : pystr) (x : value) (d : region_dict) :
  Permutation (concat (map snd (od_append k x d)))
    (x :: concat (map snd d)).
Proof.
  induction d as [|[k' xs] d IH]; simpl.
  - reflexivity.
  - destruct (decide (k' = k)); simpl.
    + rewrite <- app_assoc. simpl.
      rewrite <- Permutation_middle. reflexivity.
    + rewrite IH. rewrite <- Permutation_middle. reflexivity.
Qed.

Lemma classify_fold_concat (catalog : list (regex * pystr))
  (proxies : list proxy) (d : region_dict) :
  Permutation
    (concat (map snd (fold_left (classify_fold catalog) proxies d)))
    (concat (map snd d)
     ++ map VStr
          (List.filter (fun s => bool_decide (is_Some (label_for catalog s)))
             (names_of proxies))).
Proof.
  revert d. induction proxies as [|p ps IH]; intros d.
  - simpl. rewrite app_nil_r. reflexivity.
  - cbn [fold_left]. rewrite IH. unfold names_of. cbn [omap list_omap].
    unfold classify_fold. destruct (name_str p) as [s|]; [|reflexivity].
    cbn [List.filter].
    destruct (label_for catalog s) as [region_name|].
    + rewrite bool_decide_eq_true_2 by eauto. rewrite od_append_concat.
      simpl. rewrite <- Permutation_middle. reflexivity.
    + rewrite bool_decide_eq_false_2 by (intros [? ?]; discriminate).
      reflexivity.
Qed.

Lemma filter_length_le {A} (f : A -> bool) (l : list A) :
  (length (List.filter f l) <= length l)%nat.
Proof.
  induction l as [|x l IH]; simpl; [lia|]. destruct (f x); simpl; lia.
Qed.

Lemma names_of_length (proxies : list proxy) :
  Forall named proxies -> length (names_of proxies) = length proxies.
Proof.
  unfold names_of. induction 1 as [|p ps [s Hs] _ IH]; [reflexivity|].
  cbn [omap list_omap]. rewrite Hs. cbn [length]. f_equal. exact IH.
Qed.

(** X12. The groups of a classification share out the nodes that match some
    pattern: taken together, their members are exactly the names with a
    label, each as often as it occurs, so the members never outnumber the
    nodes. *)
Theorem classify_partition (catalog : list (regex * pystr))
  (proxies : list proxy) :
  Forall named proxies ->
  exists groups,
    classify_with catalog proxies = Ok groups
    /\ Permutation (concat (map snd groups))
         (map VStr
            (List.filter
               (fun s => bool_decide (is_Some (label_for catalog s)))
               (names_of proxies)))
    /\ (length (concat (map snd groups)) <= length proxies)%nat.
Proof.
  intros Hn. eexists. split; [apply classify_with_named, Hn|].
  pose proof (classify_fold_concat catalog proxies []) as Hperm.
  simpl in Hperm. split; [exact Hperm|].
  rewrite (Permutation_length Hperm), length_map.
  rewrite <- (names_of_length proxies Hn). apply filter_length_le.
Qed.

Lemma classify_partition_witness :
  exists groups,
    classify_with REGION_MAP [node "US-1"; node "Relay"; node "JP-1"]
    = Ok groups
    /\ length (concat (map snd groups)) = 2%nat.
Proof.
  destruct (classify_partition REGION_MAP
              [node "US-1"; node "Relay"; node "JP-1"])
    as (groups & Hrun & Hperm & _).
  - repeat constructor; vm_compute; eauto.
  - exists groups. split; [exact Hrun|].
    rewrite (Permutation_length Hperm). vm_compute. reflexivity.
Defined.

(** X13. A node without a [name] makes the Classifier, and with it the
    Assembler, raise [KeyError]; nothing is returned. *)
Theorem classify_missing_name (catalog : list (regex * pystr))
  (now : pystr) (proxies : list proxy) :
  Forall (fun p => p !! k_name = None \/ named p) proxies ->
  Exists (fun p => p !! k_name = None) proxies ->
  classify_with catalog proxies = Raise KeyError
  /\ build_config now proxies = Raise KeyError.
Proof.
  intros Hall Hex. rewrite List.Forall_forall in Hall.
  assert (Hsub : forall {St} (body : St -> proxy -> result St) (s : St),
            (forall s p, p !! k_name = None -> body s p = Raise KeyError) ->
            (forall s p, named p -> exists s', body s p = Ok s') ->
            for_each body proxies s = Raise KeyError).
  { intros St body s Hbad Hgood. revert s.
    induction proxies as [|p ps IH]; intros s; [inversion Hex|].
    cbn [for_each]. destruct (Hall p (or_introl eq_refl)) as [Hp|Hp].
    - rewrite (Hbad s p Hp). reflexivity.
    - destruct (Hgood s p Hp) as [s' ->]. apply IH.
      + intros q Hq. apply Hall. right. exact Hq.
      + inversion Hex as [? ? Hnone|]; [|assumption]. subst.
        destruct (named_item p Hp) as (x & Hx & _). congruence. }
  split.
  - unfold classify_with. apply Hsub.
    + intros d p Hp. unfold classify_step, dict_item. rewrite Hp. reflexivity.
    + intros d p Hp. destruct (named_item p Hp) as (s & Hs & _).
      unfold classify_step, dict_item. rewrite Hs, bind_Ok, first_match_label.
      rewrite bind_Ok. destruct (label_for catalog s); eauto.
  - unfold build_config. rewrite Hsub; [reflexivity| |].
    + intros acc p Hp. unfold dict_item. rewrite Hp. reflexivity.
    + intros acc p Hp. destruct (named_item p Hp) as (s & Hs & _).
      unfold dict_item. rewrite Hs. eauto.
Qed.

Lemma classify_missing_name_witness :
  classify_with REGION_MAP [node "JP-1"; delete k_name (node "x")]
  = Raise KeyError.
Proof.
  apply (classify_missing_name REGION_MAP []
           [node "JP-1"; delete k_name (node "x")]).
  - constructor; [right; vm_compute; eauto|].
    constructor; [left; vm_compute; reflexivity | constructor].
  - right. left. vm_compute. reflexivity.
Defined.

(** ** The latency tag and the regions *)

Lemma starts_false (alt : list atom) (c : N) (t : pystr) :
  starts alt c = false -> match_here alt (c :: t) = false.
Proof.
  destruct alt as [|[a|] alt]; simpl; try discriminate.
  intros ->. reflexivity.
Qed.

Lemma starts2_false (alt : list atom) (c c2 : N) (t : pystr) :
  starts2 alt c c2 = false -> match_here alt (c :: c2 :: t) = false.
Proof.
  destruct alt as [|[a|] [|[b|] alt]]; simpl; try discriminate.
  intros H. apply andb_false_iff in H as [->| ->]; [reflexivity|].
  apply andb_false_r.
Qed.

Lemma no_start_search (r : regex) (c : N) (t : pystr) :
  no_start r c = true -> search_str r (c :: t) = search_str r t.
Proof.
  intros H. cbn [search_str].
  replace (match_at r (c :: t)) with false; [reflexivity|].
  symmetry. unfold match_at, no_start in *.
  induction r as [|alt r IH]; [reflexivity|]. simpl in *.
  apply andb_true_iff in H as [Halt Hr]. apply negb_true_iff in Halt.
  rewrite (starts_false alt c t Halt). apply IH, Hr.
Qed.

Lemma no_start2_search (r : regex) (c c2 : N) (t : pystr) :
  no_start2 r c c2 = true ->
  search_str r (c :: c2 :: t) = search_str r (c2 :: t).
Proof.
  intros H. cbn [search_str].
  replace (match_at r (c :: c2 :: t)) with false; [reflexivity|].
  symmetry. unfold match_at, no_start2 in *.
  induction r as [|alt r IH]; [reflexivity|]. simpl in *.
  apply andb_true_iff in H as [Halt Hr]. apply negb_true_iff in Halt.
  rewrite (starts2_false alt c c2 t Halt). apply IH, Hr.
Qed.

Lemma no_start_skip (r : regex) (d t : pystr) :
  Forall (fun c => no_start r c = true) d ->
  search_str r (d ++ t) = search_str r t.
Proof.
  induction 1 as [|c d Hc _ IH]; [reflexivity|].
  simpl app. rewrite (no_start_search r c _ Hc). exact IH.
Qed.

Lemma uint_digits_tag_chars (d : Decimal.uint) :
  Forall (fun c => In c tag_chars) (uint_digits d).
Proof.
  induction d; simpl; constructor; try exact IHd; unfold tag_chars;
    simpl; tauto.
Qed.

Lemma str_of_int_tag_chars (z : Z) :
  Forall (fun c => In c tag_chars) (str_of_int z).
Proof.
  destruct z; simpl.
  - constructor; [unfold tag_chars; simpl; tauto | constructor].
  - apply uint_digits_tag_chars.
  - constructor; [unfold tag_chars; simpl; tauto|].
    apply uint_digits_tag_chars.
Qed.

(** No pattern of the catalog can begin a match inside a latency tag. *)
Lemma catalog_rejects_tag :
  forallb
    (fun entry : regex * pystr =>
       forallb (no_start entry.1) tag_chars && no_start2 entry.1 115 93)
    REGION_MAP
  = true.
Proof. vm_compute. reflexivity. Qed.

Lemma tag_text_search (r : regex) (latency : Z) (s : pystr) :
  forallb (no_start r) tag_chars = true ->
  no_start2 r 115 93 = true ->
  search_str r (tag_text latency s) = search_str r s.
Proof.
  intros Hchars Hs. rewrite forallb_forall in Hchars.
  assert (Hc : forall c, In c tag_chars -> no_start r c = true)
    by exact Hchars.
  unfold tag_text.
  change (u "[") with [91%N]. change (u "ms] ") with [109; 115; 93; 32]%N.
  cbn [app].
  rewrite (no_start_search r 91) by (apply Hc; unfold tag_chars; simpl; tauto).
  rewrite no_start_skip.
  - cbn [app].
    rewrite (no_start_search r 109)
      by (apply Hc; unfold tag_chars; simpl; tauto).
    rewrite (no_start2_search r 115 93) by exact Hs.
    rewrite (no_start_search r 93)
      by (apply Hc; unfold tag_chars; simpl; tauto).
    rewrite (no_start_search r 32)
      by (apply Hc; unfold tag_chars; simpl; tauto).
    reflexivity.
  - eapply Forall_impl; [apply str_of_int_tag_chars|]. exact Hc.
Qed.

Lemma find_ext_in {A} (f g : A -> bool) (l : list A) :
  (forall x, In x l -> f x = g x) -> List.find f l = List.find g l.
Proof.
  induction l as [|x l IH]; intros H; simpl; [reflexivity|].
  rewrite <- (H x) by (left; reflexivity).
  destruct (f x); [reflexivity|]. apply IH. intros y Hy. apply H. right.
  exact Hy.
Qed.

Lemma tag_text_label (latency : Z) (s : pystr) :
  label_for REGION_MAP (tag_text latency s) = label_for REGION_MAP s.
Proof.
  unfold label_for. f_equal. apply find_ext_in. intros entry Hin.
  pose proof catalog_rejects_tag as Hall. rewrite forallb_forall in Hall.
  specialize (Hall entry Hin). apply andb_true_iff in Hall as [Hchars Hs].
  apply tag_text_search; assumption.
Qed.

(** X14. The latency tag that the Prober puts before a name never changes the
    region of the node: the tagged name gets the label of the name. *)
Theorem tagged_keeps_region (p : proxy) (latency : Z) (s : pystr) :
  name_str p = Some s ->
  name_str (tagged (p, latency)) = Some (tag_text latency s)
  /\ label_for REGION_MAP (tag_text latency s) = label_for REGION_MAP s.
Proof.
  intros Hs. split; [|apply tag_text_label].
  unfold name_str in Hs. unfold tagged, name_str. simpl.
  destruct (p !! k_name) as [[| | | |x|]|]; try discriminate.
  injection Hs as ->. rewrite lookup_insert_eq. reflexivity.
Qed.

Lemma tagged_keeps_region_witness :
  label_for REGION_MAP (tag_text 1234 (u "Singapore-3"))
  = Some (u "🇸🇬 新加坡").
Proof.
  destruct (tagged_keeps_region (node "Singapore-3") 1234 (u "Singapore-3"))
    as [_ Hlabel].
  - vm_compute. reflexivity.
  - rewrite Hlabel. vm_compute. reflexivity.
Defined.

(** ** The Assembler: the shape of the configuration *)

Lemma build_config_ok (now : pystr) (proxies : list proxy) :
  Forall named proxies ->
  exists region_groups,
    classified REGION_MAP (names_of proxies) region_groups
    /\ build_config now proxies
       = Ok ({| cfg_proxies := proxies;
                cfg_proxy_groups :=
                  leading_groups (map VStr (names_of proxies)) region_groups
                  ++ map (region_group region_groups) ALL_REGION_NAMES;
                cfg_rules := build_rules |}, now).
Proof.
  intros Hn.
  destruct (classify_with_classified REGION_MAP proxies Hn)
    as (region_groups & Hrun & Hcl).
  exists region_groups. split; [exact Hcl|].
  unfold build_config, classify_by_region.
  rewrite (all_names_named proxies [] Hn), bind_Ok, Hrun, bind_Ok.
  rewrite region_group_fold. reflexivity.
Qed.

Lemma group_names_of (all_names : list value) (region_groups : region_dict) :
  map g_name
    (leading_groups all_names region_groups
     ++ map (region_group region_groups) ALL_REGION_NAMES)
  = group_names.
Proof. rewrite map_app, map_map. reflexivity. Qed.

Lemma group_names_NoDup : NoDup group_names.
Proof. apply (bool_decide_unpack _). vm_compute. reflexivity. Qed.

(** X15. Every configuration has the same twenty-two groups, and no two of
    them share a name. *)
Theorem build_config_group_names (now : pystr) (proxies : list proxy) :
  Forall named proxies ->
  exists cfg,
    build_config now proxies = Ok (cfg, now)
    /\ map g_name (cfg_proxy_groups cfg) = group_names
    /\ NoDup (map g_name (cfg_proxy_groups cfg))
    /\ length (cfg_proxy_groups cfg) = 22%nat.
Proof.
  intros Hn. destruct (build_config_ok now proxies Hn) as (rg & _ & Hrun).
  eexists. split; [exact Hrun|]. cbn [cfg_proxy_groups].
  pose proof (group_names_of (map VStr (names_of proxies)) rg) as Hnames.
  split; [exact Hnames|]. split; [rewrite Hnames; apply group_names_NoDup|].
  rewrite <- (length_map g_name), Hnames. reflexivity.
Qed.

Lemma build_config_group_names_witness :
  exists cfg,
    build_config [] [node "JP-1"] = Ok (cfg, [])
    /\ length (cfg_proxy_groups cfg) = 22%nat.
Proof.
  destruct (build_config_group_names [] [node "JP-1"])
    as (cfg & Hrun & _ & _ & Hlen).
  - repeat constructor; vm_compute; eauto.
  - exists cfg. split; assumption.
Defined.

Lemma names_of_elem (proxies : list proxy) (s : pystr) :
  In s (names_of proxies) ->
  exists p, In p proxies /\ p !! k_name = Some (VStr s).
Proof.
  unfold names_of. rewrite <- list_elem_of_In, list_elem_of_omap.
  intros (p & Hp & Hs). exists p. split; [apply list_elem_of_In, Hp|].
  unfold name_str in Hs.
  destruct (p !! k_name) as [[| | | |x|]|]; try discriminate.
  injection Hs as ->. reflexivity.
Qed.

Lemma region_group_members (proxies : list proxy) (rg : region_dict)
  (label : pystr) (m : value) :
  classified REGION_MAP (names_of proxies) rg ->
  In m (g_proxies (region_group rg label)) ->
  m = VStr (u "REJECT")
  \/ exists p, In p proxies /\ p !! k_name = Some m.
Proof.
  intros [_ _ Hget _]. unfold region_group. cbn [select_group g_proxies].
  destruct (od_mem label rg).
  - rewrite Hget, in_map_iff. intros (s & <- & Hs).
    apply filter_In in Hs as [Hs _]. right. apply names_of_elem, Hs.
  - intros [<-|[]]. left. reflexivity.
Qed.

Lemma region_group_nonempty (names : list pystr) (rg : region_dict)
  (label : pystr) :
  classified REGION_MAP names rg ->
  g_proxies (region_group rg label) <> [].
Proof.
  intros [_ _ _ Hmem]. unfold region_group. cbn [select_group g_proxies].
  destruct (od_mem label rg) eqn:Hl; [apply Hmem, Hl | discriminate].
Qed.

(** X16. When there is at least one node, no group of the configuration is
    empty. *)
Theorem build_config_groups_nonempty (now : pystr) (proxies : list proxy) :
  Forall named proxies ->
  proxies <> [] ->
  exists cfg,
    build_config now proxies = Ok (cfg, now)
    /\ Forall (fun g => g_proxies g <> []) (cfg_proxy_groups cfg).
Proof.
  intros Hn Hne. destruct (build_config_ok now proxies Hn) as (rg & Hcl & Hrun).
  eexists. split; [exact Hrun|]. cbn [cfg_proxy_groups].
  assert (Hall : map VStr (names_of proxies) <> []).
  { intros H. apply (f_equal (@length value)) in H.
    rewrite length_map, (names_of_length proxies Hn) in H.
    destruct proxies; [congruence | discriminate]. }
  apply Forall_app. split.
  - unfold leading_groups.
    repeat (constructor; [cbn [g_proxies select_group];
                          try discriminate; try exact Hall|]).
    + destruct (List.filter _ ALL_REGION_NAMES); discriminate.
    + constructor.
  - apply List.Forall_forall. intros g Hg.
    apply in_map_iff in Hg as (label & <- & _).
    apply (region_group_nonempty _ _ _ Hcl).
Qed.

Lemma build_config_groups_nonempty_witness :
  exists cfg,
    build_config [] [node "Relay"] = Ok (cfg, [])
    /\ Forall (fun g => g_proxies g <> []) (cfg_proxy_groups cfg).
Proof.
  apply (build_config_groups_nonempty [] [node "Relay"]).
  - repeat constructor; vm_compute; eauto.
  - discriminate.
Defined.

Lemma known_const_sound (cfg : config) (m : value) :
  map g_name (cfg_proxy_groups cfg) = group_names ->
  known_const m = true -> known_member cfg m.
Proof.
  intros Hnames. destruct m as [| | | |s|]; try discriminate.
  cbn [known_const]. intros H. apply bool_decide_eq_true in H.
  apply list_elem_of_In in H.
  destruct H as [<-|[<-|H]]; [left; reflexivity | right; left; reflexivity|].
  right. right. left. rewrite app_nil_l in H. rewrite <- Hnames in H.
  apply in_map_iff in H as (g & <- & Hg). exists g. split; [exact Hg|reflexivity].
Qed.

Lemma leading_literals_known :
  forallb (fun g => forallb known_const (g_proxies g))
    (leading_groups [] [])
  = true.
Proof. vm_compute. reflexivity. Qed.

Lemma labels_known :
  forallb (fun label => known_const (VStr label)) ALL_REGION_NAMES = true.
Proof. vm_compute. reflexivity. Qed.

Lemma leading_group_members (cfg : config) (all_names : list value)
  (rg : region_dict) (g : group) (m : value) :
  map g_name (cfg_proxy_groups cfg) = group_names ->
  In g (leading_groups all_names rg) -> In m (g_proxies g) ->
  In m all_names \/ known_member cfg m.
Proof.
  intros Hnames Hg Hm.
  pose proof leading_literals_known as Hlit.
  unfold leading_groups in Hg, Hlit. cbn [forallb] in Hlit.
  cbn [In] in Hg.
  repeat (apply andb_true_iff in Hlit as [?Hlit0 Hlit]).
  repeat (destruct Hg as [<-|Hg]); try destruct Hg;
    cbn [g_proxies select_group] in Hm;
    try (left; exact Hm);
    try (right; apply (known_const_sound cfg m Hnames);
         match goal with
         | H : forallb known_const ?l = true |- _ =>
           cbn [g_proxies select_group] in H;
           rewrite forallb_forall in H; apply H; exact Hm
         end).
  right. apply (known_const_sound cfg m Hnames).
  destruct (List.filter (fun r => od_mem r rg) ALL_REGION_NAMES)
    as [|l ls] eqn:Hactive.
  - destruct Hm as [<-|[]]. vm_compute. reflexivity.
  - rewrite <- Hactive in Hm. apply in_map_iff in Hm as (label & <- & Hl).
    apply filter_In in Hl as [Hl _].
    pose proof labels_known as Hk. rewrite forallb_forall in Hk.
    apply Hk, Hl.
Qed.

(** X17. Every member of every group of a configuration refers to something
    that exists: [DIRECT], [REJECT], a group of the configuration, or a
    node of the configuration. *)
Theorem build_config_members_known (now : pystr) (proxies : list proxy) :
  Forall named proxies ->
  exists cfg,
    build_config now proxies = Ok (cfg, now)
    /\ forall g m,
         In g (cfg_proxy_groups cfg) -> In m (g_proxies g) ->
         known_member cfg m.
Proof.
  intros Hn. destruct (build_config_ok now proxies Hn) as (rg & Hcl & Hrun).
  eexists. split; [exact Hrun|].
  set (cfg := {| cfg_proxies := proxies;
                 cfg_proxy_groups := _; cfg_rules := _ |}).
  assert (Hnames : map g_name (cfg_proxy_groups cfg) = group_names)
    by apply group_names_of.
  assert (Hnode : forall m, (exists p, In p proxies /\ p !! k_name = Some m)
                            -> known_member cfg m).
  { intros m H. right. right. right. exact H. }
  intros g m Hg Hm. cbn [cfg cfg_proxy_groups] in Hg.
  apply in_app_or in Hg as [Hg|Hg].
  - destruct (leading_group_members cfg _ _ g m Hnames Hg Hm) as [Hall|Hk];
      [|exact Hk].
    apply in_map_iff in Hall as (s & <- & Hs).
    apply Hnode, names_of_elem, Hs.
  - apply in_map_iff in Hg as (label & <- & _).
    destruct (region_group_members proxies rg label m Hcl Hm) as [->|Hp].
    + right. left. reflexivity.
    + apply Hnode, Hp.
Qed.

Lemma build_config_members_known_witness :
  exists cfg,
    build_config [] [node "JP-1"; node "Relay"] = Ok (cfg, [])
    /\ forall g m,
         In g (cfg_proxy_groups cfg) -> In m (g_proxies g) ->
         known_member cfg m.
Proof.
  apply (build_config_members_known [] [node "JP-1"; node "Relay"]).
  repeat constructor; vm_compute; eauto.
Defined.

Lemma populated_mem (names : list pystr) (rg : region_dict) (label : pystr) :
  classified REGION_MAP names rg ->
  od_mem label rg
  = existsb (fun s => bool_decide (label_for REGION_MAP s = Some label)) names.
Proof.
  intros [_ _ Hget Hmem].
  destruct (existsb _ names) eqn:Hex.
  - apply Hmem. rewrite Hget. apply existsb_exists in Hex as (s & Hs & Hl).
    intros Hnil. apply (f_equal (@length value)) in Hnil.
    rewrite length_map in Hnil.
    assert (Hin : In s (List.filter
              (fun s => bool_decide (label_for REGION_MAP s = Some label))
              names)) by (apply filter_In; split; assumption).
    destruct (List.filter _ names); [destruct Hin | discriminate].
  - destruct (od_mem label rg) eqn:Hl; [|reflexivity].
    apply Hmem in Hl. rewrite Hget in Hl. exfalso. apply Hl.
    destruct (List.filter _ names) as [|s l] eqn:Hf; [reflexivity|].
    assert (Hin : In s (List.filter
              (fun s => bool_decide (label_for REGION_MAP s = Some label))
              names)) by (rewrite Hf; left; reflexivity).
    apply filter_In in Hin as [Hin Hs].
    assert (existsb
              (fun s => bool_decide (label_for REGION_MAP s = Some label))
              names = true)
      by (apply existsb_exists; exists s; split; assumption).
    congruence.
Qed.

Lemma filter_ext_in' {A} (f g : A -> bool) (l : list A) :
  (forall x, f x = g x) -> List.filter f l = List.filter g l.
Proof.
  intros H. induction l as [|x l IH]; simpl; [reflexivity|].
  rewrite H, IH. reflexivity.
Qed.

(** X18. The group that selects a region, the tenth of every configuration,
    lists in the order of the catalog exactly the labels under which some
    node falls, and [REJECT] alone when there is none. *)
Theorem build_config_region_selector (now : pystr) (proxies : list proxy) :
  Forall named proxies ->
  exists cfg g,
    build_config now proxies = Ok (cfg, now)
    /\ cfg_proxy_groups cfg !! 9%nat = Some g
    /\ g_name g = u "🗺️ 选择地区"
    /\ g_proxies g
       = match populated (names_of proxies) with
         | [] => [VStr (u "REJECT")]
         | labels => map VStr labels
         end.
Proof.
  intros Hn. destruct (build_config_ok now proxies Hn) as (rg & Hcl & Hrun).
  eexists. eexists. split; [exact Hrun|]. cbn [cfg_proxy_groups].
  split; [reflexivity|]. split; [reflexivity|].
  cbn [g_proxies select_group]. unfold populated.
  rewrite (filter_ext_in' _ _ ALL_REGION_NAMES
             (fun label => populated_mem (names_of proxies) rg label Hcl)).
  destruct (List.filter _ ALL_REGION_NAMES); reflexivity.
Qed.

Lemma build_config_region_selector_witness :
  exists cfg g,
    build_config [] [node "US-1"; node "JP-1"] = Ok (cfg, [])
    /\ cfg_proxy_groups cfg !! 9%nat = Some g
    /\ g_proxies g = [VStr (u "🇯🇵 日本"); VStr (u "🇺🇸 美国")].
Proof.
  destruct (build_config_region_selector [] [node "US-1"; node "JP-1"])
    as (cfg & g & Hrun & Hg & _ & Hmembers).
  - repeat constructor; vm_compute; eauto.
  - exists cfg, g. split; [exact Hrun|]. split; [exact Hg|].
    rewrite Hmembers. vm_compute. reflexivity.
Defined.

Lemma rules_targets_known :
  forallb (fun rule => known_const (VStr (rule_target rule))) build_rules
  = true.
Proof. vm_compute. reflexivity. Qed.

(** X19. Every rule of a configuration sends its traffic to [DIRECT], to
    [REJECT] or to a group of that configuration, and the last rule is
    the catch-all [MATCH]. *)
Theorem build_config_rules_resolve (now : pystr) (proxies : list proxy) :
  Forall named proxies ->
  exists cfg,
    build_config now proxies = Ok (cfg, now)
    /\ (forall rule, In rule (cfg_rules cfg) ->
                     known_member cfg (VStr (rule_target rule)))
    /\ last (cfg_rules cfg) = Some (u "MATCH,🐟 漏网之鱼").
Proof.
  intros Hn. destruct (build_config_ok now proxies Hn) as (rg & _ & Hrun).
  eexists. split; [exact Hrun|]. split; [|vm_compute; reflexivity].
  intros rule Hrule. apply known_const_sound; [apply group_names_of|].
  pose proof rules_targets_known as Hk. rewrite forallb_forall in Hk.
  apply Hk, Hrule.
Qed.

Lemma build_config_rules_resolve_witness :
  exists cfg,
    build_config [] [node "JP-1"] = Ok (cfg, [])
    /\ known_member cfg (VStr (rule_target (u "GEOIP,CN,❓ 疑似国内"))).
Proof.
  destruct (build_config_rules_resolve [] [node "JP-1"])
    as (cfg & Hrun & Hrules & _).
  - repeat constructor; vm_compute; eauto.
  - exists cfg. split; [exact Hrun|]. apply Hrules.
    assert (Hc : cfg_rules cfg = build_rules).
    { assert (H : exists c, build_config [] [node "JP-1"] = Ok (c, [])
                            /\ cfg_rules c = build_rules)
        by (eexists; split; vm_compute; reflexivity).
      destruct H as (c & Hc & Hr). rewrite Hc in Hrun.
      injection Hrun as <-. exact Hr. }
    rewrite Hc. apply list_elem_of_In. apply (bool_decide_unpack _).
    vm_compute. reflexivity.
Defined.

(** ** The driver: how a run can end *)

Lemma tag_loop_named (alive : list (proxy * Z)) (acc out : list proxy) :
  Forall named acc ->
  for_each tag_step alive acc = Ok out ->
  Forall named out.
Proof.
  revert acc. induction alive as [|x l IH]; intros acc Hacc; cbn [for_each].
  - intros [= <-]. exact Hacc.
  - unfold tag_step at 1. destruct (dict_item k_name x.1) as [old|e];
      [|discriminate].
    rewrite bind_Ok. apply IH. apply Forall_app. split; [exact Hacc|].
    repeat constructor. apply named_insert.
Qed.

Lemma test_proxies_latency_named (int_of_str : pystr -> option Z)
  (net : nat -> value -> Z -> conn_outcome) (completion : list nat)
  (proxies out : list proxy) :
  test_proxies_latency int_of_str net completion proxies = Ok out ->
  Forall named out.
Proof.
  unfold test_proxies_latency.
  destruct (ranked_alive int_of_str net completion proxies) as [alive|e];
    [|discriminate].
  rewrite bind_Ok. apply tag_loop_named. constructor.
Qed.

Lemma test_proxies_latency_nil (int_of_str : pystr -> option Z)
  (net : nat -> value -> Z -> conn_outcome) (completion : list nat) :
  test_proxies_latency int_of_str net completion [] = Ok [].
Proof.
  unfold test_proxies_latency, ranked_alive, as_completed.
  assert (H : omap (fun i => (@nil (result (proxy * option Z))) !! i)
                completion = []).
  { induction completion as [|i c IH]; [reflexivity|].
    cbn [omap list_omap]. rewrite lookup_nil. exact IH. }
  cbn [imap]. rewrite H. reflexivity.
Qed.


(** ** Gathering the nodes *)

Lemma fetch_content_cases (get : nat -> option pystr) (url : pystr) :
  fetch_content get url
  = match get 1%nat, get 2%nat with
    | Some text, _ => (Some text, [Request url])
    | None, Some text =>
        (Some text, [Request url; Sleep 2; Request url])
    | None, None => (None, [Request url; Sleep 2; Request url])
    end.
Proof.
  unfold fetch_content. simpl.
  destruct (get 1%nat); [reflexivity|]. destruct (get 2%nat); reflexivity.
Qed.

(** X21. [fetch_content] makes its requests one after the other, with a wait
    of two seconds between two of them and none after the last, until one
    succeeds or [MAX_RETRIES] have failed: the number of requests is the
    number of the first attempt that succeeds, or [MAX_RETRIES] when none
    does, and what is returned is the answer to the last request made. *)
Theorem fetch_content_retries (get : nat -> option pystr) (url : pystr) :
  let r := fetch_content get url in
  (forall text,
     r.1 = Some text
     <-> exists attempt,
           (1 <= attempt <= MAX_RETRIES)%nat /\ get attempt = Some text
           /\ forall earlier, (1 <= earlier < attempt)%nat ->
                              get earlier = None)
  /\ exists attempts,
       (1 <= attempts <= MAX_RETRIES)%nat
       /\ (forall earlier, (1 <= earlier < attempts)%nat ->
                           get earlier = None)
       /\ (get attempts = None -> attempts = MAX_RETRIES)
       /\ r.1 = get attempts
       /\ r.2 = Request url
                :: concat (repeat [Sleep 2; Request url] (attempts - 1))
       /\ requests r.2 = attempts.
Proof.
  intros r. unfold r. rewrite fetch_content_cases. unfold MAX_RETRIES.
  split.
  - intros text. split.
    + destruct (get 1%nat) as [t1|] eqn:H1.
      * intros [= <-]. exists 1%nat. split; [lia|]. split; [exact H1|].
        intros k Hk. lia.
      * destruct (get 2%nat) as [t2|] eqn:H2; [|discriminate].
        intros [= <-]. exists 2%nat. split; [lia|]. split; [exact H2|].
        intros k Hk. assert (k = 1%nat) as -> by lia. exact H1.
    + intros (attempt & Hrange & Hget & Hearlier).
      assert (attempt = 1%nat \/ attempt = 2%nat) as [-> | ->] by lia.
      * rewrite Hget. reflexivity.
      * rewrite (Hearlier 1%nat) by lia. rewrite Hget. reflexivity.
  - destruct (get 1%nat) as [t1|] eqn:H1.
    + exists 1%nat. split; [lia|]. split; [intros k Hk; lia|].
      split; [rewrite H1; discriminate|]. rewrite H1.
      split; [reflexivity|]. split; reflexivity.
    + exists 2%nat. split; [lia|].
      split; [intros k Hk; assert (k = 1%nat) as -> by lia; exact H1|].
      split; [reflexivity|].
      destruct (get 2%nat) as [t2|]; (split; [reflexivity|]);
        split; reflexivity.
Qed.

Lemma fetch_content_events (get : nat -> option pystr) (url : pystr) :
  (1 <= requests (fetch_content get url).2 <= MAX_RETRIES)%nat
  /\ Forall (fun ev => ev = Request url \/ ev = Sleep 2)
       (fetch_content get url).2.
Proof.
  rewrite fetch_content_cases. unfold MAX_RETRIES.
  destruct (get 1%nat); [|destruct (get 2%nat)]; cbn;
    (split; [lia|]);
    repeat match goal with
           | |- Forall _ _ => constructor
           end; auto.
Qed.

(** One turn of the loop, by what is extracted from the link. *)
Lemma gather_step_spec (decode : pystr -> decoded)
  (http : nat -> nat -> option pystr) (i : nat) (st : gather_state)
  (url : pystr) :
  let r := gather_step decode (http i) st url in
  gs_events r.1 = gs_events st ++ (fetch_content (http i) url).2
  /\ gs_all_proxies r.1
     = gs_all_proxies st ++ contribution decode http i url
  /\ r.2 = match extracted decode http i url with
           | Some (Raise e) => Some e
           | _ => None
           end.
Proof.
  unfold gather_step, contribution, extracted.
  destruct (fetch_content (http i) url).1 as [content|]; cbn.
  - destruct (extract_proxies decode content) as [[|e l]|e]; cbn;
      rewrite ?app_nil_r; repeat split; reflexivity.
  - rewrite app_nil_r. repeat split; reflexivity.
Qed.

(** The loop when no link raises. *)
Lemma gather_loop_spec (decode : pystr -> decoded)
  (http : nat -> nat -> option pystr) (urls : list pystr) (i : nat)
  (st st' : gather_state) :
  gather_loop decode http i urls st = (st', None) ->
  gs_all_proxies st'
  = gs_all_proxies st ++ contributions decode http i urls
  /\ gs_events st' = gs_events st ++ traces http i urls
  /\ (forall k url e,
        urls !! k = Some url ->
        extracted decode http (i + k) url <> Some (Raise e)).
Proof.
  revert i st. induction urls as [|url urls IH]; intros i st.
  - intros [= <-]. cbn. rewrite !app_nil_r. repeat split.
    intros k url e Hk. discriminate.
  - cbn [gather_loop contributions traces].
    destruct (gather_step_spec decode http i st url) as (Hev & Hall & Hexn).
    destruct (gather_step decode (http i) st url) as [st1 [e|]];
      [discriminate|].
    cbn [fst snd] in *. intros Hloop.
    destruct (IH _ _ Hloop) as (Hall' & Hev' & Hno).
    rewrite Hall', Hall, Hev', Hev, <- !app_assoc.
    split; [reflexivity|]. split; [reflexivity|].
    intros [|k] url' e Hk.
    + injection Hk as <-. rewrite Nat.add_0_r. intros Heq.
      rewrite Heq in Hexn. discriminate.
    + replace (i + S k)%nat with (S i + k)%nat by lia.
      apply Hno. exact Hk.
Qed.

(** The loop when a link raises: it ends there, with the events up to and
    including that link. *)
Lemma gather_loop_raise (decode : pystr -> decoded)
  (http : nat -> nat -> option pystr) (urls : list pystr) (i k : nat)
  (url : pystr) (e : exn) (st : gather_state) :
  urls !! k = Some url ->
  extracted decode http (i + k) url = Some (Raise e) ->
  (forall j url' e',
     (j < k)%nat -> urls !! j = Some url' ->
     extracted decode http (i + j) url' <> Some (Raise e')) ->
  exists st',
    gather_loop decode http i urls st = (st', Some e)
    /\ gs_events st' = gs_events st ++ traces http i (take (S k) urls).
Proof.
  revert i k st. induction urls as [|url0 urls IH]; intros i k st;
    [discriminate|].
  cbn [gather_loop].
  destruct (gather_step_spec decode http i st url0) as (Hev & Hall & Hexn).
  destruct k as [|k].
  - intros [= ->] Hraise _. rewrite Nat.add_0_r in Hraise.
    rewrite Hraise in Hexn.
    destruct (gather_step decode (http i) st url) as [st1 o].
    cbn [fst snd] in *. subst o. exists st1. split; [reflexivity|].
    rewrite Hev. cbn. rewrite app_nil_r. reflexivity.
  - intros Hk Hraise Hbefore.
    assert (Hnone : (gather_step decode (http i) st url0).2 = None).
    { rewrite Hexn.
      destruct (extracted decode http i url0) as [[l|e0]|] eqn:Hx;
        try reflexivity.
      exfalso. apply (Hbefore 0%nat url0 e0); [lia | reflexivity|].
      rewrite Nat.add_0_r. exact Hx. }
    destruct (gather_step decode (http i) st url0) as [st1 o].
    cbn [fst snd] in Hnone, Hev, Hall. rewrite Hnone. clear Hexn Hnone.
    destruct (IH (S i) k st1) as (st' & Hloop & Hev').
    + exact Hk.
    + replace (S i + k)%nat with (i + S k)%nat by lia. exact Hraise.
    + intros j url' e' Hj Hu.
      replace (S i + j)%nat with (i + S j)%nat by lia.
      apply Hbefore; [lia | exact Hu].
    + exists st'. split; [exact Hloop|]. rewrite Hev', Hev.
      cbn [take traces]. rewrite <- app_assoc. reflexivity.
Qed.

Lemma read_urls_exit (file : addr_file) (code : Z) :
  read_urls file = Exit code -> code = 1.
Proof.
  destruct file as [| |[data|v]|e]; simpl;
    try (intros [= <-]; reflexivity); try discriminate.
  destruct (data !! u "urls") as [[raw|v]|]; intros [= <-]; reflexivity.
Qed.

(** X22. The links that [read_urls] returns all begin with [http], carry no
    white space around them, and are stripped [str] elements of the list
    under [urls], in the order of that list. *)
Theorem read_urls_links (file : addr_file) (urls : list pystr) :
  read_urls file = Return urls ->
  Forall (fun url => startswith url (u "http") = true /\ clean url) urls
  /\ exists data raw_urls,
       file = Parsed (DocDict data)
       /\ data !! u "urls" = Some (FList raw_urls)
       /\ sublist urls (strip <$> str_items raw_urls).
Proof.
  destruct file as [| |[data|v]|e]; simpl; try discriminate.
  destruct (data !! u "urls") as [[raw|v]|] eqn:Hd; try discriminate.
  intros [= <-]. split.
  - apply List.Forall_forall. intros url Hin.
    apply list_elem_of_In, list_elem_of_omap in Hin as (e & _ & He).
    unfold url_of in He. destruct e as [|[| | | |s|]]; try discriminate.
    destruct (startswith (strip s) (u "http")) eqn:Hs; [|discriminate].
    injection He as <-. split; [exact Hs | apply strip_clean].
  - exists data, raw. split; [reflexivity|]. split; [exact Hd|].
    clear Hd. unfold str_items. induction raw as [|e raw IH]; [constructor|].
    cbn [omap list_omap]. unfold url_of at 1.
    destruct e as [d|[| | | |s|]]; try exact IH.
    cbn [fmap list_fmap].
    destruct (startswith (strip s) (u "http"));
      [apply sublist_skip | apply sublist_cons]; exact IH.
Qed.

Lemma read_urls_links_witness :
  read_urls
    (Parsed (DocDict {[ u "urls" :=
       FList [EOther (VStr (u " https://a.example/sub "));
              EOther (VInt 3);
              EOther (VStr (u "ftp://b.example"))] ]}))
  = Return [u "https://a.example/sub"]
  /\ clean (u "https://a.example/sub").
Proof.
  assert (Hrun : read_urls
    (Parsed (DocDict {[ u "urls" :=
       FList [EOther (VStr (u " https://a.example/sub "));
              EOther (VInt 3);
              EOther (VStr (u "ftp://b.example"))] ]}))
    = Return [u "https://a.example/sub"]) by (vm_compute; reflexivity).
  split; [exact Hrun|].
  destruct (read_urls_links _ _ Hrun) as [Hall _].
  inversion Hall as [|? ? [_ Hclean] _]; subst. exact Hclean.
Defined.

(** X23. When steps 1 and 2 return, no text has made [yaml.safe_load] raise
    anything but a [yaml.YAMLError]; the gathered nodes are the nodes of
    the links in the order of the links, a link whose requests all fail
    or whose text yields no node adding nothing and stopping nothing; and
    what was done to the outside is, link after link in that order, what
    [fetch_content] did for the link: between one and [MAX_RETRIES]
    requests to that link, and waits.  When the text of a link makes
    [yaml.safe_load] raise another exception, and no earlier link did,
    the run ends with that exception after the requests for that link:
    nothing is written and no later link is requested. *)
Theorem gather_nodes (file : addr_file) (decode : pystr -> decoded)
  (http : nat -> nat -> option pystr) (urls : list pystr) :
  read_urls file = Return urls ->
  (forall st,
     gather file decode http = Return st ->
     urls <> []
     /\ (forall k url e,
           urls !! k = Some url ->
           extracted decode http (S k) url <> Some (Raise e))
     /\ gs_all_proxies st = contributions decode http 1 urls
     /\ gs_events st = traces http 1 urls)
  /\ (forall k url,
        urls !! k = Some url ->
        let evs := (fetch_content (http (S k)) url).2 in
        (1 <= requests evs <= MAX_RETRIES)%nat
        /\ Forall (fun ev => ev = Request url \/ ev = Sleep 2) evs)
  /\ (forall k url e,
        urls !! k = Some url ->
        extracted decode http (S k) url = Some (Raise e) ->
        (forall j url' e',
           (j < k)%nat -> urls !! j = Some url' ->
           extracted decode http (S j) url' <> Some (Raise e')) ->
        gather file decode http = Throw e
        /\ forall int_of_str net completion now w,
             main_script file decode http int_of_str net completion now w
             = (Uncaught e, w, traces http 1 (take (S k) urls))).
Proof.
  intros Hurls. split; [|split].
  - intros st. unfold gather. rewrite Hurls.
    destruct urls as [|url urls]; [discriminate|].
    destruct (gather_loop decode http 1 (url :: urls) gather_start)
      as [st' [e|]] eqn:Hloop; [discriminate|].
    intros [= <-]. split; [discriminate|].
    destruct (gather_loop_spec _ _ _ _ _ _ Hloop) as (Hall & Hev & Hno).
    split; [exact Hno|]. split; [exact Hall | exact Hev].
  - intros k url _. apply fetch_content_events.
  - intros k url e Hk Hraise Hbefore.
    destruct (gather_loop_raise decode http urls 1 k url e gather_start
                Hk Hraise Hbefore) as (st' & Hloop & Hev).
    assert (Hne : urls <> []) by (intros ->; discriminate).
    split.
    + unfold gather. rewrite Hurls. destruct urls; [congruence|].
      rewrite Hloop. reflexivity.
    + intros int_of_str net completion now w.
      unfold main_script. rewrite Hurls. destruct urls; [congruence|].
      rewrite Hloop, Hev. reflexivity.
Qed.

(** X24. Without a usable list of links the script exits with status 1 before
    any request is made, and writes nothing. *)
Theorem main_script_no_links (file : addr_file)
  (decode : pystr -> decoded) (http : nat -> nat -> option pystr)
  (int_of_str : pystr -> option Z)
  (net : nat -> value -> Z -> conn_outcome) (completion : list nat)
  (now : pystr) (w : world) :
  (exists code, read_urls file = Exit code) \/ read_urls file = Return [] ->
  main_script file decode http int_of_str net completion now w
  = (SysExit 1, w, []).
Proof.
  unfold main_script. intros [[code Hc]| ->]; [|reflexivity].
  rewrite Hc. rewrite (read_urls_exit file code Hc). reflexivity.
Qed.

Lemma fetch_content_retries_witness :
  (fetch_content (fun attempt => match attempt with
                                 | 2%nat => Some (u "proxies: []")
                                 | _ => None
                                 end) (u "https://a.example")).1
  = Some (u "proxies: []").
Proof.
  destruct (fetch_content_retries
              (fun attempt => match attempt with
                              | 2%nat => Some (u "proxies: []")
                              | _ => None
                              end) (u "https://a.example")) as [Hiff _].
  apply Hiff. exists 2%nat. split; [unfold MAX_RETRIES; lia|].
  split; [reflexivity|]. intros earlier Hk.
  assert (earlier = 1%nat) as -> by lia. reflexivity.
Defined.

Lemma gather_nodes_witness :
  main_script
    (Parsed (DocDict {[ u "urls" :=
       FList [EOther (VStr (u "https://a.example"));
              EOther (VStr (u "https://b.example"));
              EOther (VStr (u "https://c.example"))] ]}))
    (fun text => if bool_decide (text = u "day: 2024-13-45")
                 then DecodeRaise ValueError
                 else Document
                        (DocDict {[ u "proxies" :=
                                      FList [EDict (node "JP-1")] ]}))
    (fun i attempt => match i, attempt with
                      | 1%nat, _ => None
                      | 2%nat, 1%nat => None
                      | 2%nat, _ => Some (u "day: 2024-13-45")
                      | _, _ => Some (u "proxies: ...")
                      end)
    (fun _ => None) (fun _ _ _ => Connected 1) [0%nat] [] {| written := [] |}
  = (Uncaught ValueError, {| written := [] |},
     [Request (u "https://a.example"); Sleep 2;
      Request (u "https://a.example");
      Request (u "https://b.example"); Sleep 2;
      Request (u "https://b.example")]).
Proof.
  destruct (gather_nodes
    (Parsed (DocDict {[ u "urls" :=
       FList [EOther (VStr (u "https://a.example"));
              EOther (VStr (u "https://b.example"));
              EOther (VStr (u "https://c.example"))] ]}))
    (fun text => if bool_decide (text = u "day: 2024-13-45")
                 then DecodeRaise ValueError
                 else Document
                        (DocDict {[ u "proxies" :=
                                      FList [EDict (node "JP-1")] ]}))
    (fun i attempt => match i, attempt with
                      | 1%nat, _ => None
                      | 2%nat, 1%nat => None
                      | 2%nat, _ => Some (u "day: 2024-13-45")
                      | _, _ => Some (u "proxies: ...")
                      end)
    [u "https://a.example"; u "https://b.example"; u "https://c.example"])
    as (_ & _ & Hraise).
  - vm_compute. reflexivity.
  - destruct (Hraise 1%nat (u "https://b.example") ValueError) as [_ Hrun].
    + reflexivity.
    + vm_compute. reflexivity.
    + intros j url' e' Hj Hu. assert (j = 0%nat) as -> by lia.
      injection Hu as <-. vm_compute. discriminate.
    + rewrite Hrun. vm_compute. reflexivity.
Defined.

Lemma main_script_no_links_witness :
  main_script NoFile (fun _ => YAMLError) (fun _ _ => None) (fun _ => None)
    (fun _ _ _ => ConnError) [] [] {| written := [] |}
  = (SysExit 1, {| written := [] |}, []).
Proof.
  apply main_script_no_links. left. exists 1. reflexivity.
Defined.

(** ** Distinct names through the Prober *)

Lemma uint_digits_no_m (d : Decimal.uint) : ~ In 109%N (uint_digits d).
Proof.
  induction d; simpl; [tauto|..]; intros [H|H];
    try discriminate; tauto.
Qed.

Lemma str_of_int_no_m (z : Z) : ~ In 109%N (str_of_int z).
Proof.
  destruct z; simpl.
  - intros [H|[]]. discriminate.
  - apply uint_digits_no_m.
  - intros [H|H]; [discriminate|]. exact (uint_digits_no_m _ H).
Qed.

Lemma split_at_first (c : N) (a b x y : pystr) :
  ~ In c a -> ~ In c b ->
  a ++ c :: x = b ++ c :: y -> a = b /\ x = y.
Proof.
  revert b. induction a as [|h a IH]; intros [|k b] Ha Hb; simpl.
  - intros [= H]. split; [reflexivity | exact H].
  - intros [= <- _]. exfalso. apply Hb. left. reflexivity.
  - intros [= -> _]. exfalso. apply Ha. left. reflexivity.
  - intros [= -> H].
    destruct (IH b) as [-> ->]; try exact H.
    + intros Hin. apply Ha. right. exact Hin.
    + intros Hin. apply Hb. right. exact Hin.
    + split; reflexivity.
Qed.

Lemma tag_text_inj (l1 l2 : Z) (s1 s2 : pystr) :
  tag_text l1 s1 = tag_text l2 s2 -> s1 = s2.
Proof.
  unfold tag_text. change (u "[") with [91%N].
  change (u "ms] ") with [109; 115; 93; 32]%N. cbn [app].
  intros [= H].
  apply split_at_first in H as [_ H]; try apply str_of_int_no_m.
  injection H as H. exact H.
Qed.

Lemma probes_cons (int_of_str : pystr -> option Z)
  (net : nat -> value -> Z -> conn_outcome) (p : proxy)
  (proxies : list proxy) :
  probes int_of_str net (p :: proxies)
  = test_single_proxy int_of_str (net 0%nat) p
    :: probes int_of_str (fun i => net (S i)) proxies.
Proof. reflexivity. Qed.

Lemma probes_fst (int_of_str : pystr -> option Z)
  (net : nat -> value -> Z -> conn_outcome) (proxies : list proxy)
  (outs : list (proxy * option Z)) :
  probes int_of_str net proxies = Ok <$> outs -> map fst outs = proxies.
Proof.
  revert net outs. induction proxies as [|p ps IH]; intros net [|r outs];
    try discriminate; [reflexivity|].
  rewrite probes_cons. cbn [fmap list_fmap]. intros [= Hr Hrest]. simpl.
  rewrite (test_single_proxy_same _ _ _ _ Hr). f_equal.
  apply (IH _ _ Hrest).
Qed.

Lemma survivors_subset (outs : list (proxy * option Z)) (x : proxy * Z) :
  In x (survivors outs) -> In x.1 (map fst outs).
Proof.
  intros Hx. apply list_elem_of_In, survivors_elem, list_elem_of_In in Hx.
  apply in_map_iff. exists (x.1, Some x.2). split; [reflexivity | exact Hx].
Qed.

Lemma survivors_names_NoDup (outs : list (proxy * option Z)) :
  NoDup (map name_or_empty (map fst outs)) ->
  NoDup (map (fun x => name_or_empty x.1) (survivors outs)).
Proof.
  induction outs as [|[p [latency|]] outs IH]; simpl; intros Hnd.
  - constructor.
  - apply NoDup_cons in Hnd as [Hp Hnd]. constructor; [|apply IH, Hnd].
    intros Hin. apply Hp. apply list_elem_of_In in Hin.
    apply in_map_iff in Hin as (x & Hx & Hin). simpl in Hx.
    apply list_elem_of_In. rewrite <- Hx.
    apply in_map, survivors_subset, Hin.
  - apply NoDup_cons in Hnd as [_ Hnd]. apply IH, Hnd.
Qed.

Lemma NoDup_map_coarser {A B C} (f : A -> B) (g : A -> C) (l : list A) :
  (forall x y, g x = g y -> f x = f y) ->
  NoDup (map f l) -> NoDup (map g l).
Proof.
  intros Hfg. induction l as [|x l IH]; simpl; intros Hnd; [constructor|].
  apply NoDup_cons in Hnd as [Hx Hnd]. constructor; [|apply IH, Hnd].
  intros Hin. apply Hx. apply list_elem_of_In in Hin.
  apply in_map_iff in Hin as (y & Hy & Hin).
  apply list_elem_of_In. rewrite <- (Hfg y x Hy). apply in_map, Hin.
Qed.

Lemma names_of_named (proxies : list proxy) :
  Forall named proxies -> names_of proxies = map name_or_empty proxies.
Proof.
  unfold names_of. induction 1 as [|p ps [s Hs] _ IH]; [reflexivity|].
  cbn [omap list_omap map]. unfold name_or_empty at 1. rewrite Hs.
  simpl. f_equal. exact IH.
Qed.

Lemma tagged_name (x : proxy * Z) :
  named x.1 ->
  name_or_empty (tagged x) = tag_text x.2 (name_or_empty x.1).
Proof.
  intros Hx. destruct (named_item _ Hx) as (s & Hs & Hstr).
  unfold name_or_empty, tagged, name_str. rewrite Hs, lookup_insert_eq.
  reflexivity.
Qed.

Lemma prober_distinct (int_of_str : pystr -> option Z)
  (net : nat -> value -> Z -> conn_outcome) (completion : list nat)
  (proxies : list proxy) (outs : list (proxy * option Z)) :
  Forall named proxies ->
  probes int_of_str net proxies = Ok <$> outs ->
  Permutation completion (seq 0 (length proxies)) ->
  NoDup (names_of proxies) ->
  exists out,
    test_proxies_latency int_of_str net completion proxies = Ok out
    /\ NoDup (names_of out).
Proof.
  intros Hn Hp Hc Hnd.
  destruct (prober_run int_of_str net completion proxies outs Hn Hp)
    as (_ & Hrun & Hfrom).
  eexists. split; [exact Hrun|].
  pose proof (test_proxies_latency_named _ _ _ _ _ Hrun) as Hout.
  rewrite (names_of_named _ Hout), map_map.
  set (ranked := sort_by_latency (survivors (as_completed completion outs)))
    in *.
  assert (Hlen : length outs = length proxies)
    by (rewrite <- (length_fmap Ok outs), <- Hp; apply probes_length).
  assert (Hperm : Permutation ranked (survivors outs)).
  { unfold ranked. rewrite sort_by_latency_perm. unfold survivors.
    apply omap_Permutation, as_completed_perm. rewrite Hlen. exact Hc. }
  assert (Hbase : NoDup (map (fun x => name_or_empty x.1) ranked)).
  { rewrite (Permutation_map _ Hperm). apply survivors_names_NoDup.
    rewrite (probes_fst _ _ _ _ Hp), <- names_of_named by exact Hn.
    exact Hnd. }
  assert (Heq : map (fun x => name_or_empty (tagged x)) ranked
                = map (fun x => tag_text x.2 (name_or_empty x.1)) ranked).
  { apply map_ext_in. intros x Hx. apply tagged_name.
    rewrite List.Forall_forall in Hn. apply Hn, Hfrom, Hx. }
  rewrite Heq.
  apply (NoDup_map_coarser (fun x => name_or_empty x.1)); [|exact Hbase].
  intros x y Hxy. apply tag_text_inj in Hxy. exact Hxy.
Qed.

(** X11. When the nodes given to the Prober have pairwise distinct names, so
    have the nodes it returns. *)
Theorem test_proxies_latency_distinct (int_of_str : pystr -> option Z)
  (net : nat -> value -> Z -> conn_outcome) (completion : list nat)
  (proxies : list proxy) (outs : list (proxy * option Z)) :
  Forall named proxies ->
  probes int_of_str net proxies = Ok <$> outs ->
  Permutation completion (seq 0 (length proxies)) ->
  NoDup (names_of proxies) ->
  exists out,
    test_proxies_latency int_of_str net completion proxies = Ok out
    /\ NoDup (names_of out).
Proof. apply prober_distinct. Qed.

Lemma test_proxies_latency_distinct_witness :
  exists out,
    test_proxies_latency (fun _ => None) (fun _ _ _ => Connected 50)
      [1%nat; 0%nat] [node "a"; node "b"]
    = Ok out
    /\ NoDup (names_of out).
Proof.
  apply (test_proxies_latency_distinct _ _ _ _
           [(node "a", Some 500); (node "b", Some 500)]).
  - repeat constructor; vm_compute; eauto.
  - vm_compute. reflexivity.
  - apply perm_swap.
  - apply (bool_decide_unpack _). vm_compute. reflexivity.
Defined.

(** ** Distinct names through the whole pipeline *)

Lemma names_of_filter_In (f : proxy -> bool) (l : list proxy) (s : pystr) :
  In s (names_of (List.filter f l)) -> In s (names_of l).
Proof.
  unfold names_of. rewrite <- !list_elem_of_In, !list_elem_of_omap.
  intros (p & Hp & Hs). exists p. split; [|exact Hs].
  apply list_elem_of_In. apply list_elem_of_In, filter_In in Hp as [Hp _].
  exact Hp.
Qed.

Lemma names_of_filter_NoDup (f : proxy -> bool) (l : list proxy) :
  NoDup (names_of l) -> NoDup (names_of (List.filter f l)).
Proof.
  induction l as [|p l IH]; [intros _; constructor|].
  cbn [List.filter]. unfold names_of in *. cbn [omap list_omap].
  destruct (name_str p) as [s|] eqn:Hs.
  - intros Hnd. apply NoDup_cons in Hnd as [Hnotin Hnd].
    destruct (f p); [|apply IH, Hnd].
    cbn [omap list_omap]. rewrite Hs. constructor; [|apply IH, Hnd].
    intros Hin. apply Hnotin. apply list_elem_of_In.
    apply list_elem_of_In in Hin. apply (names_of_filter_In f l s Hin).
  - intros Hnd. destruct (f p); [|apply IH, Hnd].
    cbn [omap list_omap]. rewrite Hs. apply IH, Hnd.
Qed.

Lemma collect_loop_all_ok (futures : list (result (proxy * option Z)))
  (st st' : probe_state) :
  for_each collect_step futures st = Ok st' ->
  Forall (fun f => exists r, f = Ok r) futures.
Proof.
  revert st. induction futures as [|f l IH]; intros st; [constructor|].
  cbn [for_each]. destruct f as [r|e]; [|discriminate].
  destruct (collect_step st (Ok r)) as [st1|e] eqn:Hstep; [|discriminate].
  intros Hrest. constructor; [eauto | apply (IH _ Hrest)].
Qed.

Lemma all_ok_fmap {A} (l : list (result A)) :
  Forall (fun f => exists r, f = Ok r) l -> exists outs, l = Ok <$> outs.
Proof.
  induction 1 as [|f l [r ->] _ [outs ->]].
  - exists []. reflexivity.
  - exists (r :: outs). reflexivity.
Qed.

(** When the Prober returns and every probe has ended, no probe has
    raised. *)
Lemma prober_ok_probes (int_of_str : pystr -> option Z)
  (net : nat -> value -> Z -> conn_outcome) (completion : list nat)
  (proxies out : list proxy) :
  Permutation completion (seq 0 (length proxies)) ->
  test_proxies_latency int_of_str net completion proxies = Ok out ->
  exists outs, probes int_of_str net proxies = Ok <$> outs.
Proof.
  intros Hc. unfold test_proxies_latency, ranked_alive.
  fold (probes int_of_str net proxies).
  destruct (for_each collect_step _ _) as [st|e] eqn:Hloop; [|discriminate].
  intros _. apply collect_loop_all_ok in Hloop. apply all_ok_fmap.
  rewrite <- (as_completed_perm completion (probes int_of_str net proxies)).
  - exact Hloop.
  - rewrite probes_length. exact Hc.
Qed.

Lemma pipeline_distinct_values (int_of_str : pystr -> option Z)
  (net : nat -> value -> Z -> conn_outcome) (completion : list nat)
  (all_proxies : list entry) (filtered probed : list proxy) :
  (forall s t k,
     In s (base_names all_proxies) -> In t (base_names all_proxies) ->
     (1 <= k)%nat ->
     t <> s ++ u "_" ++ str_of_int (Z.of_nat k)) ->
  filter_blocked_regions (deduplicate_proxies all_proxies) = Ok filtered ->
  Permutation completion (seq 0 (length filtered)) ->
  test_proxies_latency int_of_str net completion filtered = Ok probed ->
  NoDup (names_of probed).
Proof.
  intros Hclash Hf Hc Hp.
  pose proof (deduplicate_proxies_named all_proxies) as Hn.
  rewrite (filter_blocked_regions_named _ Hn) in Hf. injection Hf as <-.
  set (keep := fun p => negb (name_matches BLOCKED_REGION_PATTERN p)) in *.
  destruct (prober_ok_probes _ _ _ _ _ Hc Hp) as [outs Houts].
  destruct (prober_distinct int_of_str net completion
              (List.filter keep (deduplicate_proxies all_proxies)) outs)
    as (out & Hrun & Hnd); try assumption.
  - apply filter_Forall, Hn.
  - apply names_of_filter_NoDup, dedup_distinct, Hclash.
  - rewrite Hrun in Hp. injection Hp as <-. exact Hnd.
Qed.

(** X25. From the gathered descriptors to the ranked nodes the names stay
    pairwise distinct: when no dict object is listed twice, no name that
    the Normalizer reads is another such name followed by [_] and a
    number from 1 on, and every future is yielded once, the objects that
    the Prober returns, which are the nodes of the written
    configuration, all have different names. *)
Theorem pipeline_names_distinct (int_of_str : pystr -> option Z)
  (net : nat -> value -> Z -> conn_outcome) (completion : list nat)
  (h h' : store) (all_proxies : list ref) (filtered probed : list nat) :
  NoDup (objects all_proxies) ->
  (forall s t k,
     In s (base_names (entry_of h <$> all_proxies)) ->
     In t (base_names (entry_of h <$> all_proxies)) ->
     (1 <= k)%nat ->
     t <> s ++ u "_" ++ str_of_int (Z.of_nat k)) ->
  let d := deduplicate_proxies_shared h all_proxies in
  filter_blocked_regions_shared d.2 d.1 = Ok filtered ->
  Permutation completion (seq 0 (length filtered)) ->
  test_proxies_latency_shared int_of_str net completion d.2 filtered
  = Ok (probed, h') ->
  NoDup (names_of (h' <$> probed)).
Proof.
  intros Hnd Hclash d Hf Hc Hp.
  destruct (deduplicate_proxies_shared_values h all_proxies Hnd)
    as [Hv Hsub].
  fold d in Hv, Hsub.
  pose proof (filter_blocked_regions_shared_values d.2 d.1) as Hfs.
  destruct (filter_blocked_regions (d.2 <$> d.1)) as [out|e] eqn:HfV;
    [|rewrite Hf in Hfs; discriminate].
  destruct Hfs as (objs' & Hfs & Hval & Hsub').
  rewrite Hf in Hfs. injection Hfs as <-.
  assert (Hndf : NoDup filtered).
  { eapply sublist_NoDup; [|exact Hsub'].
    eapply sublist_NoDup; [exact Hnd | exact Hsub]. }
  assert (Hcnd : NoDup completion) by (rewrite Hc; apply NoDup_seq).
  pose proof (test_proxies_latency_shared_values int_of_str net d.2 filtered
                completion Hndf Hcnd) as Hps.
  destruct (test_proxies_latency int_of_str net completion
              (d.2 <$> filtered)) as [outV|e] eqn:HpV;
    [|rewrite Hp in Hps; discriminate].
  destruct Hps as (objs'' & h'' & Hps & Hout).
  rewrite Hp in Hps. injection Hps as <- <-. rewrite Hout.
  rewrite Hv in HfV. rewrite <- Hval in HfV.
  apply (pipeline_distinct_values int_of_str net completion
           (entry_of h <$> all_proxies) (d.2 <$> filtered) outV Hclash HfV);
    [|exact HpV].
  rewrite length_fmap. exact Hc.
Qed.

Lemma returns_returned {A} (dflt : A) (r : result A) :
  returns r = true -> r = Ok (returned dflt r).
Proof. destruct r; [reflexivity | discriminate]. Qed.

Lemma pipeline_names_distinct_witness :
  let h := fun o => match o with 1%nat => node "CN-1" | _ => node "A" end in
  let d := deduplicate_proxies_shared h [RDict 0; RDict 1; RDict 2] in
  let out :=
    returned ([], h)
      (test_proxies_latency_shared (fun _ => None)
         (fun _ _ _ => Connected 12) [1%nat; 0%nat] d.2 [0%nat; 2%nat]) in
  filter_blocked_regions_shared d.2 d.1 = Ok [0%nat; 2%nat]
  /\ names_of (out.2 <$> out.1) = [u "[12ms] A_1"; u "[12ms] A"]
  /\ NoDup (names_of (out.2 <$> out.1)).
Proof.
  intros h d out.
  assert (Hf : filter_blocked_regions_shared d.2 d.1 = Ok [0%nat; 2%nat])
    by (vm_compute; reflexivity).
  split; [exact Hf|]. split; [vm_compute; reflexivity|].
  apply (pipeline_names_distinct (fun _ => None)
           (fun _ _ _ => Connected 12) [1%nat; 0%nat] h out.2
           [RDict 0; RDict 1; RDict 2] [0%nat; 2%nat] out.1).
  - refine (bool_decide_unpack _ _). vm_compute. exact I.
  - intros s t k Hs Ht _ Heq.
    assert (Hlen : forall x,
              In x (base_names (entry_of h <$> [RDict 0; RDict 1; RDict 2]))
              -> x = u "A" \/ x = u "CN-1").
    { intros x Hx. vm_compute in Hx.
      destruct Hx as [<-|[<-|[<-|[]]]]; vm_compute; tauto. }
    destruct (Hlen s Hs) as [-> | ->], (Hlen t Ht) as [-> | ->];
      rewrite u_underscore in Heq; vm_compute in Heq;
      try discriminate.
  - exact Hf.
  - apply perm_swap.
  - rewrite <- surjective_pairing. apply returns_returned.
    vm_compute. reflexivity.
Defined.

(** ** The Normalizer on an object that is listed twice *)





(** The same holds of the Prober: an object that is listed twice is probed
    twice and, when both probes connect, its name is prefixed twice. *)
Lemma test_proxies_latency_shared_alias :
  let out :=
    returned ([], fun _ => node "A")
      (test_proxies_latency_shared (fun _ => None)
         (fun _ _ _ => Connected 12) [0%nat; 1%nat] (fun _ => node "A")
         [0%nat; 0%nat]) in
  out.1 = [0%nat; 0%nat]
  /\ names_of (out.2 <$> out.1)
     = [u "[12ms] [12ms] A"; u "[12ms] [12ms] A"].
Proof. vm_compute. split; reflexivity. Qed.
